(** * Pseudo-Rigid-Body model of a compliant bistable four-bar

    A shallow embedding of [constants.ts], [types.ts] and [PRBModel.ts],
    and of the computations of the component in [App.tsx].

    Numbers.  A TypeScript [number] is embedded as a real number or
    the absence of one: [JS.num] is [option R], where [Some r] is the
    finite number [r] and [None] stands for the values that are not
    real numbers ([NaN] and the infinities).  Arithmetic is exact on
    finite numbers; a quotient by zero, a square root of a negative
    number and an inverse cosine outside [[-1, 1]] are [None], and
    every operation passes [None] on.  Comparisons with [None] are
    false, as with [NaN].

    Reading an infinity as [None] is faithful here.  The source divides
    by something other than a literal in three places.  The stiffness
    [K] (divisor [L4 / 100]) and the coefficient [h42] are only
    multiplied afterwards, and a product with an infinity is an
    infinity or [NaN].  The law-of-cosines quotient is compared and
    clamped afterwards, which would tell an infinity from [NaN]; lemma
    [Evaluator.cosBeta_zero_over_zero] shows that in a feasible
    assembly its divisor vanishes only together with its dividend, so
    that the source computes [0 / 0], which is [NaN].

    Rounding and signed zeros are outside the model: every theorem
    speaks about the exact-arithmetic reading of the code.  Parameter
    sets and crank angles are finite numbers. *)

From Stdlib Require Import Reals Lra Psatz ZArith Bool List Sorted.
From Stdlib Require String.

Open Scope R_scope.

(** ** The number operations of the host language *)

Module JS.

(** *** On real numbers *)

Definition ltR (x y : R) : bool := if Rlt_dec x y then true else false.
Definition leR (x y : R) : bool := if Rle_dec x y then true else false.
Definition gtR (x y : R) : bool := if Rgt_dec x y then true else false.

(** Rounding toward zero, the integer quotient behind [%]. *)
Definition trunc (x : R) : Z :=
  if Rle_dec 0 x then Int_part x else (- Int_part (- x))%Z.

(** [a % b] for a divisor other than zero: the remainder keeps the
    sign of the dividend. *)
Definition remR (a b : R) : R := a - b * IZR (trunc (a / b)).

(** [Math.atan2(y, x)]: the angle of the point [(x, y)], in
    [(-PI, PI]]. *)
Definition atan2R (y x : R) : R :=
  if Rlt_dec 0 x then atan (y / x)
  else if Rlt_dec x 0 then
    (if Rle_dec 0 y then atan (y / x) + PI else atan (y / x) - PI)
  else
    (if Rlt_dec 0 y then PI / 2
     else if Rlt_dec y 0 then - (PI / 2)
     else 0).

(** *** On numbers *)

Definition num : Type := option R.
Definition fin (r : R) : num := Some r.

Definition lift1 (f : R -> R) (x : num) : num :=
  match x with
  | Some a => Some (f a)
  | None => None
  end.

Definition lift2 (f : R -> R -> R) (x y : num) : num :=
  match x, y with
  | Some a, Some b => Some (f a b)
  | _, _ => None
  end.

Definition add : num -> num -> num := lift2 Rplus.
Definition sub : num -> num -> num := lift2 Rminus.
Definition mul : num -> num -> num := lift2 Rmult.

Definition div (x y : num) : num :=
  match x, y with
  | Some a, Some b => if Req_dec_T b 0 then None else Some (a / b)
  | _, _ => None
  end.

Definition rem (x y : num) : num :=
  match x, y with
  | Some a, Some b => if Req_dec_T b 0 then None else Some (remR a b)
  | _, _ => None
  end.

(** [Math.pow(x, n)] for a literal natural exponent. *)
Definition pow (x : num) (n : nat) : num := lift1 (fun a => a ^ n) x.

Definition sqrt (x : num) : num :=
  match x with
  | Some a => if Rlt_dec a 0 then None else Some (R_sqrt.sqrt a)
  | None => None
  end.

Definition acos (x : num) : num :=
  match x with
  | Some a =>
      if Rle_dec (-1) a then
        if Rle_dec a 1 then Some (Ratan.acos a) else None
      else None
  | None => None
  end.

Definition sin : num -> num := lift1 Rtrigo_def.sin.
Definition cos : num -> num := lift1 Rtrigo_def.cos.
Definition abs : num -> num := lift1 Rabs.
Definition max : num -> num -> num := lift2 Rmax.
Definition min : num -> num -> num := lift2 Rmin.
Definition atan2 : num -> num -> num := lift2 atan2R.

Definition lt (x y : num) : bool :=
  match x, y with
  | Some a, Some b => ltR a b
  | _, _ => false
  end.

Definition le (x y : num) : bool :=
  match x, y with
  | Some a, Some b => leR a b
  | _, _ => false
  end.

Definition gt (x y : num) : bool :=
  match x, y with
  | Some a, Some b => gtR a b
  | _, _ => false
  end.

End JS.

Coercion JS.fin : R >-> JS.num.

Declare Scope num_scope.
Delimit Scope num_scope with num.
Bind Scope num_scope with JS.num.

Notation "x + y" := (JS.add x y) : num_scope.
Notation "x - y" := (JS.sub x y) : num_scope.
Notation "x * y" := (JS.mul x y) : num_scope.
Notation "x / y" := (JS.div x y) : num_scope.

(** ** types.ts *)

Module Types.

Import JS.

(** A parameter set holds finite numbers. *)
Record MechanismParams : Type := {
  r1 : R;       (* Ground link *)
  r2 : R;       (* Crank (rigid) *)
  r3 : R;       (* Coupler (rigid) *)
  L4 : R;       (* Rocker (flexible beam length) *)
  E : R;        (* Young's modulus (Pa) *)
  b : R;        (* Width (out-of-plane, m) *)
  h : R;        (* Thickness (in-plane bending dimension, m) *)
  theta20 : R;  (* Undeflected crank angle (deg) *)
  theta40 : R   (* Undeflected PRB rocker angle (deg) *)
}.

Record PRBDetails : Type := {
  gamma : num;
  kTheta : num;
  r4 : num;
  I : num;
  K : num
}.

Record SimulationPoint : Type := {
  theta2 : num;
  theta3 : num;
  theta4 : num;
  deltaTheta2 : num;
  energy : num;
  torque : num;
  isValid : bool;
  prb : PRBDetails
}.

Record JointPositions : Type := {
  A0 : num * num;
  A : num * num;
  B : num * num;
  B0 : num * num
}.

End Types.

(** ** constants.ts *)

Module Constants.

Definition PRB_GAMMA : R := 0.85.
Definition PRB_K_THETA : R := 2.65.

Definition DEFAULT_PARAMS : Types.MechanismParams :=
  {| Types.r1 := 3.0;
     Types.r2 := 1.5;
     Types.r3 := 3.71;
     Types.L4 := 4.32;
     Types.E := 1.4e9;
     Types.b := 0.005;
     Types.h := 0.0015;
     Types.theta20 := 90;
     Types.theta40 := 90 |}.

End Constants.

(** ** PRBModel.ts *)

Module PRBModel.

Import JS Types Constants.

Definition normalizeDegrees (deg : num) : num :=
  let d := JS.rem deg 360 in
  let d := if JS.gt d 180 then (d - 360)%num else d in
  let d := if JS.le d (-180) then (d + 360)%num else d in
  d.

Definition normalizeRadians (rad : num) : num :=
  let r := JS.rem rad (2 * PI)%num in
  let r := if JS.gt r PI then (r - 2 * PI)%num else r in
  let r := if JS.le r (- PI)%R then (r + 2 * PI)%num else r in
  r.

Definition calculateKinematics
    (theta2Deg : R) (params : MechanismParams) : SimulationPoint :=
  let theta2Deg : num := theta2Deg in
  let r1 : num := r1 params in
  let r2 : num := r2 params in
  let r3 : num := r3 params in
  let L4 : num := L4 params in
  let E : num := E params in
  let b : num := b params in
  let h : num := h params in
  let theta40 : num := theta40 params in
  let theta20 : num := theta20 params in
  (* PRB link length: r4 = gamma * L4 *)
  let r4 := (PRB_GAMMA * L4)%num in
  let theta2Rad := ((theta2Deg * PI) / 180)%num in
  let theta40Rad := ((theta40 * PI) / 180)%num in
  (* PRB torsional stiffness; L4 is converted to meters here only *)
  let L4_meters := (L4 / 100)%num in
  let I_val := ((b * JS.pow h 3) / 12)%num in
  let K_val := (PRB_GAMMA * PRB_K_THETA * (E * I_val / L4_meters))%num in
  let prb :=
    {| gamma := PRB_GAMMA;
       kTheta := PRB_K_THETA;
       Types.r4 := r4;
       I := I_val;
       K := K_val |} in
  (* Vector from B0 (characteristic pivot) to A; B0 is at (r1, 0) *)
  let Ax := (r2 * JS.cos theta2Rad)%num in
  let Ay := (r2 * JS.sin theta2Rad)%num in
  let dx := (Ax - r1)%num in
  let dy := Ay in
  let distSq := (dx * dx + dy * dy)%num in
  let dist := JS.sqrt distSq in
  (* Assembly condition for the rigid four-bar equivalent; the three
     mutable locals isValid, t3, t4 leave the conditional as a triple *)
  let '(isValid, t3, t4) :=
    if JS.gt dist (r3 + r4)%num || JS.lt dist (JS.abs (r3 - r4)%num) then
      (false, fin 0, fin 0)
    else
      (* Law of cosines for the interior angle beta at B0 *)
      let cosBeta := ((r4 * r4 + distSq - r3 * r3) / (2 * r4 * dist))%num in
      let beta := JS.acos (JS.max (-1) (JS.min 1 cosBeta)) in
      let phi := JS.atan2 dy dx in
      (* Rocker points up *)
      let t4 := (phi - beta)%num in
      let Bx := (r1 + r4 * JS.cos t4)%num in
      let By := (r4 * JS.sin t4)%num in
      let t3 := JS.atan2 (By - Ay)%num (Bx - Ax)%num in
      (true, t3, t4) in
  (* Spring deflection, normalized to avoid discontinuities *)
  let deltaTheta4 :=
    if isValid then normalizeRadians (t4 - theta40Rad)%num else fin 0 in
  (* Potential energy V = 0.5 * K * deltaTheta4^2 *)
  let energy :=
    if isValid then (0.5 * K_val * JS.pow deltaTheta4 2)%num else fin 0 in
  (* Kinematic coefficient h42 = d(theta4)/d(theta2) *)
  let h42_val :=
    if isValid
    then ((r2 * JS.sin (t3 - theta2Rad)) / (r4 * JS.sin (t3 - t4)))%num
    else fin 0 in
  let torque_val :=
    if isValid then (K_val * deltaTheta4 * h42_val)%num else fin 0 in
  {| theta2 := theta2Deg;
     theta3 := normalizeDegrees ((t3 * 180) / PI)%num;
     theta4 := normalizeDegrees ((t4 * 180) / PI)%num;
     deltaTheta2 := (theta2Deg - theta20)%num;
     Types.energy := energy;
     torque := torque_val;
     isValid := isValid;
     Types.prb := prb |}.

Definition getJointPositions
    (point : SimulationPoint) (params : MechanismParams) : JointPositions :=
  let r1 : num := r1 params in
  let r2 : num := r2 params in
  let r3 : num := r3 params in
  let theta2Rad := ((theta2 point * PI) / 180)%num in
  let theta3Rad := ((theta3 point * PI) / 180)%num in
  let A0_pos : num * num := (fin 0, fin 0) in
  let B0_pos : num * num := (r1, fin 0) in
  let A_pos := ((r2 * JS.cos theta2Rad)%num, (r2 * JS.sin theta2Rad)%num) in
  let B_pos :=
    ((fst A_pos + r3 * JS.cos theta3Rad)%num,
     (snd A_pos + r3 * JS.sin theta3Rad)%num) in
  {| A0 := A0_pos; A := A_pos; B := B_pos; B0 := B0_pos |}.

End PRBModel.

(** ** The four-bar geometry, as the specification words it

    The quantities below are written from the prose description of the
    evaluator (points, distances, angles); the theorems relate the
    record returned by [PRBModel.calculateKinematics] to them.  Points
    and lengths are real numbers.  What involves the law-of-cosines
    quotient comes twice: as a number (suffix [N]), with the quotient
    taken as the source takes it, and as a real number, which the
    former equals whenever the divisor of the quotient is not zero. *)

Module Linkage.

Import Types Constants.

Definition toRadians (deg : R) : R := deg * PI / 180.
Definition toDegrees (rad : R) : R := rad * 180 / PI.
Definition toDegreesN (rad : JS.num) : JS.num := (rad * 180 / PI)%num.

(** Euclidean distance between two points of the plane. *)
Definition distance (P Q : R * R) : R :=
  sqrt ((fst P - fst Q) ^ 2 + (snd P - snd Q) ^ 2).

(** The same on points whose coordinates are numbers. *)
Definition distanceN (P Q : JS.num * JS.num) : JS.num :=
  JS.sqrt (JS.pow (fst P - fst Q)%num 2 + JS.pow (snd P - snd Q)%num 2)%num.

(** Reduced rocker length [r4 = 0.85 * L4]. *)
Definition rocker (p : MechanismParams) : R := 0.85 * L4 p.

(** Crank pin [A = (r2 cos theta2, r2 sin theta2)]. *)
Definition crankPin (theta2 : R) (p : MechanismParams) : R * R :=
  (r2 p * cos (toRadians theta2), r2 p * sin (toRadians theta2)).

(** Fixed pivot [B0 = (r1, 0)]; the crank pivot [A0] is the origin. *)
Definition rockerPivot (p : MechanismParams) : R * R := (r1 p, 0).

(** [d = |A - B0|]. *)
Definition pinDistance (theta2 : R) (p : MechanismParams) : R :=
  distance (crankPin theta2 p) (rockerPivot p).

(** The two circles do not meet: [d > r3 + r4] or [d < |r3 - r4|]. *)
Definition infeasible (theta2 : R) (p : MechanismParams) : Prop :=
  pinDistance theta2 p > r3 p + rocker p \/
  pinDistance theta2 p < Rabs (r3 p - rocker p).

(** The divisor [2 r4 d] of the law-of-cosines quotient is not zero:
    the reduced rocker has a length and the crank pin is off the
    rocker pivot. *)
Definition offPivot (theta2 : R) (p : MechanismParams) : Prop :=
  2 * rocker p * pinDistance theta2 p <> 0.

(** [cos beta = (r4^2 + d^2 - r3^2) / (2 r4 d)]. *)
Definition cosBeta (theta2 : R) (p : MechanismParams) : R :=
  (rocker p ^ 2 + pinDistance theta2 p ^ 2 - r3 p ^ 2)
  / (2 * rocker p * pinDistance theta2 p).
Definition cosBetaN (theta2 : R) (p : MechanismParams) : JS.num :=
  (JS.fin (rocker p ^ 2 + pinDistance theta2 p ^ 2 - r3 p ^ 2)
   / JS.fin (2 * rocker p * pinDistance theta2 p))%num.

(** Clamping to [[-1, 1]]. *)
Definition clamp (x : R) : R := Rmax (-1) (Rmin 1 x).
Definition clampN (x : JS.num) : JS.num := JS.max (-1) (JS.min 1 x).

Definition beta (theta2 : R) (p : MechanismParams) : R :=
  acos (clamp (cosBeta theta2 p)).
Definition betaN (theta2 : R) (p : MechanismParams) : JS.num :=
  JS.acos (clampN (cosBetaN theta2 p)).

(** [phi = atan2(Ay - B0y, Ax - B0x)]. *)
Definition phi (theta2 : R) (p : MechanismParams) : R :=
  JS.atan2R (snd (crankPin theta2 p) - snd (rockerPivot p))
            (fst (crankPin theta2 p) - fst (rockerPivot p)).

(** The committed branch [phi - beta]. *)
Definition rockerAngle (theta2 : R) (p : MechanismParams) : R :=
  phi theta2 p - beta theta2 p.
Definition rockerAngleN (theta2 : R) (p : MechanismParams) : JS.num :=
  (phi theta2 p - betaN theta2 p)%num.

(** [B = B0 + r4 (cos theta4, sin theta4)]. *)
Definition rockerPin (theta2 : R) (p : MechanismParams) : R * R :=
  (fst (rockerPivot p) + rocker p * cos (rockerAngle theta2 p),
   snd (rockerPivot p) + rocker p * sin (rockerAngle theta2 p)).
Definition rockerPinN (theta2 : R) (p : MechanismParams) : JS.num * JS.num :=
  ((fst (rockerPivot p) + rocker p * JS.cos (rockerAngleN theta2 p))%num,
   (snd (rockerPivot p) + rocker p * JS.sin (rockerAngleN theta2 p))%num).

(** [theta3 = atan2(By - Ay, Bx - Ax)]. *)
Definition couplerAngle (theta2 : R) (p : MechanismParams) : R :=
  JS.atan2R (snd (rockerPin theta2 p) - snd (crankPin theta2 p))
            (fst (rockerPin theta2 p) - fst (crankPin theta2 p)).
Definition couplerAngleN (theta2 : R) (p : MechanismParams) : JS.num :=
  JS.atan2 (snd (rockerPinN theta2 p) - snd (crankPin theta2 p))%num
           (fst (rockerPinN theta2 p) - fst (crankPin theta2 p))%num.

(** [I = b h^3 / 12] and [K = 0.85 * 2.65 * E * I / (L4 / 100)]. *)
Definition secondMoment (p : MechanismParams) : R := b p * h p ^ 3 / 12.
Definition stiffness (p : MechanismParams) : R :=
  0.85 * 2.65 * E p * secondMoment p / (L4 p / 100).
Definition stiffnessN (p : MechanismParams) : JS.num :=
  (0.85 * 2.65 * E p * secondMoment p / (L4 p / 100))%num.

(** The three lines shared by [normalizeDegrees] and
    [normalizeRadians], on a real number and at the half-period
    [half]; the two normalizations of a real number. *)
Definition wrap (half x : R) : R :=
  let d := JS.remR x (2 * half) in
  let d := if JS.gtR d half then d - 2 * half else d in
  let d := if JS.leR d (- half) then d + 2 * half else d in
  d.
Definition normalizeDegreesR (deg : R) : R := wrap 180 deg.
Definition normalizeRadiansR (rad : R) : R := wrap PI rad.

(** [deltaTheta4 = normalizeRadians(theta4 - theta40)]. *)
Definition deflection (theta2 : R) (p : MechanismParams) : R :=
  normalizeRadiansR (rockerAngle theta2 p - toRadians (theta40 p)).
Definition deflectionN (theta2 : R) (p : MechanismParams) : JS.num :=
  PRBModel.normalizeRadians
    (rockerAngleN theta2 p - toRadians (theta40 p))%num.

(** [h42 = (r2 sin(theta3 - theta2)) / (r4 sin(theta3 - theta4))]. *)
Definition h42N (theta2 : R) (p : MechanismParams) : JS.num :=
  ((r2 p * JS.sin (couplerAngleN theta2 p - toRadians theta2))
   / (rocker p * JS.sin (couplerAngleN theta2 p - rockerAngleN theta2 p)))%num.

(** The derived constants embedded in every state. *)
Definition prbOf (p : MechanismParams) : PRBDetails :=
  {| gamma := JS.fin 0.85;
     kTheta := JS.fin 2.65;
     r4 := JS.fin (rocker p);
     I := JS.fin (secondMoment p);
     K := stiffnessN p |}.

(** The assembly test of the source (its line 83), taken on the
    geometric quantities. *)
Definition assemblyFails (theta2 : R) (p : MechanismParams) : bool :=
  JS.gtR (pinDistance theta2 p) (r3 p + rocker p)
  || JS.ltR (pinDistance theta2 p) (Rabs (r3 p - rocker p)).

End Linkage.

(** ** Concrete scenarios

    The reference parameter set evaluated at 90 and at -90 degrees, a
    parameter set that cannot assemble, one whose crank pin lands on
    the rocker pivot, and one that reaches a toggle. *)

Module Scenario.

Import Types Constants Linkage.

(** Ground link 10 against a crank, coupler and rocker of length 1:
    the crank pin never comes within reach of the rocker pivot. *)
Definition farParams : MechanismParams :=
  {| r1 := 10; r2 := 1; r3 := 1; L4 := 1;
     E := 1; b := 1; h := 1; theta20 := 0; theta40 := 0 |}.

(** Crank as long as the ground link and coupler as long as the
    reduced rocker: at crank angle 0 the crank pin is on the rocker
    pivot and the two circles coincide. *)
Definition coincidentParams : MechanismParams :=
  {| r1 := 1; r2 := 1; r3 := 0.85; L4 := 1;
     E := 1.4e9; b := 0.005; h := 0.0015; theta20 := 0; theta40 := 0 |}.

(** A linkage stretched out along the ground line at crank angle 0:
    [A = (20, 0)], [B0 = (10, 0)], [r4 = 17] and [r3 = 7], so that
    the circles touch at [B = (27, 0)] and coupler and rocker are
    aligned (a toggle). *)
Definition toggleParams : MechanismParams :=
  {| r1 := 10; r2 := 20; r3 := 7; L4 := 20;
     E := 1.4e9; b := 0.005; h := 0.0015; theta20 := 0; theta40 := 0 |}.

(** At 90 and at -90 degrees the crank pin of the reference set is at
    [(0, 1.5)] and [(0, -1.5)]: its distance to the rocker pivot
    [(3, 0)] is the same. *)
Definition D : R := sqrt 11.25.

(** The law-of-cosines quotient at that distance, with
    [r4 = 3.672] and [r3 = 3.71]; its angle and the sine of it. *)
Definition c0 : R := 10.969484 / (7.344 * D).
Definition beta0 : R := acos c0.
Definition s0 : R := sqrt (1 - c0²).

(** Direction of the crank pin seen from the rocker pivot. *)
Definition phi90 : R := phi 90 DEFAULT_PARAMS.
Definition phi270 : R := phi (-90) DEFAULT_PARAMS.

(** Solved rocker and coupler angles, in radians, before reporting. *)
Definition t4_90 : R := rockerAngle 90 DEFAULT_PARAMS.
Definition t4_270 : R := rockerAngle (-90) DEFAULT_PARAMS.
Definition t3_90 : R := couplerAngle 90 DEFAULT_PARAMS.
Definition t3_270 : R := couplerAngle (-90) DEFAULT_PARAMS.

End Scenario.

(** ** constants.ts: the material table *)

Module Materials.

Import String.
Import ListNotations.

Record Material : Type := {
  name : string;
  E : R
}.

Definition MATERIALS : list Material :=
  [ {| name := "Polypropylene"%string; E := 1.4e9 |};
    {| name := "Steel"%string; E := 207e9 |};
    {| name := "Aluminum"%string; E := 70e9 |};
    {| name := "Nylon"%string; E := 2.8e9 |};
    {| name := "Polysilicon"%string; E := 160e9 |} ].

End Materials.

(** ** App.tsx: the computations of the component

    The component keeps a parameter set and a crank angle, and derives
    from them the swept curve, the current state, the joint positions
    and the outline of the flexible beam.  What follows are these
    computations; markup, styling and event wiring are not modelled. *)

Module App.

Import JS Types Constants PRBModel.
Import ListNotations.

(** The loop that fills [simulationData]:
    [for (let t = -180; t <= 180; t += 1)], the counter being a whole
    number.  [fuel] bounds the number of tests of the loop condition. *)
Fixpoint sweep (fuel : nat) (t : Z) (params : MechanismParams)
    (data : list SimulationPoint) : list SimulationPoint :=
  match fuel with
  | O => data
  | S fuel' =>
      if (t <=? 180)%Z then
        let p := calculateKinematics (theta20 params + IZR t) params in
        let data := if isValid p then data ++ [p] else data in
        sweep fuel' (t + 1)%Z params data
      else data
  end.

(** 361 passes and the test that ends the loop. *)
Definition simulationData (params : MechanismParams) : list SimulationPoint :=
  sweep 362 (-180)%Z params [].

Definition currentPoint (theta2 : R) (params : MechanismParams)
    : SimulationPoint :=
  calculateKinematics theta2 params.

Definition positions (theta2 : R) (params : MechanismParams)
    : JointPositions :=
  getJointPositions (currentPoint theta2 params) params.

Definition currentDeltaTheta2 (theta2 : R) (params : MechanismParams) : num :=
  (theta2 - theta20 params)%num.

(** One animation frame: the function handed to [setTheta2]. *)
Definition nextTheta2 (prev : R) : R :=
  let next := prev + 1.2 in
  if JS.gtR next 180 then -180 else next.

(** [keyof MechanismParams]. *)
Inductive ParamKey : Type :=
  | key_r1 | key_r2 | key_r3 | key_L4 | key_E | key_b | key_h
  | key_theta20 | key_theta40.

(** [updateParam]: the function handed to [setParams],
    [prev => ({ ...prev, [key]: value })]. *)
Definition updateParam (key : ParamKey) (value : R) (prev : MechanismParams)
    : MechanismParams :=
  match key with
  | key_r1 =>
      {| r1 := value; r2 := r2 prev; r3 := r3 prev; L4 := L4 prev;
         E := E prev; b := b prev; h := h prev;
         theta20 := theta20 prev; theta40 := theta40 prev |}
  | key_r2 =>
      {| r1 := r1 prev; r2 := value; r3 := r3 prev; L4 := L4 prev;
         E := E prev; b := b prev; h := h prev;
         theta20 := theta20 prev; theta40 := theta40 prev |}
  | key_r3 =>
      {| r1 := r1 prev; r2 := r2 prev; r3 := value; L4 := L4 prev;
         E := E prev; b := b prev; h := h prev;
         theta20 := theta20 prev; theta40 := theta40 prev |}
  | key_L4 =>
      {| r1 := r1 prev; r2 := r2 prev; r3 := r3 prev; L4 := value;
         E := E prev; b := b prev; h := h prev;
         theta20 := theta20 prev; theta40 := theta40 prev |}
  | key_E =>
      {| r1 := r1 prev; r2 := r2 prev; r3 := r3 prev; L4 := L4 prev;
         E := value; b := b prev; h := h prev;
         theta20 := theta20 prev; theta40 := theta40 prev |}
  | key_b =>
      {| r1 := r1 prev; r2 := r2 prev; r3 := r3 prev; L4 := L4 prev;
         E := E prev; b := value; h := h prev;
         theta20 := theta20 prev; theta40 := theta40 prev |}
  | key_h =>
      {| r1 := r1 prev; r2 := r2 prev; r3 := r3 prev; L4 := L4 prev;
         E := E prev; b := b prev; h := value;
         theta20 := theta20 prev; theta40 := theta40 prev |}
  | key_theta20 =>
      {| r1 := r1 prev; r2 := r2 prev; r3 := r3 prev; L4 := L4 prev;
         E := E prev; b := b prev; h := h prev;
         theta20 := value; theta40 := theta40 prev |}
  | key_theta40 =>
      {| r1 := r1 prev; r2 := r2 prev; r3 := r3 prev; L4 := L4 prev;
         E := E prev; b := b prev; h := h prev;
         theta20 := theta20 prev; theta40 := value |}
  end.

(** Reading the field a key names, [params[key]]. *)
Definition readParam (key : ParamKey) (params : MechanismParams) : R :=
  match key with
  | key_r1 => r1 params
  | key_r2 => r2 params
  | key_r3 => r3 params
  | key_L4 => L4 params
  | key_E => E params
  | key_b => b params
  | key_h => h params
  | key_theta20 => theta20 params
  | key_theta40 => theta40 params
  end.

(** The numbers [CompliantBeam] draws: the clamped end of the beam,
    the two control points and the end point of the cubic curve from
    the one to the other, and the rotation of the wall symbol. *)
Record BeamOutline : Type := {
  baseX : num;
  baseY : num;
  cp1x : num;
  cp1y : num;
  cp2x : num;
  cp2y : num;
  xTip : num;
  yTip : num;
  wallRotation : num
}.

(** [CompliantBeam]; [None] is the [null] returned for an invalid
    state. *)
Definition CompliantBeam (params : MechanismParams) (point : SimulationPoint)
    : option BeamOutline :=
  if negb (isValid point) then None
  else
    let r1 : num := r1 params in
    let L4 : num := L4 params in
    let theta40 : num := theta40 params in
    let t4Rad := ((theta4 point * PI) / 180)%num in
    let t40Rad := ((theta40 * PI) / 180)%num in
    let r4 := Types.r4 (prb point) in
    let pivotX := r1 in
    let pivotY : num := fin 0 in
    let baseOffset := ((1 - PRB_GAMMA) * L4)%num in
    let baseX := (pivotX - baseOffset * JS.cos t40Rad)%num in
    let baseY := (pivotY - baseOffset * JS.sin t40Rad)%num in
    let xTip := (pivotX + r4 * JS.cos t4Rad)%num in
    let yTip := (pivotY + r4 * JS.sin t4Rad)%num in
    let hLen := (L4 * 0.45)%num in
    let cp1x := (baseX + hLen * 0.3 * JS.cos t40Rad)%num in
    let cp1y := (baseY + hLen * 0.3 * JS.sin t40Rad)%num in
    let cp2x := (xTip - r4 * 0.4 * JS.cos t4Rad)%num in
    let cp2y := (yTip - r4 * 0.4 * JS.sin t4Rad)%num in
    Some {| baseX := baseX; baseY := baseY;
            cp1x := cp1x; cp1y := cp1y;
            cp2x := cp2x; cp2y := cp2y;
            xTip := xTip; yTip := yTip;
            wallRotation := (theta40 - 90)%num |}.

End App.

(** ** Notions used to word the properties *)

Module Notions.

Import Types.

(** Twice the signed area of the triangle [O P Q]: positive when [Q]
    lies to the left of the directed line from [O] to [P]. *)
Definition cross (O P Q : R * R) : R :=
  (fst P - fst O) * (snd Q - snd O) - (snd P - snd O) * (fst Q - fst O).

(** The whole numbers [lo, lo + 1, ...], [n] of them. *)
Definition wholeFrom (lo : Z) (n : nat) : list Z :=
  map (fun i => (lo + Z.of_nat i)%Z) (seq 0 n).

(** Two parameter sets with the same link lengths. *)
Definition sameLinks (p q : MechanismParams) : Prop :=
  r1 p = r1 q /\ r2 p = r2 q /\ r3 p = r3 q /\ L4 p = L4 q.

(** The state the sweep computes at the whole offset [t]. *)
Definition sweptPoint (p : MechanismParams) (t : Z) : SimulationPoint :=
  PRBModel.calculateKinematics (theta20 p + IZR t) p.

(** One state is plotted to the left of another. *)
Definition plottedBefore (s s' : SimulationPoint) : Prop :=
  exists x x' : R,
    deltaTheta2 s = JS.fin x /\ deltaTheta2 s' = JS.fin x' /\ x < x'.

(** A property holds near a point. *)
Definition near (x0 : R) (P : R -> Prop) : Prop :=
  exists r : R, 0 < r /\ forall x : R, Rabs (x - x0) < r -> P x.

(** A function has a derivative at a point. *)
Definition derivable_at (f : R -> R) (x0 : R) : Prop :=
  exists l : R, derivable_pt_lim f x0 l.

(** The real number a number stands for; [0] for what is not a
    number. *)
Definition value (n : JS.num) : R :=
  match n with
  | Some r => r
  | None => 0
  end.

End Notions.

(** ** Facts about the operations on real numbers *)

Module JSFacts.

Lemma ltR_true (x y : R) : JS.ltR x y = true <-> x < y.
Proof. unfold JS.ltR; destruct (Rlt_dec x y); split; intros; auto; discriminate. Qed.

Lemma ltR_false (x y : R) : JS.ltR x y = false <-> y <= x.
Proof.
  unfold JS.ltR; destruct (Rlt_dec x y); split; intros; auto; try discriminate; lra.
Qed.

Lemma leR_true (x y : R) : JS.leR x y = true <-> x <= y.
Proof. unfold JS.leR; destruct (Rle_dec x y); split; intros; auto; discriminate. Qed.

Lemma leR_false (x y : R) : JS.leR x y = false <-> y < x.
Proof.
  unfold JS.leR; destruct (Rle_dec x y); split; intros; auto; try discriminate; lra.
Qed.

Lemma gtR_true (x y : R) : JS.gtR x y = true <-> x > y.
Proof. unfold JS.gtR; destruct (Rgt_dec x y); split; intros; auto; discriminate. Qed.

Lemma gtR_false (x y : R) : JS.gtR x y = false <-> x <= y.
Proof.
  unfold JS.gtR; destruct (Rgt_dec x y); split; intros; auto; try discriminate; lra.
Qed.

(** The integer part sits within one unit below its argument. *)
Lemma Int_part_bounds (x : R) : IZR (Int_part x) <= x < IZR (Int_part x) + 1.
Proof. destruct (base_Int_part x); lra. Qed.

(** An integer strictly between [-1] and [1] is [0]. *)
Lemma IZR_small (k : Z) : -1 < IZR k < 1 -> k = 0%Z.
Proof.
  intros [Hlo Hhi].
  apply lt_IZR in Hlo. apply lt_IZR in Hhi. lia.
Qed.

(** The remainder differs from the dividend by a whole number of
    divisors. *)
Lemma remR_congr (a m : R) : exists k : Z, JS.remR a m = a + m * IZR k.
Proof.
  exists (- JS.trunc (a / m))%Z. unfold JS.remR. rewrite opp_IZR. ring.
Qed.

(** It lies strictly within one divisor of zero. *)
Lemma remR_range (a m : R) : 0 < m -> - m < JS.remR a m < m.
Proof.
  intros Hm. unfold JS.remR, JS.trunc.
  assert (Ha : a = m * (a / m)) by (field; lra).
  destruct (Rle_dec 0 (a / m)) as [Hq | Hq].
  - pose proof (Int_part_bounds (a / m)) as Hi. nra.
  - pose proof (Int_part_bounds (- (a / m))) as Hi.
    rewrite opp_IZR. nra.
Qed.

End JSFacts.

(** ** Trigonometry of [Math.atan2] *)

Module Trig.

Lemma atan_nonpos (t : R) : t <= 0 -> atan t <= 0.
Proof.
  intros [Ht | ->].
  - left. rewrite <- atan_0. apply atan_increasing, Ht.
  - rewrite atan_0. lra.
Qed.

Lemma atan_pos (t : R) : 0 < t -> 0 < atan t.
Proof. intros Ht. rewrite <- atan_0. apply atan_increasing, Ht. Qed.

Lemma div_neg_nonneg (y x : R) : x < 0 -> 0 <= y -> y / x <= 0.
Proof.
  intros Hx Hy. unfold Rdiv.
  assert (/ x < 0) by (apply Rinv_lt_0_compat, Hx). nra.
Qed.

Lemma div_neg_neg (y x : R) : x < 0 -> y < 0 -> 0 < y / x.
Proof.
  intros Hx Hy. unfold Rdiv.
  assert (/ x < 0) by (apply Rinv_lt_0_compat, Hx). nra.
Qed.

Lemma atan2_range (y x : R) : - PI < JS.atan2R y x <= PI.
Proof.
  pose proof PI_RGT_0 as Hpi.
  pose proof (atan_bound (y / x)) as Hb.
  unfold JS.atan2R.
  destruct (Rlt_dec 0 x) as [Hx | Hx]; [lra |].
  destruct (Rlt_dec x 0) as [Hx' | Hx'].
  - destruct (Rle_dec 0 y) as [Hy | Hy].
    + pose proof (atan_nonpos _ (div_neg_nonneg y x Hx' Hy)). lra.
    + pose proof (atan_pos _ (div_neg_neg y x Hx' ltac:(lra))). lra.
  - destruct (Rlt_dec 0 y); [lra |]. destruct (Rlt_dec y 0); lra.
Qed.

Lemma norm_pos (x y : R) : x <> 0 \/ y <> 0 -> 0 < sqrt (x ^ 2 + y ^ 2).
Proof.
  intros H. apply sqrt_lt_R0.
  destruct H as [H | H].
  - pose proof (Rsqr_pos_lt x H) as Hp. rewrite Rsqr_pow2 in Hp.
    pose proof (pow2_ge_0 y). lra.
  - pose proof (Rsqr_pos_lt y H) as Hp. rewrite Rsqr_pow2 in Hp.
    pose proof (pow2_ge_0 x). lra.
Qed.

Lemma norm_sq (x y : R) : sqrt (x ^ 2 + y ^ 2) ^ 2 = x ^ 2 + y ^ 2.
Proof.
  rewrite <- Rsqr_pow2. apply Rsqr_sqrt.
  pose proof (pow2_ge_0 x). pose proof (pow2_ge_0 y). lra.
Qed.

(** The slope [y / x] against the norm of [(x, y)]. *)
Lemma sqrt_slope (y x : R) :
  x <> 0 -> sqrt (1 + (y / x)²) = sqrt (x ^ 2 + y ^ 2) / Rabs x.
Proof.
  intros Hx.
  assert (Ha : 0 < Rabs x) by (apply Rabs_pos_lt, Hx).
  pose proof (norm_pos x y (or_introl Hx)) as HN.
  apply sqrt_lem_1.
  - pose proof (Rle_0_sqr (y / x)). lra.
  - apply Rlt_le, Rdiv_lt_0_compat; assumption.
  - unfold Rsqr, Rdiv.
    replace (sqrt (x ^ 2 + y ^ 2) * / Rabs x * (sqrt (x ^ 2 + y ^ 2) * / Rabs x))
      with (sqrt (x ^ 2 + y ^ 2) ^ 2 * (/ Rabs x * / Rabs x)) by ring.
    rewrite norm_sq.
    assert (Hxx : / Rabs x * / Rabs x = / x * / x).
    { unfold Rabs. destruct (Rcase_abs x); [| reflexivity]. field. lra. }
    rewrite Hxx. field. exact Hx.
Qed.

Lemma cos_atan2 (y x : R) :
  x <> 0 \/ y <> 0 -> cos (JS.atan2R y x) = x / sqrt (x ^ 2 + y ^ 2).
Proof.
  intros Hxy. pose proof (norm_pos x y Hxy) as HN.
  unfold JS.atan2R.
  destruct (Rlt_dec 0 x) as [Hx | Hx].
  - rewrite cos_atan, sqrt_slope by lra.
    rewrite Rabs_pos_eq by lra. field. lra.
  - destruct (Rlt_dec x 0) as [Hx' | Hx'].
    + assert (Hc : - cos (atan (y / x)) = x / sqrt (x ^ 2 + y ^ 2)).
      { rewrite cos_atan, sqrt_slope by lra.
        rewrite Rabs_left by lra. field. lra. }
      destruct (Rle_dec 0 y).
      * rewrite neg_cos. exact Hc.
      * unfold Rminus. rewrite cos_plus, cos_neg, sin_neg, cos_PI, sin_PI.
        rewrite <- Hc. ring.
    + assert (x = 0) by lra. subst x.
      unfold Rdiv. rewrite Rmult_0_l.
      destruct (Rlt_dec 0 y); [apply cos_PI2 |].
      destruct (Rlt_dec y 0); [rewrite cos_neg; apply cos_PI2 |].
      exfalso. destruct Hxy; lra.
Qed.

Lemma sin_atan2 (y x : R) :
  x <> 0 \/ y <> 0 -> sin (JS.atan2R y x) = y / sqrt (x ^ 2 + y ^ 2).
Proof.
  intros Hxy. pose proof (norm_pos x y Hxy) as HN.
  unfold JS.atan2R.
  destruct (Rlt_dec 0 x) as [Hx | Hx].
  - rewrite sin_atan, sqrt_slope by lra.
    rewrite Rabs_pos_eq by lra. field. lra.
  - destruct (Rlt_dec x 0) as [Hx' | Hx'].
    + assert (Hs : - sin (atan (y / x)) = y / sqrt (x ^ 2 + y ^ 2)).
      { rewrite sin_atan, sqrt_slope by lra.
        rewrite Rabs_left by lra. field. lra. }
      destruct (Rle_dec 0 y).
      * rewrite neg_sin. exact Hs.
      * unfold Rminus. rewrite sin_plus, cos_neg, sin_neg, cos_PI, sin_PI.
        rewrite <- Hs. ring.
    + assert (x = 0) by lra. subst x.
      replace (0 ^ 2 + y ^ 2) with (y ^ 2) by ring.
      destruct (Rlt_dec 0 y) as [Hy | Hy].
      * rewrite sin_PI2, sqrt_pow2 by lra. field. lra.
      * destruct (Rlt_dec y 0) as [Hy' | Hy'].
        -- rewrite sin_neg, sin_PI2.
           replace (y ^ 2) with ((- y) ^ 2) by ring.
           rewrite sqrt_pow2 by lra. field. lra.
        -- exfalso. destruct Hxy; lra.
Qed.

Lemma atan2_lt_PI4 (y x : R) : 0 < x -> y < x -> JS.atan2R y x < PI / 4.
Proof.
  intros Hx Hyx. unfold JS.atan2R.
  destruct (Rlt_dec 0 x); [| lra].
  rewrite <- atan_1. apply atan_increasing.
  apply Rmult_lt_reg_r with x; [assumption |].
  unfold Rdiv. rewrite Rmult_assoc, Rinv_l by lra. lra.
Qed.

Lemma atan2_gt_PI4 (y x : R) : 0 < y -> x < y -> PI / 4 < JS.atan2R y x.
Proof.
  intros Hy Hxy. pose proof PI_RGT_0 as Hpi. unfold JS.atan2R.
  destruct (Rlt_dec 0 x) as [Hx | Hx].
  - rewrite <- atan_1. apply atan_increasing.
    apply Rmult_lt_reg_r with x; [assumption |].
    unfold Rdiv. rewrite Rmult_assoc, Rinv_l by lra. lra.
  - destruct (Rlt_dec x 0) as [Hx' | Hx'].
    + pose proof (atan_bound (y / x)).
      destruct (Rle_dec 0 y); lra.
    + destruct (Rlt_dec 0 y); lra.
Qed.

(** The first two terms of the sine series bound it from below. *)
Lemma sin_cubic_lb (x : R) : 0 <= x <= PI -> x - x ^ 3 / 6 <= sin x.
Proof.
  intros [H0 Hpi].
  destruct (sin_bound x 0 H0 Hpi) as [Hlb _].
  simpl in Hlb. unfold sin_approx, sin_term in Hlb. simpl in Hlb.
  lra.
Qed.

Lemma sqrt_between (lo hi x : R) :
  0 <= lo -> 0 <= hi -> lo ^ 2 < x -> x < hi ^ 2 -> lo < sqrt x < hi.
Proof.
  intros Hlo Hhi H1 H2.
  assert (Hx : 0 <= x) by (pose proof (pow2_ge_0 lo); lra).
  split.
  - rewrite <- (sqrt_pow2 lo Hlo). apply sqrt_lt_1; try lra. apply pow2_ge_0.
  - rewrite <- (sqrt_pow2 hi Hhi). apply sqrt_lt_1; try lra.
Qed.

(** Quotient bounds by a positive denominator. *)
Lemma div_between (lo hi n d : R) :
  0 < d -> lo * d < n -> n < hi * d -> lo < n / d < hi.
Proof.
  intros Hd H1 H2. split.
  - apply Rmult_lt_reg_r with d; [assumption |].
    unfold Rdiv. rewrite Rmult_assoc, Rinv_l by lra. lra.
  - apply Rmult_lt_reg_r with d; [assumption |].
    unfold Rdiv. rewrite Rmult_assoc, Rinv_l by lra. lra.
Qed.

End Trig.

(** ** Angle normalization

    [normalizeDegrees] and [normalizeRadians] are the same three lines
    at two half-periods; their properties are proved once, for the
    half-period [half]. *)

Module Normalize.

Import Linkage.

Section Wrap.

Variable half : R.
Hypothesis half_pos : 0 < half.

Lemma wrap_range (x : R) : - half < wrap half x <= half.
Proof.
  unfold wrap.
  pose proof (JSFacts.remR_range x (2 * half)) as Hr.
  assert (H2 : 0 < 2 * half) by lra. specialize (Hr H2).
  set (d := JS.remR x (2 * half)) in *.
  destruct (JS.gtR d half) eqn:Hgt.
  - apply JSFacts.gtR_true in Hgt.
    destruct (JS.leR (d - 2 * half) (- half)) eqn:Hle.
    + apply JSFacts.leR_true in Hle. lra.
    + apply JSFacts.leR_false in Hle. lra.
  - apply JSFacts.gtR_false in Hgt.
    destruct (JS.leR d (- half)) eqn:Hle.
    + apply JSFacts.leR_true in Hle. lra.
    + apply JSFacts.leR_false in Hle. lra.
Qed.

Lemma wrap_congr (x : R) : exists k : Z, wrap half x = x + 2 * half * IZR k.
Proof.
  unfold wrap.
  destruct (JSFacts.remR_congr x (2 * half)) as [k Hk].
  set (d := JS.remR x (2 * half)) in *.
  destruct (JS.gtR d half);
    [destruct (JS.leR (d - 2 * half) (- half)) | destruct (JS.leR d (- half))].
  - exists k. lra.
  - exists (k - 1)%Z. rewrite minus_IZR. lra.
  - exists (k + 1)%Z. rewrite plus_IZR. lra.
  - exists k. lra.
Qed.

(** Two representatives in the window that differ by whole periods are
    equal. *)
Lemma wrap_unique (u v : R) (k : Z) :
  - half < u <= half -> - half < v <= half ->
  u = v + 2 * half * IZR k -> u = v.
Proof.
  intros Hu Hv Huv.
  assert (Hk : k = 0%Z).
  { apply JSFacts.IZR_small. split; nra. }
  subst k. lra.
Qed.

Lemma wrap_fixed (x : R) : - half < x <= half -> wrap half x = x.
Proof.
  intros Hx. destruct (wrap_congr x) as [k Hk].
  exact (wrap_unique _ _ k (wrap_range x) Hx Hk).
Qed.

Lemma wrap_periodic (x : R) (k : Z) : wrap half (x + 2 * half * IZR k) = wrap half x.
Proof.
  destruct (wrap_congr (x + 2 * half * IZR k)) as [k1 H1].
  destruct (wrap_congr x) as [k2 H2].
  apply (wrap_unique _ _ (k1 + k - k2)%Z); try apply wrap_range.
  rewrite minus_IZR, plus_IZR. lra.
Qed.

Lemma wrap_eq_inv (x y : R) :
  wrap half x = wrap half y -> exists k : Z, x = y + 2 * half * IZR k.
Proof.
  intros Heq.
  destruct (wrap_congr x) as [k1 H1].
  destruct (wrap_congr y) as [k2 H2].
  exists (k2 - k1)%Z. rewrite minus_IZR. lra.
Qed.

End Wrap.

Lemma normalizeDegrees_wrap (x : R) : normalizeDegreesR x = wrap 180 x.
Proof. reflexivity. Qed.

Lemma normalizeRadians_wrap (x : R) : normalizeRadiansR x = wrap PI x.
Proof. reflexivity. Qed.

Lemma normalizeDegrees_range (x : R) :
  -180 < normalizeDegreesR x <= 180.
Proof.
  rewrite normalizeDegrees_wrap.
  pose proof (wrap_range 180 ltac:(lra) x). lra.
Qed.

Lemma normalizeRadians_range (x : R) :
  - PI < normalizeRadiansR x <= PI.
Proof. rewrite normalizeRadians_wrap. apply wrap_range, PI_RGT_0. Qed.

Lemma normalizeDegrees_0 : normalizeDegreesR 0 = 0.
Proof. rewrite normalizeDegrees_wrap. apply wrap_fixed; lra. Qed.

Lemma toDegrees_lt (t a : R) : t < toRadians a -> toDegrees t < a.
Proof.
  unfold toRadians, toDegrees. intros H. pose proof PI_RGT_0 as Hpi.
  apply Rmult_lt_reg_r with PI; [assumption |].
  unfold Rdiv in *. rewrite Rmult_assoc, Rinv_l by lra. lra.
Qed.

Lemma toDegrees_gt (t a : R) : toRadians a < t -> a < toDegrees t.
Proof.
  unfold toRadians, toDegrees. intros H. pose proof PI_RGT_0 as Hpi.
  apply Rmult_lt_reg_r with PI; [assumption |].
  unfold Rdiv in *. rewrite Rmult_assoc, Rinv_l by lra. lra.
Qed.

Lemma toDegrees_le (t a : R) : t <= toRadians a -> toDegrees t <= a.
Proof.
  unfold toRadians, toDegrees. intros H. pose proof PI_RGT_0 as Hpi.
  apply Rmult_le_reg_r with PI; [assumption |].
  unfold Rdiv in *. rewrite Rmult_assoc, Rinv_l by lra. lra.
Qed.

Lemma toRadians_toDegrees (t : R) : toRadians (toDegrees t) = t.
Proof.
  unfold toRadians, toDegrees. pose proof PI_RGT_0. field. lra.
Qed.

Lemma toRadians_plus (a c : R) : toRadians (a + c) = toRadians a + toRadians c.
Proof. unfold toRadians, Rdiv. ring. Qed.

Lemma toRadians_turns (k : Z) : toRadians (2 * 180 * IZR k) = 2 * PI * IZR k.
Proof. unfold toRadians. field. Qed.

Lemma normalizeDegrees_fixed (x : R) :
  -180 < x <= 180 -> normalizeDegreesR x = x.
Proof.
  intros Hx. rewrite normalizeDegrees_wrap.
  apply wrap_fixed; lra.
Qed.

(** Reported angles that agree come from angles that differ by whole
    turns. *)
Lemma normalizeDegrees_toDegrees_inv (t t' : R) :
  normalizeDegreesR (toDegrees t) = normalizeDegreesR (toDegrees t') ->
  exists k : Z, t = t' + 2 * PI * IZR k.
Proof.
  rewrite !normalizeDegrees_wrap. intros H.
  destruct (wrap_eq_inv 180 _ _ H) as [k Hk].
  exists k.
  rewrite <- (toRadians_toDegrees t), Hk, toRadians_plus, toRadians_turns.
  rewrite toRadians_toDegrees. reflexivity.
Qed.

Lemma wrap_low (half x : R) :
  0 < half -> - (2 * half) < x <= - half -> wrap half x = x + 2 * half.
Proof.
  intros Hh Hx.
  replace x with (x + 2 * half + 2 * half * IZR (-1)) at 1 by (simpl; ring).
  rewrite wrap_periodic by assumption.
  apply wrap_fixed; lra.
Qed.

End Normalize.

(** ** Facts about the operations on numbers *)

Module NumFacts.

(** Evaluation of the operations that are total on finite numbers. *)
Ltac num_simpl :=
  cbn [JS.add JS.sub JS.mul JS.pow JS.sin JS.cos JS.abs JS.max JS.min
       JS.atan2 JS.lt JS.le JS.gt JS.lift1 JS.lift2 JS.fin].

Ltac num_simpl_in H :=
  cbn [JS.add JS.sub JS.mul JS.pow JS.sin JS.cos JS.abs JS.max JS.min
       JS.atan2 JS.lt JS.le JS.gt JS.lift1 JS.lift2 JS.fin] in H.

Lemma fin_inj (a b : R) : JS.fin a = JS.fin b -> a = b.
Proof. intros H. injection H. auto. Qed.

Lemma div_fin (a b : R) : b <> 0 -> (Some a / Some b)%num = Some (a / b).
Proof.
  intros Hb. unfold JS.div.
  destruct (Req_dec_T b 0); [contradiction | reflexivity].
Qed.

Lemma div_zero (a b : R) : b = 0 -> (Some a / Some b)%num = None.
Proof.
  intros Hb. unfold JS.div.
  destruct (Req_dec_T b 0); [reflexivity | contradiction].
Qed.

Lemma rem_fin (a b : R) :
  b <> 0 -> JS.rem (Some a) (Some b) = Some (JS.remR a b).
Proof.
  intros Hb. unfold JS.rem.
  destruct (Req_dec_T b 0); [contradiction | reflexivity].
Qed.

Lemma sqrt_fin (a : R) : 0 <= a -> JS.sqrt (Some a) = Some (sqrt a).
Proof.
  intros Ha. unfold JS.sqrt.
  destruct (Rlt_dec a 0); [lra | reflexivity].
Qed.

Lemma acos_fin (a : R) : -1 <= a <= 1 -> JS.acos (Some a) = Some (acos a).
Proof.
  intros [H1 H2]. unfold JS.acos.
  destruct (Rle_dec (-1) a); [| contradiction].
  destruct (Rle_dec a 1); [reflexivity | contradiction].
Qed.

(** A missing operand gives a missing result. *)
Lemma lift2_None_r (f : R -> R -> R) (x : JS.num) : JS.lift2 f x None = None.
Proof. destruct x; reflexivity. Qed.

Lemma mul_None_r (x : JS.num) : (x * None)%num = None.
Proof. apply lift2_None_r. Qed.

End NumFacts.

(** ** The normalizers on numbers *)

Module NormalizeNum.

Import Linkage.

Lemma normalizeDegrees_fin (x : R) :
  PRBModel.normalizeDegrees (JS.fin x) = JS.fin (normalizeDegreesR x).
Proof.
  unfold PRBModel.normalizeDegrees, normalizeDegreesR, wrap.
  replace (2 * 180) with 360 by lra.
  replace (- (180)) with (-180) by lra.
  NumFacts.num_simpl.
  rewrite NumFacts.rem_fin by lra.
  set (d := JS.remR x 360).
  NumFacts.num_simpl.
  destruct (JS.gtR d 180); NumFacts.num_simpl;
    destruct (JS.leR _ (-180)); reflexivity.
Qed.

Lemma normalizeRadians_fin (x : R) :
  PRBModel.normalizeRadians (JS.fin x) = JS.fin (normalizeRadiansR x).
Proof.
  unfold PRBModel.normalizeRadians, normalizeRadiansR, wrap.
  NumFacts.num_simpl.
  pose proof PI_RGT_0 as Hpi.
  rewrite NumFacts.rem_fin by lra.
  set (d := JS.remR x (2 * PI)).
  NumFacts.num_simpl.
  destruct (JS.gtR d PI); NumFacts.num_simpl;
    destruct (JS.leR _ (- PI)); reflexivity.
Qed.

Lemma toDegreesN_fin (x : R) : toDegreesN (JS.fin x) = JS.fin (toDegrees x).
Proof.
  unfold toDegreesN, toDegrees. NumFacts.num_simpl.
  pose proof PI_RGT_0.
  apply NumFacts.div_fin. lra.
Qed.

End NormalizeNum.

(** ** The evaluator against the geometry *)

Module Evaluator.

Import Types Constants PRBModel Linkage.

Lemma pinDistance_sq (theta2 : R) (p : MechanismParams) :
  pinDistance theta2 p ^ 2
  = (r2 p * cos (toRadians theta2) - r1 p) ^ 2
    + (r2 p * sin (toRadians theta2)) ^ 2.
Proof.
  unfold pinDistance, distance. simpl fst; simpl snd.
  rewrite <- Rsqr_pow2, Rsqr_sqrt
    by (apply Rplus_le_le_0_compat; apply pow2_ge_0).
  ring.
Qed.

Lemma toRadiansN (x : R) :
  (JS.fin x * JS.fin PI / JS.fin 180)%num = JS.fin (toRadians x).
Proof.
  NumFacts.num_simpl.
  apply NumFacts.div_fin. lra.
Qed.

Lemma stiffness_code (p : MechanismParams) :
  (JS.fin PRB_GAMMA * JS.fin PRB_K_THETA
   * (JS.fin (E p)
      * (JS.fin (b p) * JS.pow (JS.fin (h p)) 3 / JS.fin 12)
      / (JS.fin (L4 p) / JS.fin 100)))%num
  = stiffnessN p.
Proof.
  unfold stiffnessN, secondMoment, PRB_GAMMA, PRB_K_THETA.
  NumFacts.num_simpl.
  rewrite !NumFacts.div_fin by lra.
  NumFacts.num_simpl.
  destruct (Req_dec_T (L4 p / 100) 0) as [H0 | H0].
  - rewrite !NumFacts.div_zero by assumption. reflexivity.
  - rewrite !NumFacts.div_fin by assumption. NumFacts.num_simpl.
    apply f_equal. unfold Rdiv. ring.
Qed.

Lemma clamp_id (x : R) : -1 <= x <= 1 -> clamp x = x.
Proof.
  intros [H1 H2]. unfold clamp.
  rewrite Rmin_right by assumption. apply Rmax_right. assumption.
Qed.

Lemma clamp_range (x : R) : -1 <= clamp x <= 1.
Proof.
  unfold clamp. split.
  - apply Rmax_l.
  - apply Rmax_lub; [lra | apply Rmin_l].
Qed.

(** Evaluation that also lets a missing operand through the partial
    operations and the normalizers. *)
Ltac num_missing :=
  cbn [JS.add JS.sub JS.mul JS.div JS.rem JS.pow JS.sqrt JS.acos
       JS.sin JS.cos JS.abs JS.max JS.min JS.atan2 JS.lt JS.le JS.gt
       JS.lift1 JS.lift2 normalizeDegrees normalizeRadians].

Lemma assemblyFails_true (theta2 : R) (p : MechanismParams) :
  assemblyFails theta2 p = true <-> infeasible theta2 p.
Proof.
  unfold assemblyFails, infeasible.
  rewrite orb_true_iff, JSFacts.gtR_true, JSFacts.ltR_true. reflexivity.
Qed.

Lemma assemblyFails_false (theta2 : R) (p : MechanismParams) :
  assemblyFails theta2 p = false <-> ~ infeasible theta2 p.
Proof.
  rewrite <- assemblyFails_true. destruct (assemblyFails theta2 p); split; intros;
    try discriminate; try reflexivity; congruence.
Qed.

(** What the evaluator returns, branch by branch. *)
Lemma calculateKinematics_unfold (theta2 : R) (p : MechanismParams) :
  calculateKinematics theta2 p =
  if assemblyFails theta2 p then
    {| theta2 := JS.fin theta2;
       theta3 := JS.fin 0;
       theta4 := JS.fin 0;
       deltaTheta2 := JS.fin (theta2 - theta20 p);
       energy := JS.fin 0;
       torque := JS.fin 0;
       isValid := false;
       prb := prbOf p |}
  else
    {| theta2 := JS.fin theta2;
       theta3 := normalizeDegrees (toDegreesN (couplerAngleN theta2 p));
       theta4 := normalizeDegrees (toDegreesN (rockerAngleN theta2 p));
       deltaTheta2 := JS.fin (theta2 - theta20 p);
       energy := (0.5 * stiffnessN p * JS.pow (deflectionN theta2 p) 2)%num;
       torque := (stiffnessN p * deflectionN theta2 p * h42N theta2 p)%num;
       isValid := true;
       prb := prbOf p |}.
Proof.
  pose proof (pinDistance_sq theta2 p) as Hsq.
  unfold calculateKinematics. cbv zeta.
  rewrite stiffness_code, !toRadiansN.
  NumFacts.num_simpl.
  rewrite NumFacts.sqrt_fin by nra.
  assert (Hd : sqrt ((r2 p * cos (toRadians theta2) - r1 p)
                     * (r2 p * cos (toRadians theta2) - r1 p)
                     + r2 p * sin (toRadians theta2)
                       * (r2 p * sin (toRadians theta2)))
               = pinDistance theta2 p).
  { unfold pinDistance, distance, crankPin, rockerPivot.
    simpl fst; simpl snd. f_equal. ring. }
  rewrite Hd.
  NumFacts.num_simpl.
  change (PRB_GAMMA * L4 p) with (rocker p).
  fold (assemblyFails theta2 p).
  assert (HI : JS.div (Some (b p * h p ^ 3)) (Some 12) = Some (secondMoment p))
    by (apply NumFacts.div_fin; lra).
  assert (H0 : normalizeDegrees (JS.div (JS.mul (Some 0) (Some 180)) (Some PI)) = Some 0).
  { change (normalizeDegrees (toDegreesN (JS.fin 0)) = JS.fin 0).
    rewrite NormalizeNum.toDegreesN_fin, NormalizeNum.normalizeDegrees_fin.
    unfold toDegrees. replace (0 * 180 / PI) with 0 by (unfold Rdiv; ring).
    rewrite Normalize.normalizeDegrees_0. reflexivity. }
  destruct (assemblyFails theta2 p).
  - unfold prbOf, PRB_GAMMA, PRB_K_THETA, JS.fin. rewrite HI, H0. reflexivity.
  - unfold h42N, deflectionN.
    unfold couplerAngleN, rockerPinN. unfold rockerAngleN.
    unfold betaN, clampN, cosBetaN, toDegreesN, prbOf, phi, crankPin,
      rockerPivot, PRB_GAMMA, PRB_K_THETA, JS.fin.
    simpl fst; simpl snd. NumFacts.num_simpl. rewrite HI.
    replace (rocker p * rocker p
             + ((r2 p * cos (toRadians theta2) - r1 p)
                * (r2 p * cos (toRadians theta2) - r1 p)
                + r2 p * sin (toRadians theta2)
                  * (r2 p * sin (toRadians theta2)))
             - r3 p * r3 p)
      with (rocker p ^ 2 + pinDistance theta2 p ^ 2 - r3 p ^ 2)
      by (rewrite Hsq; ring).
    replace (r2 p * sin (toRadians theta2) - 0)
      with (r2 p * sin (toRadians theta2)) by ring.
    destruct (Req_dec_T (2 * rocker p * pinDistance theta2 p) 0) as [Hz | Hnz].
    + rewrite !NumFacts.div_zero by exact Hz. num_missing.
      rewrite !NumFacts.mul_None_r. reflexivity.
    + rewrite !NumFacts.div_fin by exact Hnz. NumFacts.num_simpl.
      fold (clamp ((rocker p ^ 2 + pinDistance theta2 p ^ 2 - r3 p ^ 2)
                   / (2 * rocker p * pinDistance theta2 p))).
      rewrite !NumFacts.acos_fin by apply clamp_range.
      NumFacts.num_simpl. rewrite !Rplus_0_l. reflexivity.
Qed.

Lemma isValid_assemblyFails (theta2 : R) (p : MechanismParams) :
  isValid (calculateKinematics theta2 p) = negb (assemblyFails theta2 p).
Proof.
  rewrite calculateKinematics_unfold.
  destruct (assemblyFails theta2 p); reflexivity.
Qed.

Lemma isValid_false_iff (theta2 : R) (p : MechanismParams) :
  isValid (calculateKinematics theta2 p) = false <-> infeasible theta2 p.
Proof.
  rewrite isValid_assemblyFails, negb_false_iff. apply assemblyFails_true.
Qed.

Lemma isValid_true_iff (theta2 : R) (p : MechanismParams) :
  isValid (calculateKinematics theta2 p) = true <-> ~ infeasible theta2 p.
Proof.
  rewrite isValid_assemblyFails, negb_true_iff. apply assemblyFails_false.
Qed.

Lemma prb_calculateKinematics (theta2 : R) (p : MechanismParams) :
  prb (calculateKinematics theta2 p) = prbOf p.
Proof.
  rewrite calculateKinematics_unfold.
  destruct (assemblyFails theta2 p); reflexivity.
Qed.

Lemma pinDistance_nonneg (theta2 : R) (p : MechanismParams) :
  0 <= pinDistance theta2 p.
Proof. apply sqrt_pos. Qed.

(** In a feasible assembly the law-of-cosines quotient has a zero
    divisor only when its dividend is zero as well: the quotient the
    source takes is then [0 / 0], never a nonzero number over zero. *)
Lemma cosBeta_zero_over_zero (theta2 : R) (p : MechanismParams) :
  ~ infeasible theta2 p ->
  2 * rocker p * pinDistance theta2 p = 0 ->
  rocker p ^ 2 + pinDistance theta2 p ^ 2 - r3 p ^ 2 = 0.
Proof.
  unfold infeasible. intros Hf Hz.
  pose proof (pinDistance_nonneg theta2 p) as Hd.
  set (d := pinDistance theta2 p) in *. set (a := rocker p) in *.
  assert (H1 : d <= r3 p + a) by lra.
  assert (H2 : Rabs (r3 p - a) <= d) by lra.
  assert (H3 : r3 p - a <= d /\ a - r3 p <= d).
  { pose proof (Rle_abs (r3 p - a)).
    pose proof (Rle_abs (- (r3 p - a))) as H4. rewrite Rabs_Ropp in H4. lra. }
  assert (Hcase : a = 0 \/ d = 0) by nra.
  destruct Hcase as [Ha | Hd0].
  - rewrite Ha in *. assert (d = r3 p) by lra. nra.
  - rewrite Hd0 in *. assert (a = r3 p) by lra. nra.
Qed.

Lemma stiffnessN_fin (p : MechanismParams) :
  L4 p <> 0 -> stiffnessN p = JS.fin (stiffness p).
Proof.
  intros HL. unfold stiffnessN, stiffness, JS.fin. NumFacts.num_simpl.
  rewrite !NumFacts.div_fin by lra. reflexivity.
Qed.

Lemma offPivot_L4 (theta2 : R) (p : MechanismParams) :
  offPivot theta2 p -> L4 p <> 0.
Proof.
  unfold offPivot, rocker. intros H HL. apply H. rewrite HL. ring.
Qed.

(** *** The quotient off the pivot *)

Section OffPivot.

Variable theta2 : R.
Variable p : MechanismParams.
Hypothesis Hoff : offPivot theta2 p.

Lemma cosBetaN_fin : cosBetaN theta2 p = JS.fin (cosBeta theta2 p).
Proof. unfold cosBetaN, cosBeta, JS.fin. apply NumFacts.div_fin, Hoff. Qed.

Lemma betaN_fin : betaN theta2 p = JS.fin (beta theta2 p).
Proof.
  unfold betaN, beta, clampN. rewrite cosBetaN_fin. unfold JS.fin.
  NumFacts.num_simpl. apply NumFacts.acos_fin, clamp_range.
Qed.

Lemma rockerAngleN_fin : rockerAngleN theta2 p = JS.fin (rockerAngle theta2 p).
Proof. unfold rockerAngleN. rewrite betaN_fin. reflexivity. Qed.

Lemma rockerPinN_fin :
  rockerPinN theta2 p
  = (JS.fin (fst (rockerPin theta2 p)), JS.fin (snd (rockerPin theta2 p))).
Proof. unfold rockerPinN. rewrite rockerAngleN_fin. reflexivity. Qed.

Lemma couplerAngleN_fin :
  couplerAngleN theta2 p = JS.fin (couplerAngle theta2 p).
Proof. unfold couplerAngleN. rewrite rockerPinN_fin. reflexivity. Qed.

Lemma deflectionN_fin : deflectionN theta2 p = JS.fin (deflection theta2 p).
Proof.
  unfold deflectionN, deflection. rewrite rockerAngleN_fin.
  apply NormalizeNum.normalizeRadians_fin.
Qed.

End OffPivot.

(** *** The quotient on the pivot *)

Section OnPivot.

Variable theta2 : R.
Variable p : MechanismParams.
Hypothesis Hon : ~ offPivot theta2 p.

Lemma cosBetaN_None : cosBetaN theta2 p = None.
Proof.
  unfold cosBetaN, JS.fin. apply NumFacts.div_zero.
  unfold offPivot in Hon.
  destruct (Req_dec_T (2 * rocker p * pinDistance theta2 p) 0); tauto.
Qed.

Lemma rockerAngleN_None : rockerAngleN theta2 p = None.
Proof. unfold rockerAngleN, betaN. rewrite cosBetaN_None. reflexivity. Qed.

Lemma couplerAngleN_None : couplerAngleN theta2 p = None.
Proof.
  unfold couplerAngleN, rockerPinN. rewrite rockerAngleN_None. reflexivity.
Qed.

Lemma deflectionN_None : deflectionN theta2 p = None.
Proof. unfold deflectionN. rewrite rockerAngleN_None. reflexivity. Qed.

Lemma h42N_None : h42N theta2 p = None.
Proof. unfold h42N. rewrite couplerAngleN_None. reflexivity. Qed.

End OnPivot.

(** *** The three kinds of state *)

Lemma calculateKinematics_invalid (theta2 : R) (p : MechanismParams) :
  isValid (calculateKinematics theta2 p) = false ->
  calculateKinematics theta2 p =
    {| theta2 := JS.fin theta2;
       theta3 := JS.fin 0;
       theta4 := JS.fin 0;
       deltaTheta2 := JS.fin (theta2 - theta20 p);
       energy := JS.fin 0;
       torque := JS.fin 0;
       isValid := false;
       prb := prbOf p |}.
Proof.
  rewrite isValid_assemblyFails, negb_false_iff. intros Hf.
  rewrite calculateKinematics_unfold, Hf. reflexivity.
Qed.

Lemma calculateKinematics_valid (theta2 : R) (p : MechanismParams) :
  isValid (calculateKinematics theta2 p) = true ->
  offPivot theta2 p ->
  calculateKinematics theta2 p =
    {| theta2 := JS.fin theta2;
       theta3 :=
         JS.fin (normalizeDegreesR (toDegrees (couplerAngle theta2 p)));
       theta4 :=
         JS.fin (normalizeDegreesR (toDegrees (rockerAngle theta2 p)));
       deltaTheta2 := JS.fin (theta2 - theta20 p);
       energy := JS.fin (0.5 * stiffness p * deflection theta2 p ^ 2);
       torque :=
         (JS.fin (stiffness p * deflection theta2 p) * h42N theta2 p)%num;
       isValid := true;
       prb := prbOf p |}.
Proof.
  rewrite isValid_assemblyFails, negb_true_iff. intros Hf Hoff.
  rewrite calculateKinematics_unfold, Hf.
  rewrite (couplerAngleN_fin _ _ Hoff), (rockerAngleN_fin _ _ Hoff),
    (deflectionN_fin _ _ Hoff), (stiffnessN_fin _ (offPivot_L4 _ _ Hoff)).
  rewrite !NormalizeNum.toDegreesN_fin, !NormalizeNum.normalizeDegrees_fin.
  reflexivity.
Qed.

Lemma calculateKinematics_onPivot (theta2 : R) (p : MechanismParams) :
  isValid (calculateKinematics theta2 p) = true ->
  ~ offPivot theta2 p ->
  calculateKinematics theta2 p =
    {| theta2 := JS.fin theta2;
       theta3 := None;
       theta4 := None;
       deltaTheta2 := JS.fin (theta2 - theta20 p);
       energy := None;
       torque := None;
       isValid := true;
       prb := prbOf p |}.
Proof.
  rewrite isValid_assemblyFails, negb_true_iff. intros Hf Hon.
  rewrite calculateKinematics_unfold, Hf.
  rewrite (couplerAngleN_None _ _ Hon), (rockerAngleN_None _ _ Hon),
    (deflectionN_None _ _ Hon), (h42N_None _ _ Hon).
  rewrite !NumFacts.mul_None_r. reflexivity.
Qed.

(** The stiffness of a beam with positive section data is positive. *)
Lemma stiffness_pos (p : MechanismParams) :
  0 < E p -> 0 < b p -> 0 < h p -> 0 < L4 p -> 0 < stiffness p.
Proof.
  intros HE Hb Hh HL. unfold stiffness, secondMoment.
  assert (H3 : 0 < h p ^ 3) by (apply pow_lt; assumption).
  assert (HI : 0 < b p * h p ^ 3 / 12)
    by (apply Rdiv_lt_0_compat; [apply Rmult_lt_0_compat; assumption | lra]).
  apply Rdiv_lt_0_compat; [| lra].
  apply Rmult_lt_0_compat; [| assumption].
  apply Rmult_lt_0_compat; [lra | assumption].
Qed.

(** With a rocker of positive length, the divisor of the
    law-of-cosines quotient vanishes only with the distance [d]. *)
Lemma offPivot_of_distance (theta2Deg : R) (p : MechanismParams) :
  0 < L4 p -> 0 < pinDistance theta2Deg p -> offPivot theta2Deg p.
Proof. unfold offPivot, rocker. intros HL Hd. nra. Qed.

(** A point at radius [r] and angle [a] is at distance [r] from the
    point it is measured from. *)
Lemma polar_distance (cx cy r a : R) :
  0 <= r -> distance (cx + r * cos a, cy + r * sin a) (cx, cy) = r.
Proof.
  intros Hr. unfold distance. simpl fst; simpl snd.
  replace ((cx + r * cos a - cx) ^ 2 + (cy + r * sin a - cy) ^ 2)
    with (r ^ 2 * ((sin a)² + (cos a)²)) by (unfold Rsqr; ring).
  rewrite sin2_cos2, Rmult_1_r. apply sqrt_pow2, Hr.
Qed.

End Evaluator.

(** ** The projector on numbers *)

Module Projector.

Import Types Constants PRBModel Linkage.

(** The projector on a state whose two angles are numbers. *)
Lemma getJointPositions_fin
    (point : SimulationPoint) (p : MechanismParams) (a2 a3 : R) :
  theta2 point = JS.fin a2 -> theta3 point = JS.fin a3 ->
  getJointPositions point p =
    {| A0 := (JS.fin 0, JS.fin 0);
       A := (JS.fin (r2 p * cos (toRadians a2)),
             JS.fin (r2 p * sin (toRadians a2)));
       B := (JS.fin (r2 p * cos (toRadians a2) + r3 p * cos (toRadians a3)),
             JS.fin (r2 p * sin (toRadians a2) + r3 p * sin (toRadians a3)));
       B0 := (JS.fin (r1 p), JS.fin 0) |}.
Proof.
  intros H2 H3. unfold getJointPositions. cbv zeta.
  rewrite H2, H3, !Evaluator.toRadiansN. reflexivity.
Qed.

Lemma distanceN_fin (x1 y1 x2 y2 : R) :
  distanceN (JS.fin x1, JS.fin y1) (JS.fin x2, JS.fin y2)
  = JS.fin (distance (x1, y1) (x2, y2)).
Proof.
  unfold distanceN, distance. simpl fst; simpl snd. NumFacts.num_simpl.
  apply NumFacts.sqrt_fin.
  apply Rplus_le_le_0_compat; apply pow2_ge_0.
Qed.

(** A state whose [theta3] is not a number projects to a pin [B] that
    is no point, at no distance from anything. *)
Lemma getJointPositions_missing
    (point : SimulationPoint) (p : MechanismParams) :
  theta3 point = None -> B (getJointPositions point p) = (None, None).
Proof.
  intros H3. unfold getJointPositions. cbv zeta. cbn [B fst snd].
  rewrite H3. Evaluator.num_missing.
  rewrite !NumFacts.mul_None_r. unfold JS.add.
  rewrite !NumFacts.lift2_None_r. reflexivity.
Qed.

Lemma distanceN_missing (Q : JS.num * JS.num) :
  distanceN (None, None) Q = None.
Proof. reflexivity. Qed.

End Projector.

(** ** Three degenerate parameter sets *)

Module Examples.

Import Types Constants PRBModel Linkage Scenario.

Lemma toRadians_0 : toRadians 0 = 0.
Proof. unfold toRadians, Rdiv. ring. Qed.

Lemma farParams_pinDistance : pinDistance 0 farParams = 9.
Proof.
  unfold pinDistance, distance, crankPin, rockerPivot, farParams.
  simpl fst; simpl snd. rewrite toRadians_0, cos_0, sin_0.
  replace ((1 * 1 - 10) ^ 2 + (1 * 0 - 0) ^ 2) with (9 ^ 2) by ring.
  apply sqrt_pow2. lra.
Qed.

Lemma farParams_infeasible : infeasible 0 farParams.
Proof.
  left. rewrite farParams_pinDistance. unfold rocker, farParams. simpl. lra.
Qed.

Lemma farParams_invalid : isValid (calculateKinematics 0 farParams) = false.
Proof. apply Evaluator.isValid_false_iff, farParams_infeasible. Qed.

Lemma coincident_pinDistance : pinDistance 0 coincidentParams = 0.
Proof.
  unfold pinDistance, distance, crankPin, rockerPivot, coincidentParams.
  simpl fst; simpl snd. rewrite toRadians_0, cos_0, sin_0.
  replace ((1 * 1 - 1) ^ 2 + (1 * 0 - 0) ^ 2) with 0 by ring.
  apply sqrt_0.
Qed.

Lemma coincident_feasible : ~ infeasible 0 coincidentParams.
Proof.
  unfold infeasible. rewrite coincident_pinDistance.
  unfold rocker, coincidentParams. simpl.
  replace (0.85 - 0.85 * 1) with 0 by lra. rewrite Rabs_R0. lra.
Qed.

Lemma coincident_valid :
  isValid (calculateKinematics 0 coincidentParams) = true.
Proof. apply Evaluator.isValid_true_iff, coincident_feasible. Qed.

Lemma coincident_onPivot : ~ offPivot 0 coincidentParams.
Proof.
  unfold offPivot. rewrite coincident_pinDistance. intros H. apply H. ring.
Qed.

Lemma toggle_rocker : rocker toggleParams = 17.
Proof. unfold rocker, toggleParams. simpl. lra. Qed.

Lemma toggle_crankPin : crankPin 0 toggleParams = (20, 0).
Proof.
  unfold crankPin, toggleParams. simpl r2.
  rewrite toRadians_0, cos_0, sin_0. f_equal; ring.
Qed.

Lemma toggle_pinDistance : pinDistance 0 toggleParams = 10.
Proof.
  unfold pinDistance, distance. rewrite toggle_crankPin.
  unfold rockerPivot, toggleParams. simpl.
  replace ((20 - 10) * ((20 - 10) * 1) + (0 - 0) * ((0 - 0) * 1))
    with (10 ^ 2) by ring.
  apply sqrt_pow2. lra.
Qed.

Lemma toggle_feasible : ~ infeasible 0 toggleParams.
Proof.
  unfold infeasible. rewrite toggle_pinDistance, toggle_rocker.
  unfold toggleParams. simpl r3.
  replace (7 - 17) with (- (10)) by lra.
  rewrite Rabs_Ropp, Rabs_pos_eq by lra. lra.
Qed.

Lemma toggle_valid : isValid (calculateKinematics 0 toggleParams) = true.
Proof. apply Evaluator.isValid_true_iff, toggle_feasible. Qed.

Lemma toggle_offPivot : offPivot 0 toggleParams.
Proof. unfold offPivot. rewrite toggle_pinDistance, toggle_rocker. lra. Qed.

Lemma atan2R_0_pos (x : R) : 0 < x -> JS.atan2R 0 x = 0.
Proof.
  intros Hx. unfold JS.atan2R. destruct (Rlt_dec 0 x); [| contradiction].
  unfold Rdiv. rewrite Rmult_0_l. apply atan_0.
Qed.

Lemma toggle_rockerAngle : rockerAngle 0 toggleParams = 0.
Proof.
  unfold rockerAngle, beta, cosBeta, phi.
  rewrite toggle_pinDistance, toggle_rocker, toggle_crankPin.
  unfold rockerPivot, toggleParams. simpl.
  replace (0 - 0) with 0 by ring.
  rewrite atan2R_0_pos by lra.
  replace ((17 * (17 * 1) + 10 * (10 * 1) - 7 * (7 * 1)) / (2 * 17 * 10))
    with 1 by lra.
  rewrite Evaluator.clamp_id by lra. rewrite acos_1. ring.
Qed.

Lemma toggle_couplerAngle : couplerAngle 0 toggleParams = 0.
Proof.
  unfold couplerAngle, rockerPin.
  rewrite toggle_rockerAngle, toggle_rocker, toggle_crankPin, cos_0, sin_0.
  unfold rockerPivot, toggleParams. simpl.
  replace (0 + 17 * 0 - 0) with 0 by ring.
  apply atan2R_0_pos. lra.
Qed.

End Examples.

(** ** The reference parameter set at 90 and at -90 degrees *)

Module Reference.

Import Types Constants PRBModel Linkage Scenario.
Import Trig Normalize Evaluator.

Lemma toRadians_90 : toRadians 90 = PI / 2.
Proof. unfold toRadians. field. Qed.

Lemma toRadians_m90 : toRadians (-90) = - (PI / 2).
Proof. unfold toRadians. field. Qed.

Lemma crankPin_90 : crankPin 90 DEFAULT_PARAMS = (0, 1.5).
Proof.
  unfold crankPin. rewrite toRadians_90, cos_PI2, sin_PI2.
  simpl r2. f_equal; lra.
Qed.

Lemma crankPin_m90 : crankPin (-90) DEFAULT_PARAMS = (0, -1.5).
Proof.
  unfold crankPin. rewrite toRadians_m90, cos_neg, sin_neg, cos_PI2, sin_PI2.
  simpl r2. f_equal; lra.
Qed.

Lemma pinDistance_90 : pinDistance 90 DEFAULT_PARAMS = D.
Proof.
  unfold pinDistance, distance. rewrite crankPin_90.
  unfold rockerPivot, D. simpl. f_equal. lra.
Qed.

Lemma pinDistance_m90 : pinDistance (-90) DEFAULT_PARAMS = D.
Proof.
  unfold pinDistance, distance. rewrite crankPin_m90.
  unfold rockerPivot, D. simpl. f_equal. lra.
Qed.

Lemma D_bounds : 3.354 < D < 3.3542.
Proof. unfold D. apply sqrt_between; lra. Qed.

Lemma D_sq : D ^ 2 = 11.25.
Proof. unfold D. rewrite <- Rsqr_pow2. apply Rsqr_sqrt. lra. Qed.

Lemma rocker_default : rocker DEFAULT_PARAMS = 3.672.
Proof. unfold rocker. simpl. lra. Qed.

Lemma default_feasible_90 : ~ infeasible 90 DEFAULT_PARAMS.
Proof.
  unfold infeasible. rewrite pinDistance_90, rocker_default. simpl r3.
  pose proof D_bounds.
  replace (3.71 - 3.672) with 0.038 by lra.
  rewrite Rabs_pos_eq by lra. lra.
Qed.

Lemma default_feasible_m90 : ~ infeasible (-90) DEFAULT_PARAMS.
Proof.
  unfold infeasible. rewrite pinDistance_m90, rocker_default. simpl r3.
  pose proof D_bounds.
  replace (3.71 - 3.672) with 0.038 by lra.
  rewrite Rabs_pos_eq by lra. lra.
Qed.

Lemma cosBeta_of_D (theta2 : R) :
  pinDistance theta2 DEFAULT_PARAMS = D -> cosBeta theta2 DEFAULT_PARAMS = c0.
Proof.
  intros Hd. unfold cosBeta. rewrite Hd, rocker_default, D_sq. simpl r3.
  unfold c0, Rdiv. rewrite !Rinv_mult. lra.
Qed.

Lemma c0_bounds : 0.4453 < c0 < 0.4454.
Proof.
  unfold c0. pose proof D_bounds as HD.
  assert (H0 : 0 < 7.344 * D) by lra.
  split.
  - apply Rmult_lt_reg_r with (7.344 * D); [assumption |].
    unfold Rdiv. rewrite Rmult_assoc, Rinv_l by lra. lra.
  - apply Rmult_lt_reg_r with (7.344 * D); [assumption |].
    unfold Rdiv. rewrite Rmult_assoc, Rinv_l by lra. lra.
Qed.

Lemma beta_of_D (theta2 : R) :
  pinDistance theta2 DEFAULT_PARAMS = D -> beta theta2 DEFAULT_PARAMS = beta0.
Proof.
  intros Hd. unfold beta. rewrite (cosBeta_of_D _ Hd).
  pose proof c0_bounds. rewrite clamp_id by lra. reflexivity.
Qed.

Lemma cos_beta0 : cos beta0 = c0.
Proof. apply cos_acos. pose proof c0_bounds. lra. Qed.

Lemma sin_beta0 : sin beta0 = s0.
Proof. apply sin_acos. pose proof c0_bounds. lra. Qed.

Lemma s0_bounds : 0.8953 < s0 < 0.8954.
Proof.
  unfold s0. pose proof c0_bounds as Hc. unfold Rsqr.
  apply sqrt_between; nra.
Qed.

Lemma beta0_range : 0 <= beta0 < PI / 2.
Proof.
  pose proof (acos_bound c0) as [Hlo Hhi]. fold beta0 in Hlo, Hhi.
  split; [assumption |].
  destruct (Rlt_dec beta0 (PI / 2)) as [Hlt | Hge]; [assumption |].
  exfalso.
  assert (Hc : cos beta0 <= 0) by (apply cos_le_0; lra).
  rewrite cos_beta0 in Hc. pose proof c0_bounds. lra.
Qed.

Lemma norm_D (y : R) : y ^ 2 = 2.25 -> sqrt ((-3) ^ 2 + y ^ 2) = D.
Proof. intros Hy. unfold D. f_equal. lra. Qed.

Lemma phi90_eq : phi90 = JS.atan2R 1.5 (-3).
Proof.
  unfold phi90, phi. rewrite crankPin_90. unfold rockerPivot. simpl.
  f_equal; lra.
Qed.

Lemma phi270_eq : phi270 = JS.atan2R (-1.5) (-3).
Proof.
  unfold phi270, phi. rewrite crankPin_m90. unfold rockerPivot. simpl.
  f_equal; lra.
Qed.

Lemma cos_phi90 : cos phi90 = -3 / D.
Proof.
  rewrite phi90_eq, Trig.cos_atan2 by (left; lra).
  rewrite norm_D by lra. lra.
Qed.

Lemma sin_phi90 : sin phi90 = (3 / 2) / D.
Proof.
  rewrite phi90_eq, Trig.sin_atan2 by (left; lra).
  rewrite norm_D by lra. lra.
Qed.

Lemma cos_phi270 : cos phi270 = -3 / D.
Proof.
  rewrite phi270_eq, Trig.cos_atan2 by (left; lra).
  rewrite norm_D by lra. lra.
Qed.

Lemma sin_phi270 : sin phi270 = - (3 / 2) / D.
Proof.
  rewrite phi270_eq, Trig.sin_atan2 by (left; lra).
  rewrite norm_D by lra. lra.
Qed.

Lemma phi90_range : PI / 2 < phi90 < PI.
Proof.
  rewrite phi90_eq. unfold JS.atan2R.
  destruct (Rlt_dec 0 (-3)) as [H | _]; [lra |].
  destruct (Rlt_dec (-3) 0) as [_ | H]; [| lra].
  destruct (Rle_dec 0 1.5) as [_ | H]; [| lra].
  pose proof (atan_bound (1.5 / (-3))) as Hb.
  assert (Hneg : atan (1.5 / (-3)) < 0).
  { rewrite <- atan_0. apply atan_increasing. lra. }
  lra.
Qed.

Lemma phi270_range : - PI < phi270 < - (PI / 2).
Proof.
  rewrite phi270_eq. unfold JS.atan2R.
  destruct (Rlt_dec 0 (-3)) as [H | _]; [lra |].
  destruct (Rlt_dec (-3) 0) as [_ | H]; [| lra].
  destruct (Rle_dec 0 (-1.5)) as [H | _]; [lra |].
  pose proof (atan_bound (-1.5 / (-3))) as Hb.
  assert (Hpos : 0 < atan (-1.5 / (-3))).
  { apply Trig.atan_pos. lra. }
  lra.
Qed.

Lemma t4_90_eq : t4_90 = phi90 - beta0.
Proof.
  unfold t4_90, rockerAngle. rewrite (beta_of_D _ pinDistance_90). reflexivity.
Qed.

Lemma t4_270_eq : t4_270 = phi270 - beta0.
Proof.
  unfold t4_270, rockerAngle. rewrite (beta_of_D _ pinDistance_m90). reflexivity.
Qed.

Lemma cos_t4_90 : cos t4_90 = (-3 * c0 + 3 / 2 * s0) / D.
Proof.
  rewrite t4_90_eq, cos_minus, cos_phi90, sin_phi90, cos_beta0, sin_beta0.
  unfold Rdiv. ring.
Qed.

Lemma cos_t4_270 : cos t4_270 = - (3 * c0 + 3 / 2 * s0) / D.
Proof.
  rewrite t4_270_eq, cos_minus, cos_phi270, sin_phi270, cos_beta0, sin_beta0.
  unfold Rdiv. ring.
Qed.

Lemma sin_t4_270 : sin t4_270 = (3 * s0 - 3 / 2 * c0) / D.
Proof.
  rewrite t4_270_eq, sin_minus, cos_phi270, sin_phi270, cos_beta0, sin_beta0.
  unfold Rdiv. ring.
Qed.

Lemma t4_90_range : 0 < t4_90 < PI.
Proof.
  rewrite t4_90_eq. pose proof phi90_range. pose proof beta0_range. lra.
Qed.

Lemma cos_t4_90_bounds : 0.002 < cos t4_90 < 0.00215.
Proof.
  rewrite cos_t4_90.
  pose proof D_bounds. pose proof c0_bounds. pose proof s0_bounds.
  apply div_between; nra.
Qed.

(** The rocker sits just short of upright at the reference angle. *)
Lemma t4_90_near : PI / 2 - 0.0025 < t4_90 < PI / 2.
Proof.
  pose proof t4_90_range as Hr. pose proof cos_t4_90_bounds as Hc.
  pose proof PI_RGT_0 as Hpi. pose proof PI2_3_2 as Hpi3.
  rewrite <- sin_shift in Hc.
  split.
  - assert (Hlt : PI / 2 - t4_90 < 0.0025); [| lra].
    apply sin_increasing_0; try lra.
    pose proof (Trig.sin_cubic_lb 0.0025 ltac:(lra)). lra.
  - assert (Hlt : 0 < PI / 2 - t4_90); [| lra].
    apply sin_increasing_0; try lra.
    rewrite sin_0. lra.
Qed.

Lemma stiffness_default : 0.1026 < stiffness DEFAULT_PARAMS < 0.1027.
Proof. unfold stiffness, secondMoment. simpl. lra. Qed.

Lemma valid_90 : isValid (calculateKinematics 90 DEFAULT_PARAMS) = true.
Proof. apply Evaluator.isValid_true_iff, default_feasible_90. Qed.

Lemma valid_m90 : isValid (calculateKinematics (-90) DEFAULT_PARAMS) = true.
Proof. apply Evaluator.isValid_true_iff, default_feasible_m90. Qed.

Lemma offPivot_90 : offPivot 90 DEFAULT_PARAMS.
Proof.
  unfold offPivot. rewrite pinDistance_90, rocker_default.
  pose proof D_bounds. lra.
Qed.

Lemma offPivot_m90 : offPivot (-90) DEFAULT_PARAMS.
Proof.
  unfold offPivot. rewrite pinDistance_m90, rocker_default.
  pose proof D_bounds. lra.
Qed.

Lemma state_90 :
  calculateKinematics 90 DEFAULT_PARAMS =
    {| theta2 := JS.fin 90;
       theta3 := JS.fin (normalizeDegreesR (toDegrees t3_90));
       theta4 := JS.fin (normalizeDegreesR (toDegrees t4_90));
       deltaTheta2 := JS.fin (90 - 90);
       energy :=
         JS.fin (0.5 * stiffness DEFAULT_PARAMS
                 * deflection 90 DEFAULT_PARAMS ^ 2);
       torque :=
         (JS.fin (stiffness DEFAULT_PARAMS * deflection 90 DEFAULT_PARAMS)
          * h42N 90 DEFAULT_PARAMS)%num;
       isValid := true;
       prb := prbOf DEFAULT_PARAMS |}.
Proof. exact (calculateKinematics_valid _ _ valid_90 offPivot_90). Qed.

Lemma state_m90 :
  calculateKinematics (-90) DEFAULT_PARAMS =
    {| theta2 := JS.fin (-90);
       theta3 := JS.fin (normalizeDegreesR (toDegrees t3_270));
       theta4 := JS.fin (normalizeDegreesR (toDegrees t4_270));
       deltaTheta2 := JS.fin (-90 - 90);
       energy :=
         JS.fin (0.5 * stiffness DEFAULT_PARAMS
                 * deflection (-90) DEFAULT_PARAMS ^ 2);
       torque :=
         (JS.fin (stiffness DEFAULT_PARAMS * deflection (-90) DEFAULT_PARAMS)
          * h42N (-90) DEFAULT_PARAMS)%num;
       isValid := true;
       prb := prbOf DEFAULT_PARAMS |}.
Proof. exact (calculateKinematics_valid _ _ valid_m90 offPivot_m90). Qed.

Lemma reported_t4_90 : normalizeDegreesR (toDegrees t4_90) = toDegrees t4_90.
Proof.
  apply normalizeDegrees_fixed.
  pose proof t4_90_range as [Hlo Hhi]. pose proof PI_RGT_0.
  split.
  - apply Rlt_trans with 0; [lra |]. apply toDegrees_gt.
    unfold toRadians. lra.
  - apply toDegrees_le. unfold toRadians. lra.
Qed.

Lemma reported_t4_90_bounds : 89.85 < toDegrees t4_90 < 90.
Proof.
  pose proof t4_90_near as [Hlo Hhi].
  pose proof PI2_3_2.
  split.
  - apply toDegrees_gt. unfold toRadians. lra.
  - apply toDegrees_lt. rewrite toRadians_90. lra.
Qed.

Lemma deflection_90 : deflection 90 DEFAULT_PARAMS = t4_90 - PI / 2.
Proof.
  unfold deflection. fold t4_90. simpl theta40. rewrite toRadians_90.
  rewrite Normalize.normalizeRadians_wrap.
  pose proof t4_90_near. pose proof PI2_3_2.
  apply Normalize.wrap_fixed; lra.
Qed.

Lemma energy_90_bounds :
  0 < 0.5 * stiffness DEFAULT_PARAMS * deflection 90 DEFAULT_PARAMS ^ 2
    < 0.000001.
Proof.
  rewrite deflection_90.
  pose proof t4_90_near as Hn. pose proof stiffness_default as HK.
  set (K := stiffness DEFAULT_PARAMS) in *.
  set (u := t4_90 - PI / 2).
  assert (Hu : - 0.0025 < u < 0) by (unfold u; lra).
  assert (Hu2 : 0 < u ^ 2 < 0.00000625) by nra.
  split; nra.
Qed.

Lemma t4_270_range : - (3 * (PI / 2)) < t4_270 < - (PI / 2).
Proof.
  rewrite t4_270_eq. pose proof phi270_range. pose proof beta0_range. lra.
Qed.

Lemma deflection_m90 :
  deflection (-90) DEFAULT_PARAMS = t4_270 - PI / 2 + 2 * PI.
Proof.
  unfold deflection. fold t4_270. simpl theta40. rewrite toRadians_90.
  rewrite Normalize.normalizeRadians_wrap.
  pose proof t4_270_range. pose proof PI_RGT_0.
  apply wrap_low; lra.
Qed.

Lemma energy_m90_bounds :
  0 < 0.5 * stiffness DEFAULT_PARAMS * deflection (-90) DEFAULT_PARAMS ^ 2
    < 1.
Proof.
  rewrite deflection_m90.
  pose proof t4_270_range. pose proof stiffness_default.
  pose proof PI_RGT_0. pose proof PI_4.
  set (K := stiffness DEFAULT_PARAMS) in *.
  set (u := t4_270 - PI / 2 + 2 * PI).
  assert (Hu : 0 < u < 4) by (unfold u; lra).
  assert (Hu2 : 0 < u ^ 2 < 16) by nra.
  split; nra.
Qed.

Lemma reported_t4_differ :
  normalizeDegreesR (toDegrees t4_270) <> normalizeDegreesR (toDegrees t4_90).
Proof.
  intros Heq.
  destruct (normalizeDegrees_toDegrees_inv _ _ Heq) as [k Hk].
  rewrite t4_90_eq, t4_270_eq in Hk.
  pose proof phi90_range. pose proof phi270_range. pose proof PI_RGT_0.
  assert (Hk0 : k = (-1)%Z \/ k = 0%Z \/ (k <= -2)%Z \/ (1 <= k)%Z) by lia.
  destruct Hk0 as [-> | [-> | [Hk0 | Hk0]]].
  - simpl in Hk. lra.
  - simpl in Hk. lra.
  - apply IZR_le in Hk0. nra.
  - apply IZR_le in Hk0. nra.
Qed.

Lemma t3_90_lt : t3_90 < PI / 4.
Proof.
  unfold t3_90, couplerAngle, rockerPin. rewrite crankPin_90, rocker_default.
  fold t4_90. unfold rockerPivot. simpl fst; simpl snd. simpl r1.
  pose proof cos_t4_90_bounds. pose proof (SIN_bound t4_90).
  apply Trig.atan2_lt_PI4; lra.
Qed.

(** At the reference angle the coupler points into the right half
    plane, so that coupler and rocker are not aligned. *)
Lemma t3_90_gt : - (PI / 2) < t3_90.
Proof.
  unfold t3_90, couplerAngle, rockerPin. rewrite crankPin_90, rocker_default.
  fold t4_90. unfold rockerPivot. simpl fst; simpl snd. simpl r1.
  pose proof cos_t4_90_bounds. unfold JS.atan2R.
  destruct (Rlt_dec 0 (3.0 + 3.672 * cos t4_90 - 0)) as [_ | Hn]; [| lra].
  pose proof (atan_bound ((0 + 3.672 * sin t4_90 - 1.5)
                          / (3.0 + 3.672 * cos t4_90 - 0))).
  lra.
Qed.

Lemma sin_t3_t4_90 : sin (t3_90 - t4_90) < 0.
Proof.
  pose proof t3_90_gt. pose proof t3_90_lt. pose proof t4_90_near.
  pose proof PI2_3_2.
  apply sin_lt_0_var; lra.
Qed.

Lemma sin_t4_270_bounds : 0.6 < sin t4_270 < 0.61.
Proof.
  rewrite sin_t4_270.
  pose proof D_bounds. pose proof c0_bounds. pose proof s0_bounds.
  apply div_between; nra.
Qed.

Lemma cos_t4_270_bounds : -0.8 < cos t4_270 < -0.79.
Proof.
  rewrite cos_t4_270.
  pose proof D_bounds. pose proof c0_bounds. pose proof s0_bounds.
  apply div_between; nra.
Qed.

Lemma t3_270_gt : PI / 4 < t3_270.
Proof.
  unfold t3_270, couplerAngle, rockerPin. rewrite crankPin_m90, rocker_default.
  fold t4_270. unfold rockerPivot. simpl fst; simpl snd. simpl r1.
  pose proof cos_t4_270_bounds. pose proof sin_t4_270_bounds.
  apply Trig.atan2_gt_PI4; lra.
Qed.

Lemma reported_t3 (t : R) :
  - PI < t <= PI -> normalizeDegreesR (toDegrees t) = toDegrees t.
Proof.
  intros [Hlo Hhi]. apply normalizeDegrees_fixed. split.
  - apply toDegrees_gt. unfold toRadians. lra.
  - apply toDegrees_le. unfold toRadians. lra.
Qed.

Lemma reported_t3_differ :
  normalizeDegreesR (toDegrees t3_270) <> normalizeDegreesR (toDegrees t3_90).
Proof.
  unfold t3_270, t3_90, couplerAngle.
  rewrite !reported_t3 by apply Trig.atan2_range.
  fold (couplerAngle (-90) DEFAULT_PARAMS) (couplerAngle 90 DEFAULT_PARAMS).
  fold t3_90 t3_270. intros Heq.
  pose proof t3_90_lt. pose proof t3_270_gt.
  assert (Ht : t3_270 = t3_90).
  { rewrite <- (toRadians_toDegrees t3_270), Heq. apply toRadians_toDegrees. }
  lra.
Qed.

End Reference.

(** ** Properties of the evaluator and of the projector *)

Module Properties.

Import Types Constants PRBModel Linkage Scenario.

(** C1.  For every parameter set and every crank angle, the evaluator
    returns [isValid = false] exactly when the distance [d] from the
    crank pin [A = (r2 cos theta2, r2 sin theta2)] to the pivot
    [B0 = (r1, 0)] satisfies [d > r3 + r4] or [d < |r3 - r4|], with
    [r4 = 0.85 * L4], and [isValid = true] otherwise: there is no other
    way to obtain an invalid state. *)
Theorem C1_invalid_iff_infeasible (theta2 : R) (p : MechanismParams) :
  let A := (r2 p * cos (toRadians theta2), r2 p * sin (toRadians theta2)) in
  let B0 := (r1 p, 0) in
  let d := distance A B0 in
  let r4 := 0.85 * L4 p in
  (isValid (calculateKinematics theta2 p) = false
   <-> (d > r3 p + r4 \/ d < Rabs (r3 p - r4)))
  /\ (isValid (calculateKinematics theta2 p) = true
      <-> ~ (d > r3 p + r4 \/ d < Rabs (r3 p - r4))).
Proof.
  cbv zeta. split.
  - apply Evaluator.isValid_false_iff.
  - apply Evaluator.isValid_true_iff.
Qed.

(** C2.  The evaluator is a total function; on an infeasible assembly
    it returns a complete record in which [theta3], [theta4], [energy]
    and [torque] are the number zero, [isValid] is false, and the
    remaining fields carry their usual values. *)
Theorem C2_infeasible_record (theta2 : R) (p : MechanismParams) :
  infeasible theta2 p ->
  calculateKinematics theta2 p =
    {| theta2 := JS.fin theta2;
       theta3 := JS.fin 0;
       theta4 := JS.fin 0;
       deltaTheta2 := JS.fin (theta2 - theta20 p);
       energy := JS.fin 0;
       torque := JS.fin 0;
       isValid := false;
       prb := {| gamma := JS.fin 0.85;
                 kTheta := JS.fin 2.65;
                 r4 := JS.fin (0.85 * L4 p);
                 I := JS.fin (b p * h p ^ 3 / 12);
                 K := (JS.fin 0.85 * JS.fin 2.65 * JS.fin (E p)
                       * JS.fin (b p * h p ^ 3 / 12)
                       / (JS.fin (L4 p) / JS.fin 100))%num |} |}.
Proof.
  intros Hinf. apply Evaluator.calculateKinematics_invalid.
  apply Evaluator.isValid_false_iff, Hinf.
Qed.

Lemma C2_infeasible_record_witness :
  infeasible 0 farParams /\
  theta3 (calculateKinematics 0 farParams) = JS.fin 0 /\
  energy (calculateKinematics 0 farParams) = JS.fin 0.
Proof.
  split; [exact Examples.farParams_infeasible |].
  rewrite (C2_infeasible_record 0 farParams Examples.farParams_infeasible).
  split; reflexivity.
Defined.

(** C3.  Whenever the assembly is feasible the evaluator takes
    [cos beta = (r4^2 + d^2 - r3^2) / (2 r4 d)], clamps it to
    [[-1, 1]] before the inverse cosine (which is therefore defined
    whenever the quotient is a number), takes
    [phi = atan2 (Ay - B0y, Ax - B0x)] and commits to the branch
    [theta4 = phi - beta]; [theta3] is [atan2 (By - Ay, Bx - Ax)] for
    [B = B0 + r4 (cos theta4, sin theta4)].  The reported angles are
    these two, converted to degrees and normalized.  The other branch
    [phi + beta] is not the one reported: whenever the two branches
    are distinct directions ([0 < beta < PI]) the reported [theta4]
    differs from it. *)
Theorem C3_committed_branch (theta2Deg : R) (p : MechanismParams) :
  isValid (calculateKinematics theta2Deg p) = true ->
  let s := calculateKinematics theta2Deg p in
  let A := crankPin theta2Deg p in
  let B0 := rockerPivot p in
  let r4 := 0.85 * L4 p in
  let d := distance A B0 in
  let cosBeta := (JS.fin (r4 ^ 2 + d ^ 2 - r3 p ^ 2) / JS.fin (2 * r4 * d))%num in
  let beta := JS.acos (JS.max (-1) (JS.min 1 cosBeta)) in
  let phi := JS.atan2R (snd A - snd B0) (fst A - fst B0) in
  let t4 := (phi - beta)%num in
  let B := ((fst B0 + r4 * JS.cos t4)%num, (snd B0 + r4 * JS.sin t4)%num) in
  let t3 := JS.atan2 (snd B - snd A)%num (fst B - fst A)%num in
  theta4 s = normalizeDegrees (t4 * 180 / PI)%num /\
  theta3 s = normalizeDegrees (t3 * 180 / PI)%num /\
  (forall c : R, cosBeta = JS.fin c ->
     exists b : R, beta = JS.fin b /\ 0 <= b <= PI) /\
  (forall b : R, beta = JS.fin b -> 0 < b < PI ->
     theta4 s <> normalizeDegrees ((phi + beta) * 180 / PI)%num).
Proof.
  intros Hv s A B0 r4 d cosBeta beta phi t4 B t3.
  assert (H4 : theta4 s = normalizeDegrees (t4 * 180 / PI)%num).
  { subst s. rewrite Evaluator.calculateKinematics_unfold.
    rewrite Evaluator.isValid_assemblyFails, negb_true_iff in Hv.
    rewrite Hv. reflexivity. }
  split; [exact H4 |]. split; [| split].
  - subst s. rewrite Evaluator.calculateKinematics_unfold.
    rewrite Evaluator.isValid_assemblyFails, negb_true_iff in Hv.
    rewrite Hv. reflexivity.
  - intros c Hc. subst beta. rewrite Hc. NumFacts.num_simpl.
    fold (clamp c).
    rewrite NumFacts.acos_fin by apply Evaluator.clamp_range.
    eexists. split; [reflexivity | apply acos_bound].
  - intros b0 Hb Hrange Heq. rewrite H4 in Heq.
    subst t4. rewrite Hb in Heq. NumFacts.num_simpl_in Heq.
    change (normalizeDegrees (toDegreesN (JS.fin (phi - b0)))
            = normalizeDegrees (toDegreesN (JS.fin (phi + b0)))) in Heq.
    rewrite !NormalizeNum.toDegreesN_fin, !NormalizeNum.normalizeDegrees_fin
      in Heq.
    apply NumFacts.fin_inj in Heq.
    destruct (Normalize.normalizeDegrees_toDegrees_inv _ _ Heq) as [k Hk].
    assert (Hbk : b0 = PI * IZR (- k)) by (rewrite opp_IZR; lra).
    pose proof PI_RGT_0 as Hpi.
    assert (Hk0 : (- k)%Z = 0%Z).
    { apply JSFacts.IZR_small. split; nra. }
    rewrite Hk0 in Hbk. simpl in Hbk. lra.
Qed.

Lemma C3_committed_branch_witness :
  isValid (calculateKinematics 90 DEFAULT_PARAMS) = true /\
  theta4 (calculateKinematics 90 DEFAULT_PARAMS)
  = normalizeDegrees (toDegreesN (rockerAngleN 90 DEFAULT_PARAMS)).
Proof.
  split; [exact Reference.valid_90 |].
  exact (proj1 (C3_committed_branch 90 DEFAULT_PARAMS Reference.valid_90)).
Defined.

(** C4.  On every evaluation the record embeds the derived constants
    [r4 = 0.85 * L4], [I = b h^3 / 12] and
    [K = 0.85 * 2.65 * E * I / (L4 / 100)]: the division of [L4] by
    100 occurs in the stiffness only, the link length [r4] uses [L4]
    as given. *)
Theorem C4_prb_constants (theta2 : R) (p : MechanismParams) :
  let s := calculateKinematics theta2 p in
  gamma (prb s) = JS.fin 0.85 /\
  kTheta (prb s) = JS.fin 2.65 /\
  r4 (prb s) = JS.fin (0.85 * L4 p) /\
  I (prb s) = JS.fin (b p * h p ^ 3 / 12) /\
  K (prb s)
  = (JS.fin 0.85 * JS.fin 2.65 * JS.fin (E p) * I (prb s)
     / (JS.fin (L4 p) / JS.fin 100))%num.
Proof.
  cbv zeta. rewrite Evaluator.prb_calculateKinematics.
  repeat split; reflexivity.
Qed.

(** C5.  With the reference parameters [r1 = 3.0], [r2 = 1.5],
    [r3 = 3.71], [L4 = 4.32], [E = 1.4e9], [b = 0.005], [h = 0.0015],
    [theta20 = 90], [theta40 = 90]: at [theta2 = 90] the state is
    valid, [theta4] is a number within 0.15 degree of 90,
    [deltaTheta2] is exactly [0] and the energy is a number below one
    microjoule; at [theta2 = -90] the state is valid, its energy is a
    positive number, and [theta3] and [theta4] are numbers that differ
    from their values at [theta2 = 90]. *)
Theorem C5_reference_scenario :
  let s := calculateKinematics 90 DEFAULT_PARAMS in
  let s' := calculateKinematics (-90) DEFAULT_PARAMS in
  exists a3 a4 e a3' a4' e' : R,
    (isValid s = true /\
     theta3 s = JS.fin a3 /\
     theta4 s = JS.fin a4 /\ 89.85 < a4 < 90 /\
     deltaTheta2 s = JS.fin 0 /\
     energy s = JS.fin e /\ 0 < e < 0.000001) /\
    (isValid s' = true /\
     theta3 s' = JS.fin a3' /\
     theta4 s' = JS.fin a4' /\
     energy s' = JS.fin e' /\ 0 < e' < 1 /\
     a3' <> a3 /\ a4' <> a4).
Proof.
  cbv zeta. rewrite Reference.state_90, Reference.state_m90.
  cbn [theta3 theta4 energy deltaTheta2 isValid].
  do 6 eexists.
  split; [split; [| split; [| split; [| split; [| split; [| split]]]]]
         | split; [| split; [| split; [| split; [| split; [| split]]]]]];
    try reflexivity.
  - rewrite Reference.reported_t4_90. exact Reference.reported_t4_90_bounds.
  - unfold JS.fin. do 2 f_equal. lra.
  - exact Reference.energy_90_bounds.
  - exact Reference.energy_m90_bounds.
  - exact Reference.reported_t3_differ.
  - exact Reference.reported_t4_differ.
Qed.

(** C6, as amended.  Degree normalization fixes every angle of
    [(-180, 180]], is idempotent, and is 360-periodic: normalizing
    [theta + 360 k] for an integer [k] gives the same value as
    normalizing [theta].  The
    evaluator returns [theta2] exactly as supplied, and reports
    [theta3] and [theta4] as numbers of [(-180, 180]] whenever the
    assembly is infeasible or the divisor [2 r4 d] of the
    law-of-cosines quotient is not zero; on a valid state where that
    divisor is zero they are not numbers. *)
Theorem C6_normalizeDegrees :
  (forall x : R, -180 < x <= 180 -> normalizeDegrees (JS.fin x) = JS.fin x) /\
  (forall x : R,
      normalizeDegrees (normalizeDegrees (JS.fin x))
      = normalizeDegrees (JS.fin x)) /\
  (forall (x : R) (k : Z),
      normalizeDegrees (JS.fin (x + 360 * IZR k))
      = normalizeDegrees (JS.fin x)) /\
  (forall (theta2Deg : R) (p : MechanismParams),
      theta2 (calculateKinematics theta2Deg p) = JS.fin theta2Deg) /\
  (forall (theta2Deg : R) (p : MechanismParams),
      infeasible theta2Deg p \/ offPivot theta2Deg p ->
      exists a3 a4 : R,
        theta3 (calculateKinematics theta2Deg p) = JS.fin a3 /\
        theta4 (calculateKinematics theta2Deg p) = JS.fin a4 /\
        -180 < a3 <= 180 /\ -180 < a4 <= 180) /\
  (forall (theta2Deg : R) (p : MechanismParams),
      ~ infeasible theta2Deg p -> ~ offPivot theta2Deg p ->
      theta3 (calculateKinematics theta2Deg p) = None /\
      theta4 (calculateKinematics theta2Deg p) = None).
Proof.
  split; [| split; [| split; [| split; [| split]]]].
  - intros x Hx. rewrite NormalizeNum.normalizeDegrees_fin.
    f_equal. apply Normalize.normalizeDegrees_fixed, Hx.
  - intros x. rewrite !NormalizeNum.normalizeDegrees_fin. f_equal.
    apply Normalize.normalizeDegrees_fixed, Normalize.normalizeDegrees_range.
  - intros x k. rewrite !NormalizeNum.normalizeDegrees_fin. f_equal.
    rewrite !Normalize.normalizeDegrees_wrap.
    replace (x + 360 * IZR k) with (x + 2 * 180 * IZR k) by ring.
    apply Normalize.wrap_periodic. lra.
  - intros theta2Deg p. rewrite Evaluator.calculateKinematics_unfold.
    destruct (assemblyFails theta2Deg p); reflexivity.
  - intros theta2Deg p Hcase.
    destruct (isValid (calculateKinematics theta2Deg p)) eqn:Hv.
    + assert (Hoff : offPivot theta2Deg p).
      { destruct Hcase as [Hinf | Hoff]; [| exact Hoff].
        apply Evaluator.isValid_false_iff in Hinf. congruence. }
      rewrite (Evaluator.calculateKinematics_valid _ _ Hv Hoff).
      cbn [theta3 theta4]. do 2 eexists.
      split; [reflexivity |]. split; [reflexivity |].
      split; apply Normalize.normalizeDegrees_range.
    + rewrite (Evaluator.calculateKinematics_invalid _ _ Hv).
      cbn [theta3 theta4]. exists 0, 0.
      repeat split; lra.
  - intros theta2Deg p Hf Hon.
    apply Evaluator.isValid_true_iff in Hf.
    rewrite (Evaluator.calculateKinematics_onPivot _ _ Hf Hon).
    split; reflexivity.
Qed.

Lemma C6_normalizeDegrees_witness :
  normalizeDegrees (JS.fin 180) = JS.fin 180 /\
  normalizeDegrees (JS.fin (45 + 360 * IZR 2)) = normalizeDegrees (JS.fin 45) /\
  exists a3 a4 : R,
    theta3 (calculateKinematics 90 DEFAULT_PARAMS) = JS.fin a3 /\
    theta4 (calculateKinematics 90 DEFAULT_PARAMS) = JS.fin a4 /\
    -180 < a3 <= 180 /\ -180 < a4 <= 180.
Proof.
  split; [| split].
  - apply (proj1 C6_normalizeDegrees). lra.
  - apply (proj1 (proj2 (proj2 C6_normalizeDegrees))).
  - apply (proj1 (proj2 (proj2 (proj2 (proj2 C6_normalizeDegrees))))).
    right. exact Reference.offPivot_90.
Defined.

(** C6, as stated, fails: with the crank as long as the ground link,
    the coupler as long as the reduced rocker and the crank at angle
    0, the state is valid and neither reported angle is a number. *)
Lemma C6_counterexample :
  isValid (calculateKinematics 0 coincidentParams) = true /\
  theta3 (calculateKinematics 0 coincidentParams) = None /\
  theta4 (calculateKinematics 0 coincidentParams) = None /\
  ~ (exists a4 : R,
       theta4 (calculateKinematics 0 coincidentParams) = JS.fin a4 /\
       -180 < a4 <= 180).
Proof.
  rewrite (Evaluator.calculateKinematics_onPivot _ _
             Examples.coincident_valid Examples.coincident_onPivot).
  cbn [isValid theta3 theta4].
  repeat split. intros [a4 [H _]]. discriminate H.
Qed.

(** C7, as amended.  For positive [E], [b], [h], [L4] the stiffness
    [K = 0.85 * 2.65 * (E * I / (L4 / 100))] of the parameters is
    positive, and at every crank angle at which the assembly is
    infeasible or the crank pin is off the rocker pivot ([d > 0]) the
    energy is a non-negative number: on a valid state it is
    [0.5 * K * deltaTheta4 ^ 2] with
    [deltaTheta4 = normalizeRadians (theta4 - theta40)] a number of
    [(-PI, PI]], and on an infeasible one it is exactly [0].  On a
    valid state with [d = 0] neither the deflection nor the energy is
    a number.  There is no other case. *)
Theorem C7_energy_nonneg (theta2Deg : R) (p : MechanismParams) :
  0 < E p -> 0 < b p -> 0 < h p -> 0 < L4 p ->
  let s := calculateKinematics theta2Deg p in
  let d := pinDistance theta2Deg p in
  let k :=
    PRB_GAMMA * PRB_K_THETA * (E p * (b p * h p ^ 3 / 12) / (L4 p / 100)) in
  let t4 := (JS.fin (phi theta2Deg p) - betaN theta2Deg p)%num in
  let deltaTheta4 :=
    normalizeRadians (t4 - JS.fin (toRadians (theta40 p)))%num in
  0 < k /\
  (infeasible theta2Deg p \/ 0 < d ->
   exists e : R,
     energy s = JS.fin e /\ 0 <= e /\
     (isValid s = true ->
        exists dt : R,
          deltaTheta4 = JS.fin dt /\ - PI < dt <= PI /\
          e = 0.5 * k * dt ^ 2) /\
     (isValid s = false -> e = 0)) /\
  (isValid s = true -> d = 0 -> deltaTheta4 = None /\ energy s = None) /\
  (infeasible theta2Deg p \/ 0 < d \/ (isValid s = true /\ d = 0)).
Proof.
  intros HE Hb Hh HL s d k t4 deltaTheta4.
  pose proof (Evaluator.stiffness_pos p HE Hb Hh HL) as HK.
  assert (Hk : k = stiffness p).
  { subst k. unfold stiffness, secondMoment, PRB_GAMMA, PRB_K_THETA.
    field. lra. }
  split; [rewrite Hk; exact HK |].
  split; [| split].
  - intros Hcase. destruct (isValid s) eqn:Hv.
    + assert (Hoff : offPivot theta2Deg p).
      { destruct Hcase as [Hinf | Hd].
        - apply Evaluator.isValid_false_iff in Hinf. subst s. congruence.
        - apply Evaluator.offPivot_of_distance; assumption. }
      exists (0.5 * stiffness p * deflection theta2Deg p ^ 2).
      split.
      { subst s. rewrite (Evaluator.calculateKinematics_valid _ _ Hv Hoff).
        reflexivity. }
      split.
      { pose proof (pow2_ge_0 (deflection theta2Deg p)). nra. }
      split; [| discriminate].
      intros _. exists (deflection theta2Deg p).
      split; [exact (Evaluator.deflectionN_fin _ _ Hoff) |].
      split; [apply Normalize.normalizeRadians_range |].
      rewrite Hk. reflexivity.
    + exists 0.
      split.
      { subst s. rewrite (Evaluator.calculateKinematics_invalid _ _ Hv).
        reflexivity. }
      split; [lra |].
      split; [discriminate | reflexivity].
  - intros Hv Hd.
    assert (Hon : ~ offPivot theta2Deg p).
    { unfold offPivot. fold d. rewrite Hd. intros H0. apply H0. ring. }
    split.
    + exact (Evaluator.deflectionN_None _ _ Hon).
    + subst s. rewrite (Evaluator.calculateKinematics_onPivot _ _ Hv Hon).
      reflexivity.
  - destruct (isValid s) eqn:Hv.
    + pose proof (Evaluator.pinDistance_nonneg theta2Deg p) as Hd.
      fold d in Hd.
      destruct (Rle_lt_or_eq_dec 0 d Hd) as [Hlt | Heq].
      * right; left. exact Hlt.
      * right; right. split; [reflexivity | symmetry; exact Heq].
    + left. apply Evaluator.isValid_false_iff. exact Hv.
Qed.

Lemma C7_energy_nonneg_witness :
  exists e dt : R,
    energy (calculateKinematics 90 DEFAULT_PARAMS) = JS.fin e /\ 0 <= e /\
    - PI < dt <= PI /\
    e = 0.5
        * (PRB_GAMMA * PRB_K_THETA
           * (E DEFAULT_PARAMS
              * (b DEFAULT_PARAMS * h DEFAULT_PARAMS ^ 3 / 12)
              / (L4 DEFAULT_PARAMS / 100)))
        * dt ^ 2.
Proof.
  assert (Hd : 0 < pinDistance 90 DEFAULT_PARAMS)
    by (rewrite Reference.pinDistance_90; pose proof Reference.D_bounds; lra).
  destruct (C7_energy_nonneg 90 DEFAULT_PARAMS
              ltac:(simpl; lra) ltac:(simpl; lra)
              ltac:(simpl; lra) ltac:(simpl; lra))
    as (_ & Hnum & _).
  destruct (Hnum (or_intror Hd)) as (e & He & Hpos & Hvalid & _).
  destruct (Hvalid Reference.valid_90) as (dt & _ & Hrange & Hform).
  exists e, dt.
  split; [exact He |]. split; [exact Hpos |]. split; [exact Hrange |].
  exact Hform.
Defined.

(** C7, as stated, fails: all of [E], [b], [h], [L4] and the link
    lengths are positive, the state is valid, and the energy is not a
    number. *)
Lemma C7_counterexample :
  (0 < E coincidentParams /\ 0 < b coincidentParams /\
   0 < h coincidentParams /\ 0 < L4 coincidentParams) /\
  isValid (calculateKinematics 0 coincidentParams) = true /\
  energy (calculateKinematics 0 coincidentParams) = None /\
  ~ (exists e : R,
       energy (calculateKinematics 0 coincidentParams) = JS.fin e /\
       0 <= e).
Proof.
  split; [unfold coincidentParams; simpl; repeat split; lra |].
  rewrite (Evaluator.calculateKinematics_onPivot _ _
             Examples.coincident_valid Examples.coincident_onPivot).
  cbn [isValid energy].
  repeat split. intros [e [H _]]. discriminate H.
Qed.

(** C8.  On every valid state the torque is [K * deltaTheta4 * h42]
    with [K = 0.85 * 2.65 * (E * I / (L4 / 100))] and
    [h42 = (r2 sin(theta3 - theta2)) / (r4 sin(theta3 - theta4))],
    [r4 = 0.85 * L4], all taken from the parameters and the solved
    angles, and the quotient taken as it stands, with no case
    distinction on its divisor.  At a toggle, where the solved angles
    are numbers and [sin(theta3 - theta4) = 0], the torque is not a
    number; where the solved angles are numbers and
    [sin(theta3 - theta4)] is not zero, it is the real number these
    formulas give.  On an infeasible state the torque is [0].  The
    angles [theta3] and [theta4] of these formulas are the ones a
    valid state reports, in degrees and normalized. *)
Theorem C8_torque (theta2Deg : R) (p : MechanismParams) :
  let s := calculateKinematics theta2Deg p in
  let r4 := (JS.fin PRB_GAMMA * JS.fin (L4 p))%num in
  let K_val :=
    (JS.fin PRB_GAMMA * JS.fin PRB_K_THETA
     * (JS.fin (E p)
        * (JS.fin (b p) * JS.pow (JS.fin (h p)) 3 / JS.fin 12)
        / (JS.fin (L4 p) / JS.fin 100)))%num in
  let t2 := JS.fin (toRadians theta2Deg) in
  let t3 := couplerAngleN theta2Deg p in
  let t4 := rockerAngleN theta2Deg p in
  let deltaTheta4 :=
    normalizeRadians (t4 - JS.fin (toRadians (theta40 p)))%num in
  let h42 :=
    ((JS.fin (r2 p) * JS.sin (t3 - t2)) / (r4 * JS.sin (t3 - t4)))%num in
  (isValid s = true -> torque s = (K_val * deltaTheta4 * h42)%num) /\
  (isValid s = true ->
   forall a3 a4 : R,
     t3 = JS.fin a3 -> t4 = JS.fin a4 -> sin (a3 - a4) = 0 ->
     torque s = None) /\
  (isValid s = true ->
   forall a3 a4 : R,
     t3 = JS.fin a3 -> t4 = JS.fin a4 -> sin (a3 - a4) <> 0 ->
     torque s
     = JS.fin
         (PRB_GAMMA * PRB_K_THETA
          * (E p * (b p * h p ^ 3 / 12) / (L4 p / 100))
          * normalizeRadiansR (a4 - toRadians (theta40 p))
          * (r2 p * sin (a3 - toRadians theta2Deg)
             / (PRB_GAMMA * L4 p * sin (a3 - a4))))) /\
  (isValid s = false -> torque s = JS.fin 0) /\
  (isValid s = true ->
   theta3 s = normalizeDegrees (t3 * JS.fin 180 / JS.fin PI)%num /\
   theta4 s = normalizeDegrees (t4 * JS.fin 180 / JS.fin PI)%num).
Proof.
  cbv zeta. rewrite Evaluator.stiffness_code.
  assert (Hvalid : isValid (calculateKinematics theta2Deg p) = true ->
                   torque (calculateKinematics theta2Deg p)
                   = (stiffnessN p * deflectionN theta2Deg p
                      * h42N theta2Deg p)%num).
  { intros Hv. rewrite Evaluator.calculateKinematics_unfold.
    rewrite Evaluator.isValid_assemblyFails, negb_true_iff in Hv.
    rewrite Hv. reflexivity. }
  split; [exact Hvalid |]. split; [| split; [| split]].
  - intros Hv a3 a4 H3 H4 Hsin. rewrite (Hvalid Hv).
    assert (Hh : h42N theta2Deg p = None).
    { unfold h42N. rewrite H3, H4. NumFacts.num_simpl.
      apply NumFacts.div_zero. rewrite Hsin. ring. }
    rewrite Hh. apply NumFacts.mul_None_r.
  - intros Hv a3 a4 H3 H4 Hsin. rewrite (Hvalid Hv).
    assert (Hoff : offPivot theta2Deg p).
    { destruct (Req_dec_T (2 * rocker p * pinDistance theta2Deg p) 0)
        as [Hz | Hnz]; [| exact Hnz].
      assert (Hon : ~ offPivot theta2Deg p) by (intros H; apply H; exact Hz).
      rewrite (Evaluator.rockerAngleN_None _ _ Hon) in H4. discriminate H4. }
    pose proof (Evaluator.offPivot_L4 _ _ Hoff) as HL.
    assert (Hden : rocker p * sin (a3 - a4) <> 0).
    { apply Rmult_integral_contrapositive_currified; [| exact Hsin].
      unfold rocker. lra. }
    rewrite (Evaluator.stiffnessN_fin p HL).
    unfold deflectionN, h42N. rewrite H3, H4.
    NumFacts.num_simpl. rewrite NormalizeNum.normalizeRadians_fin.
    rewrite NumFacts.div_fin by exact Hden.
    NumFacts.num_simpl. apply f_equal.
    unfold stiffness, secondMoment, rocker, PRB_GAMMA, PRB_K_THETA in *.
    field. repeat split; lra.
  - intros Hv. rewrite (Evaluator.calculateKinematics_invalid _ _ Hv).
    reflexivity.
  - intros Hv. rewrite Evaluator.calculateKinematics_unfold.
    rewrite Evaluator.isValid_assemblyFails, negb_true_iff in Hv.
    rewrite Hv. split; reflexivity.
Qed.

Lemma C8_torque_witness :
  (isValid (calculateKinematics 0 toggleParams) = true /\
   torque (calculateKinematics 0 toggleParams) = None) /\
  (isValid (calculateKinematics 90 DEFAULT_PARAMS) = true /\
   sin (t3_90 - t4_90) <> 0 /\
   torque (calculateKinematics 90 DEFAULT_PARAMS)
   = JS.fin
       (PRB_GAMMA * PRB_K_THETA
        * (E DEFAULT_PARAMS
           * (b DEFAULT_PARAMS * h DEFAULT_PARAMS ^ 3 / 12)
           / (L4 DEFAULT_PARAMS / 100))
        * normalizeRadiansR (t4_90 - toRadians (theta40 DEFAULT_PARAMS))
        * (r2 DEFAULT_PARAMS * sin (t3_90 - toRadians 90)
           / (PRB_GAMMA * L4 DEFAULT_PARAMS * sin (t3_90 - t4_90))))).
Proof.
  assert (Hsin : sin (t3_90 - t4_90) <> 0)
    by (pose proof Reference.sin_t3_t4_90; lra).
  split; split.
  - exact Examples.toggle_valid.
  - apply (proj1 (proj2 (C8_torque 0 toggleParams))
             Examples.toggle_valid 0 0).
    + rewrite (Evaluator.couplerAngleN_fin _ _ Examples.toggle_offPivot).
      rewrite Examples.toggle_couplerAngle. reflexivity.
    + rewrite (Evaluator.rockerAngleN_fin _ _ Examples.toggle_offPivot).
      rewrite Examples.toggle_rockerAngle. reflexivity.
    + replace (0 - 0) with 0 by ring. apply sin_0.
  - exact Reference.valid_90.
  - split; [exact Hsin |].
    apply (proj1 (proj2 (proj2 (C8_torque 90 DEFAULT_PARAMS)))
             Reference.valid_90 t3_90 t4_90).
    + exact (Evaluator.couplerAngleN_fin _ _ Reference.offPivot_90).
    + exact (Evaluator.rockerAngleN_fin _ _ Reference.offPivot_90).
    + exact Hsin.
Defined.

(** C9, as amended.  For positive [r2] and [r3] and every state whose
    [theta2] and [theta3] are numbers (every infeasible state and
    every valid state computed with a nonzero divisor [2 r4 d]), the
    projector places [A] at distance [r2] from [A0] and [B] at
    distance [r3] from [A]; [A] is computed from the state's [theta2]
    and [B] from its [theta3], and nothing else of the state (not
    [theta4]) is read. *)
Theorem C9_joint_distances
    (point : SimulationPoint) (p : MechanismParams) (a2 a3 : R) :
  0 < r2 p -> 0 < r3 p ->
  theta2 point = JS.fin a2 -> theta3 point = JS.fin a3 ->
  let J := getJointPositions point p in
  distanceN (A J) (A0 J) = JS.fin (r2 p) /\
  distanceN (B J) (A J) = JS.fin (r3 p) /\
  A J = (JS.fin (r2 p * cos (toRadians a2)),
         JS.fin (r2 p * sin (toRadians a2))) /\
  B J = ((fst (A J) + JS.fin (r3 p * cos (toRadians a3)))%num,
         (snd (A J) + JS.fin (r3 p * sin (toRadians a3)))%num) /\
  (forall point' : SimulationPoint,
      theta2 point' = theta2 point -> theta3 point' = theta3 point ->
      getJointPositions point' p = J).
Proof.
  intros Hr2 Hr3 H2 H3 J. subst J.
  rewrite (Projector.getJointPositions_fin point p a2 a3 H2 H3).
  cbn [A A0 B B0 fst snd].
  split; [| split; [| split; [| split]]].
  - rewrite Projector.distanceN_fin. f_equal.
    rewrite <- (Evaluator.polar_distance 0 0 (r2 p) (toRadians a2)) at 3
      by lra.
    f_equal. f_equal; ring.
  - rewrite Projector.distanceN_fin. f_equal.
    apply Evaluator.polar_distance. lra.
  - reflexivity.
  - reflexivity.
  - intros point' E2 E3. rewrite H2 in E2. rewrite H3 in E3.
    apply (Projector.getJointPositions_fin point' p a2 a3 E2 E3).
Qed.

Lemma C9_joint_distances_witness :
  distanceN
    (B (getJointPositions (calculateKinematics 90 DEFAULT_PARAMS)
                          DEFAULT_PARAMS))
    (A (getJointPositions (calculateKinematics 90 DEFAULT_PARAMS)
                          DEFAULT_PARAMS))
  = JS.fin (r3 DEFAULT_PARAMS).
Proof.
  refine (proj1 (proj2 (C9_joint_distances
                          (calculateKinematics 90 DEFAULT_PARAMS)
                          DEFAULT_PARAMS
                          90 (normalizeDegreesR (toDegrees t3_90))
                          _ _ _ _))).
  - simpl; lra.
  - simpl; lra.
  - rewrite Reference.state_90. reflexivity.
  - rewrite Reference.state_90. reflexivity.
Defined.

(** C9, as stated, fails: with positive link lengths the state below
    is valid, its [theta3] is not a number, and neither is the distance
    from the projected [B] to the projected [A]. *)
Lemma C9_counterexample :
  let s := calculateKinematics 0 coincidentParams in
  let J := getJointPositions s coincidentParams in
  (0 < r1 coincidentParams /\ 0 < r2 coincidentParams /\
   0 < r3 coincidentParams /\ 0 < L4 coincidentParams) /\
  isValid s = true /\
  theta3 s = None /\
  distanceN (B J) (A J) = None /\
  distanceN (B J) (A J) <> JS.fin (r3 coincidentParams).
Proof.
  cbv zeta.
  split; [unfold coincidentParams; simpl; repeat split; lra |].
  split; [exact Examples.coincident_valid |].
  assert (H3 : theta3 (calculateKinematics 0 coincidentParams) = None).
  { rewrite (Evaluator.calculateKinematics_onPivot _ _
               Examples.coincident_valid Examples.coincident_onPivot).
    reflexivity. }
  split; [exact H3 |].
  rewrite (Projector.getJointPositions_missing _ _ H3).
  rewrite Projector.distanceN_missing.
  split; [reflexivity | discriminate].
Qed.

(** C10.  The projector is defined on every state, valid or not, and
    always returns [A0 = (0, 0)] and [B0 = (r1, 0)].  On an invalid
    state of the evaluator [theta2] is the supplied crank angle and
    [theta3] is [0], so [A] is the crank pin of that angle and
    [B = A + (r3, 0)]. *)
Theorem C10_projector_total :
  (forall (point : SimulationPoint) (p : MechanismParams),
      A0 (getJointPositions point p) = (JS.fin 0, JS.fin 0) /\
      B0 (getJointPositions point p) = (JS.fin (r1 p), JS.fin 0)) /\
  (forall (theta2Deg : R) (p : MechanismParams),
      let s := calculateKinematics theta2Deg p in
      let J := getJointPositions s p in
      let Ax := r2 p * cos (toRadians theta2Deg) in
      let Ay := r2 p * sin (toRadians theta2Deg) in
      isValid s = false ->
      theta2 s = JS.fin theta2Deg /\ theta3 s = JS.fin 0 /\
      A J = (JS.fin Ax, JS.fin Ay) /\
      B J = (JS.fin (Ax + r3 p), JS.fin Ay)).
Proof.
  split.
  - intros point p. split; reflexivity.
  - intros theta2Deg p s J Ax Ay Hv. subst J s.
    rewrite (Evaluator.calculateKinematics_invalid _ _ Hv).
    erewrite (Projector.getJointPositions_fin _ p theta2Deg 0);
      [| reflexivity ..].
    cbn [theta2 theta3 A B].
    rewrite Examples.toRadians_0, cos_0, sin_0.
    repeat split. subst Ax Ay. unfold JS.fin. do 2 f_equal; ring.
Qed.

Lemma C10_projector_total_witness :
  B (getJointPositions (calculateKinematics 0 farParams) farParams)
  = (JS.fin (r2 farParams * cos (toRadians 0) + r3 farParams),
     JS.fin (r2 farParams * sin (toRadians 0))).
Proof.
  apply (proj2 C10_projector_total 0 farParams).
  exact Examples.farParams_invalid.
Defined.

End Properties.

(** ** Whole turns *)

Module Turns.

Import Linkage.

Lemma cos_turns (x : R) (k : Z) : cos (x + 2 * PI * IZR k) = cos x.
Proof.
  destruct (Z_le_gt_dec 0 k) as [Hk | Hk].
  - rewrite <- (Z2Nat.id k Hk), <- INR_IZR_INZ.
    replace (x + 2 * PI * INR (Z.to_nat k))
      with (x + 2 * INR (Z.to_nat k) * PI) by ring.
    apply cos_period.
  - rewrite <- (cos_period (x + 2 * PI * IZR k) (Z.to_nat (- k))).
    rewrite INR_IZR_INZ, Z2Nat.id by lia. rewrite opp_IZR.
    f_equal. ring.
Qed.

Lemma sin_turns (x : R) (k : Z) : sin (x + 2 * PI * IZR k) = sin x.
Proof.
  destruct (Z_le_gt_dec 0 k) as [Hk | Hk].
  - rewrite <- (Z2Nat.id k Hk), <- INR_IZR_INZ.
    replace (x + 2 * PI * INR (Z.to_nat k))
      with (x + 2 * INR (Z.to_nat k) * PI) by ring.
    apply sin_period.
  - rewrite <- (sin_period (x + 2 * PI * IZR k) (Z.to_nat (- k))).
    rewrite INR_IZR_INZ, Z2Nat.id by lia. rewrite opp_IZR.
    f_equal. ring.
Qed.

(** An angle in radians, reported in degrees and read back. *)
Lemma reported_turns (t : R) :
  exists k : Z,
    toRadians (normalizeDegreesR (toDegrees t)) = t + 2 * PI * IZR k.
Proof.
  destruct (Normalize.wrap_congr 180 (toDegrees t)) as [k Hk].
  exists k. unfold normalizeDegreesR. rewrite Hk.
  rewrite Normalize.toRadians_plus, Normalize.toRadians_turns,
    Normalize.toRadians_toDegrees.
  reflexivity.
Qed.

Lemma cos_reported (t : R) :
  cos (toRadians (normalizeDegreesR (toDegrees t))) = cos t.
Proof. destruct (reported_turns t) as [k ->]. apply cos_turns. Qed.

Lemma sin_reported (t : R) :
  sin (toRadians (normalizeDegreesR (toDegrees t))) = sin t.
Proof. destruct (reported_turns t) as [k ->]. apply sin_turns. Qed.

(** Differences of reported angles have the sine of the differences
    of the angles. *)
Lemma sin_reported_minus (t u : R) :
  sin (toRadians (normalizeDegreesR (toDegrees t)) - u) = sin (t - u).
Proof. rewrite !sin_minus, cos_reported, sin_reported. reflexivity. Qed.

Lemma sin_minus_reported (t u : R) :
  sin (t - toRadians (normalizeDegreesR (toDegrees u))) = sin (t - u).
Proof. rewrite !sin_minus, cos_reported, sin_reported. reflexivity. Qed.

End Turns.

(** ** The closed loop

    What the law of cosines gives in a valid state whose quotient has
    a divisor other than zero. *)

Module Closure.

Import Types Constants PRBModel Linkage.

Lemma div_bounds (lo hi n d : R) :
  0 < d -> lo * d <= n -> n <= hi * d -> lo <= n / d <= hi.
Proof.
  intros Hd H1 H2. split.
  - apply Rmult_le_reg_r with d; [assumption |].
    unfold Rdiv. rewrite Rmult_assoc, Rinv_l by lra. lra.
  - apply Rmult_le_reg_r with d; [assumption |].
    unfold Rdiv. rewrite Rmult_assoc, Rinv_l by lra. lra.
Qed.

Lemma Rabs_bounds (x d : R) : Rabs x <= d <-> - d <= x <= d.
Proof.
  split.
  - intros H. pose proof (Rle_abs x) as H1.
    pose proof (Rle_abs (- x)) as H2. rewrite Rabs_Ropp in H2. lra.
  - intros [H1 H2]. unfold Rabs. destruct (Rcase_abs x); lra.
Qed.

Section Feasible.

Variable theta2 : R.
Variable p : MechanismParams.
Hypothesis Hf : ~ infeasible theta2 p.
Hypothesis Hoff : offPivot theta2 p.

Lemma feasible_window :
  pinDistance theta2 p <= r3 p + rocker p /\
  - pinDistance theta2 p <= r3 p - rocker p <= pinDistance theta2 p.
Proof.
  unfold infeasible in Hf.
  assert (H1 : pinDistance theta2 p <= r3 p + rocker p) by lra.
  assert (H2 : Rabs (r3 p - rocker p) <= pinDistance theta2 p) by lra.
  apply Rabs_bounds in H2. lra.
Qed.

(** The reduced rocker and the distance [d] are positive, and the
    coupler length is not negative. *)
Lemma feasible_lengths :
  0 < rocker p /\ 0 < pinDistance theta2 p /\ 0 <= r3 p.
Proof.
  pose proof feasible_window as [H1 H2].
  pose proof (Evaluator.pinDistance_nonneg theta2 p) as Hd.
  unfold offPivot in Hoff.
  assert (Ha : rocker p <> 0) by (intros E; apply Hoff; rewrite E; ring).
  assert (Hd' : pinDistance theta2 p <> 0)
    by (intros E; apply Hoff; rewrite E; ring).
  lra.
Qed.

Lemma cosBeta_range : -1 <= cosBeta theta2 p <= 1.
Proof.
  pose proof feasible_window as [H1 H2].
  pose proof feasible_lengths as (Ha & Hd & H3).
  unfold cosBeta.
  set (a := rocker p) in *. set (d := pinDistance theta2 p) in *.
  apply div_bounds; nra.
Qed.

Lemma cos_beta : cos (beta theta2 p) = cosBeta theta2 p.
Proof.
  unfold beta. rewrite (Evaluator.clamp_id _ cosBeta_range).
  apply cos_acos, cosBeta_range.
Qed.

Lemma sin_beta : sin (beta theta2 p) = sqrt (1 - (cosBeta theta2 p)²).
Proof.
  unfold beta. rewrite (Evaluator.clamp_id _ cosBeta_range).
  apply sin_acos, cosBeta_range.
Qed.

Lemma sin_beta_nonneg : 0 <= sin (beta theta2 p).
Proof. rewrite sin_beta. apply sqrt_pos. Qed.

(** The crank pin seen from the rocker pivot, in polar form. *)
Lemma crank_polar :
  fst (crankPin theta2 p) - fst (rockerPivot p)
  = pinDistance theta2 p * cos (phi theta2 p) /\
  snd (crankPin theta2 p) - snd (rockerPivot p)
  = pinDistance theta2 p * sin (phi theta2 p).
Proof.
  pose proof feasible_lengths as (_ & Hd & _).
  set (x := fst (crankPin theta2 p) - fst (rockerPivot p)).
  set (y := snd (crankPin theta2 p) - snd (rockerPivot p)).
  assert (Hn : pinDistance theta2 p = sqrt (x ^ 2 + y ^ 2)) by reflexivity.
  assert (Hxy : x <> 0 \/ y <> 0).
  { destruct (Req_dec x 0) as [Hx | Hx]; [| left; exact Hx].
    right. intros Hy. rewrite Hn, Hx, Hy in Hd.
    replace (0 ^ 2 + 0 ^ 2) with 0 in Hd by ring.
    rewrite sqrt_0 in Hd. lra. }
  unfold phi. fold x y.
  rewrite (Trig.cos_atan2 y x Hxy), (Trig.sin_atan2 y x Hxy), <- Hn.
  split; field; lra.
Qed.

(** The pin [B] on the rocker circle is at the coupler's length from
    the crank pin. *)
Lemma coupler_sq :
  (fst (rockerPin theta2 p) - fst (crankPin theta2 p)) ^ 2
  + (snd (rockerPin theta2 p) - snd (crankPin theta2 p)) ^ 2
  = r3 p ^ 2.
Proof.
  pose proof feasible_lengths as (Ha & Hd & _).
  pose proof crank_polar as [Hx Hy].
  assert (Hc : cos (rockerAngle theta2 p) * cos (phi theta2 p)
               + sin (rockerAngle theta2 p) * sin (phi theta2 p)
               = cosBeta theta2 p).
  { rewrite <- cos_minus. unfold rockerAngle.
    replace (phi theta2 p - beta theta2 p - phi theta2 p)
      with (- beta theta2 p) by ring.
    rewrite cos_neg. apply cos_beta. }
  assert (HN : 2 * rocker p * pinDistance theta2 p * cosBeta theta2 p
               = rocker p ^ 2 + pinDistance theta2 p ^ 2 - r3 p ^ 2).
  { unfold cosBeta. field. nra. }
  unfold rockerPin. cbn [fst snd].
  replace (fst (rockerPivot p) + rocker p * cos (rockerAngle theta2 p)
           - fst (crankPin theta2 p))
    with (rocker p * cos (rockerAngle theta2 p)
          - (fst (crankPin theta2 p) - fst (rockerPivot p))) by ring.
  replace (snd (rockerPivot p) + rocker p * sin (rockerAngle theta2 p)
           - snd (crankPin theta2 p))
    with (rocker p * sin (rockerAngle theta2 p)
          - (snd (crankPin theta2 p) - snd (rockerPivot p))) by ring.
  rewrite Hx, Hy.
  pose proof (sin2_cos2 (rockerAngle theta2 p)) as H4.
  pose proof (sin2_cos2 (phi theta2 p)) as H5.
  unfold Rsqr in H4, H5.
  set (a := rocker p) in *. set (d := pinDistance theta2 p) in *.
  set (c4 := cos (rockerAngle theta2 p)) in *.
  set (s4 := sin (rockerAngle theta2 p)) in *.
  set (cf := cos (phi theta2 p)) in *.
  set (sf := sin (phi theta2 p)) in *.
  replace ((a * c4 - d * cf) ^ 2 + (a * s4 - d * sf) ^ 2)
    with (a ^ 2 * (s4 * s4 + c4 * c4) + d ^ 2 * (sf * sf + cf * cf)
          - 2 * a * d * (c4 * cf + s4 * sf)) by ring.
  rewrite H4, H5, Hc. lra.
Qed.

(** The coupler from the crank pin to [B], in polar form. *)
Lemma coupler_polar :
  fst (rockerPin theta2 p) - fst (crankPin theta2 p)
  = r3 p * cos (couplerAngle theta2 p) /\
  snd (rockerPin theta2 p) - snd (crankPin theta2 p)
  = r3 p * sin (couplerAngle theta2 p).
Proof.
  pose proof feasible_lengths as (_ & _ & H3).
  pose proof coupler_sq as Hsq.
  unfold couplerAngle.
  set (x := fst (rockerPin theta2 p) - fst (crankPin theta2 p)) in *.
  set (y := snd (rockerPin theta2 p) - snd (crankPin theta2 p)) in *.
  destruct (Req_dec (r3 p) 0) as [H0 | H0].
  - rewrite H0 in *.
    assert (x = 0 /\ y = 0) as [-> ->] by (split; nra).
    split; ring.
  - assert (Hxy : x <> 0 \/ y <> 0).
    { destruct (Req_dec x 0) as [Hx | Hx]; [| left; exact Hx].
      right. intros Hy. rewrite Hx, Hy in Hsq. apply H0. nra. }
    rewrite (Trig.cos_atan2 y x Hxy), (Trig.sin_atan2 y x Hxy), Hsq.
    rewrite sqrt_pow2 by exact H3.
    split; field; exact H0.
Qed.

(** The loop closes: going out along the crank and the coupler ends
    on the rocker circle. *)
Lemma loop_closed :
  fst (crankPin theta2 p) + r3 p * cos (couplerAngle theta2 p)
  = fst (rockerPin theta2 p) /\
  snd (crankPin theta2 p) + r3 p * sin (couplerAngle theta2 p)
  = snd (rockerPin theta2 p).
Proof. pose proof coupler_polar as [Hx Hy]. lra. Qed.

(** Coupler against rocker: [r3 sin (t3 - t4) = - d sin beta]. *)
Lemma transmission_sine :
  r3 p * sin (couplerAngle theta2 p - rockerAngle theta2 p)
  = - (pinDistance theta2 p * sin (beta theta2 p)).
Proof.
  pose proof crank_polar as [Hx Hy].
  pose proof coupler_polar as [Hu Hv].
  assert (Hs : sin (rockerAngle theta2 p) * cos (phi theta2 p)
               - cos (rockerAngle theta2 p) * sin (phi theta2 p)
               = - sin (beta theta2 p)).
  { rewrite <- sin_minus. unfold rockerAngle.
    replace (phi theta2 p - beta theta2 p - phi theta2 p)
      with (- beta theta2 p) by ring.
    apply sin_neg. }
  unfold rockerPin in Hu, Hv. cbn [fst snd] in Hu, Hv.
  rewrite sin_minus.
  pose proof (sin2_cos2 (rockerAngle theta2 p)) as H4. unfold Rsqr in H4.
  set (a := rocker p) in *. set (d := pinDistance theta2 p) in *.
  set (c4 := cos (rockerAngle theta2 p)) in *.
  set (s4 := sin (rockerAngle theta2 p)) in *.
  set (cf := cos (phi theta2 p)) in *.
  set (sf := sin (phi theta2 p)) in *.
  set (c3 := cos (couplerAngle theta2 p)) in *.
  set (s3 := sin (couplerAngle theta2 p)) in *.
  replace (r3 p * (s3 * c4 - c3 * s4))
    with ((r3 p * s3) * c4 - (r3 p * c3) * s4) by ring.
  rewrite <- Hu, <- Hv.
  replace (snd (rockerPivot p) + a * s4 - snd (crankPin theta2 p))
    with (a * s4 - (snd (crankPin theta2 p) - snd (rockerPivot p))) by ring.
  replace (fst (rockerPivot p) + a * c4 - fst (crankPin theta2 p))
    with (a * c4 - (fst (crankPin theta2 p) - fst (rockerPivot p))) by ring.
  rewrite Hx, Hy.
  replace ((a * s4 - d * sf) * c4 - (a * c4 - d * cf) * s4)
    with (d * (s4 * cf - c4 * sf)) by ring.
  rewrite Hs. ring.
Qed.

End Feasible.

End Closure.

(** ** Valid states whose angles are numbers *)

Module Pose.

Import Types Constants PRBModel Linkage.

(** A valid state reports a number for [theta4] only off the pivot. *)
Lemma number_offPivot (theta2 : R) (p : MechanismParams) (a4 : R) :
  isValid (calculateKinematics theta2 p) = true ->
  theta4 (calculateKinematics theta2 p) = JS.fin a4 ->
  offPivot theta2 p.
Proof.
  intros Hv H4.
  destruct (Req_dec (2 * rocker p * pinDistance theta2 p) 0) as [Hz | Hnz];
    [| exact Hnz].
  assert (Hon : ~ offPivot theta2 p) by (intros H; apply H; exact Hz).
  rewrite (Evaluator.calculateKinematics_onPivot _ _ Hv Hon) in H4.
  discriminate H4.
Qed.

Lemma quotient_offPivot (theta2 : R) (p : MechanismParams) (c : R) :
  cosBetaN theta2 p = JS.fin c -> offPivot theta2 p /\ c = cosBeta theta2 p.
Proof.
  intros Hc.
  destruct (Req_dec (2 * rocker p * pinDistance theta2 p) 0) as [Hz | Hnz].
  - assert (Hon : ~ offPivot theta2 p) by (intros H; apply H; exact Hz).
    rewrite (Evaluator.cosBetaN_None _ _ Hon) in Hc. discriminate Hc.
  - split; [exact Hnz |].
    rewrite (Evaluator.cosBetaN_fin _ _ Hnz) in Hc.
    symmetry. apply NumFacts.fin_inj, Hc.
Qed.

(** The joints of a valid state off the pivot. *)
Lemma joints (theta2 : R) (p : MechanismParams) :
  isValid (calculateKinematics theta2 p) = true ->
  offPivot theta2 p ->
  getJointPositions (calculateKinematics theta2 p) p =
    {| A0 := (JS.fin 0, JS.fin 0);
       A := (JS.fin (fst (crankPin theta2 p)),
             JS.fin (snd (crankPin theta2 p)));
       B := (JS.fin (fst (rockerPin theta2 p)),
             JS.fin (snd (rockerPin theta2 p)));
       B0 := (JS.fin (r1 p), JS.fin 0) |}.
Proof.
  intros Hv Hoff.
  assert (Hf : ~ infeasible theta2 p)
    by (apply Evaluator.isValid_true_iff, Hv).
  rewrite (Projector.getJointPositions_fin _ p theta2
             (normalizeDegreesR (toDegrees (couplerAngle theta2 p))));
    try (rewrite (Evaluator.calculateKinematics_valid _ _ Hv Hoff);
         reflexivity).
  rewrite Turns.cos_reported, Turns.sin_reported.
  destruct (Closure.loop_closed theta2 p Hf Hoff) as [Hx Hy].
  unfold crankPin in Hx, Hy. cbn [fst snd] in Hx, Hy.
  rewrite Hx, Hy. reflexivity.
Qed.

Lemma rockerPin_reported (theta2 : R) (p : MechanismParams) :
  rockerPin theta2 p
  = (r1 p + 0.85 * L4 p
            * cos (toRadians (normalizeDegreesR
                                (toDegrees (rockerAngle theta2 p)))),
     0.85 * L4 p
     * sin (toRadians (normalizeDegreesR (toDegrees (rockerAngle theta2 p))))).
Proof.
  rewrite Turns.cos_reported, Turns.sin_reported.
  unfold rockerPin, rockerPivot, rocker. cbn [fst snd].
  f_equal. ring.
Qed.

(** The coefficient [h42] is a number unless coupler and rocker are
    in line. *)
Lemma h42N_missing_iff (theta2 : R) (p : MechanismParams) :
  offPivot theta2 p ->
  (h42N theta2 p = None
   <-> rocker p * sin (couplerAngle theta2 p - rockerAngle theta2 p) = 0).
Proof.
  intros Hoff. unfold h42N.
  rewrite (Evaluator.couplerAngleN_fin _ _ Hoff),
    (Evaluator.rockerAngleN_fin _ _ Hoff).
  NumFacts.num_simpl. unfold JS.div.
  destruct (Req_dec_T
              (rocker p * sin (couplerAngle theta2 p - rockerAngle theta2 p))
              0) as [Hz | Hnz].
  - split; [intros _; exact Hz | reflexivity].
  - split; [discriminate | intros H; contradiction].
Qed.

(** In a valid state off the pivot the sine of [beta] vanishes at the
    two limits of the feasible window, and only there. *)
Lemma sin_beta_zero_iff (theta2 : R) (p : MechanismParams) :
  ~ infeasible theta2 p -> offPivot theta2 p ->
  (sin (beta theta2 p) = 0
   <-> pinDistance theta2 p = r3 p + rocker p
       \/ pinDistance theta2 p = Rabs (r3 p - rocker p)).
Proof.
  intros Hf Hoff.
  destruct (Closure.feasible_lengths theta2 p Hf Hoff) as (Ha & Hd & H3).
  destruct (Closure.feasible_window theta2 p Hf) as [H1 H2].
  pose proof (Closure.cosBeta_range theta2 p Hf Hoff) as Hc.
  rewrite (Closure.sin_beta theta2 p Hf Hoff).
  assert (HN : 2 * rocker p * pinDistance theta2 p * cosBeta theta2 p
               = rocker p ^ 2 + pinDistance theta2 p ^ 2 - r3 p ^ 2).
  { unfold cosBeta. field. nra. }
  set (a := rocker p) in *. set (d := pinDistance theta2 p) in *.
  set (c := cosBeta theta2 p) in *.
  assert (Habs : (0 <= r3 p - a /\ Rabs (r3 p - a) = r3 p - a)
                 \/ (r3 p - a < 0 /\ Rabs (r3 p - a) = a - r3 p)).
  { unfold Rabs. destruct (Rcase_abs (r3 p - a)); [right | left]; lra. }
  split.
  - intros Hs. apply sqrt_eq_0 in Hs; [| unfold Rsqr; nra].
    unfold Rsqr in Hs.
    assert (Hc1 : c = 1 \/ c = -1) by nra.
    destruct Hc1 as [Hc1 | Hc1]; rewrite Hc1 in HN.
    + assert (Hsq : (a - d - r3 p) * (a - d + r3 p) = 0) by nra.
      apply Rmult_integral in Hsq. destruct Hsq as [Hq | Hq].
      * right. destruct Habs as [[Hs0 ->] | [Hs0 ->]]; lra.
      * left. lra.
    + assert (Hsq : (a + d - r3 p) * (a + d + r3 p) = 0) by nra.
      apply Rmult_integral in Hsq. destruct Hsq as [Hq | Hq].
      * right. destruct Habs as [[Hs0 ->] | [Hs0 ->]]; lra.
      * lra.
  - intros Hlim.
    assert (Hc1 : c = 1 \/ c = -1).
    { assert (Hp : 2 * a * d <> 0) by nra.
      destruct Hlim as [Hl | Hl].
      - left. apply Rmult_eq_reg_l with (2 * a * d); [| exact Hp].
        rewrite HN, Hl. ring.
      - destruct Habs as [[_ Hab] | [_ Hab]]; rewrite Hab in Hl.
        + right. apply Rmult_eq_reg_l with (2 * a * d); [| exact Hp].
          rewrite HN, Hl. ring.
        + left. apply Rmult_eq_reg_l with (2 * a * d); [| exact Hp].
          rewrite HN, Hl. ring. }
    replace (1 - c²) with 0 by (unfold Rsqr; destruct Hc1 as [-> | ->]; ring).
    apply sqrt_0.
Qed.

End Pose.

(** ** What the evaluator reads *)

Module Frame.

Import Types Constants PRBModel Linkage Notions.

Lemma assemblyFails_links (theta2 : R) (p q : MechanismParams) :
  sameLinks p q -> assemblyFails theta2 p = assemblyFails theta2 q.
Proof.
  destruct p, q. unfold sameLinks. cbn. intros (-> & -> & -> & ->).
  reflexivity.
Qed.

Lemma rockerAngleN_links (theta2 : R) (p q : MechanismParams) :
  sameLinks p q -> rockerAngleN theta2 p = rockerAngleN theta2 q.
Proof.
  destruct p, q. unfold sameLinks. cbn. intros (-> & -> & -> & ->).
  reflexivity.
Qed.

Lemma couplerAngleN_links (theta2 : R) (p q : MechanismParams) :
  sameLinks p q -> couplerAngleN theta2 p = couplerAngleN theta2 q.
Proof.
  destruct p, q. unfold sameLinks. cbn. intros (-> & -> & -> & ->).
  reflexivity.
Qed.

Lemma h42N_links (theta2 : R) (p q : MechanismParams) :
  sameLinks p q -> h42N theta2 p = h42N theta2 q.
Proof.
  destruct p, q. unfold sameLinks. cbn. intros (-> & -> & -> & ->).
  reflexivity.
Qed.

Lemma deflectionN_links (theta2 : R) (p q : MechanismParams) :
  sameLinks p q -> theta40 p = theta40 q ->
  deflectionN theta2 p = deflectionN theta2 q.
Proof.
  destruct p, q. unfold sameLinks. cbn. intros (-> & -> & -> & ->) ->.
  reflexivity.
Qed.

End Frame.

(** ** Whole turns of the crank *)

Module Period.

Import Types Constants PRBModel Linkage.

Lemma toRadians_turn (theta2 : R) (k : Z) :
  toRadians (theta2 + 360 * IZR k) = toRadians theta2 + 2 * PI * IZR k.
Proof.
  replace (360 * IZR k) with (2 * 180 * IZR k) by ring.
  rewrite Normalize.toRadians_plus, Normalize.toRadians_turns. reflexivity.
Qed.

Lemma toDegrees_toRadians (x : R) : toDegrees (toRadians x) = x.
Proof. unfold toRadians, toDegrees. pose proof PI_RGT_0. field. lra. Qed.

Lemma toDegrees_turn (t : R) (k : Z) :
  toDegrees (t + 2 * PI * IZR k) = toDegrees t + 2 * 180 * IZR k.
Proof. unfold toDegrees. pose proof PI_RGT_0. field. lra. Qed.

Section Turn.

Variable theta2 : R.
Variable p : MechanismParams.
Variable k : Z.

Lemma crankPin_turn : crankPin (theta2 + 360 * IZR k) p = crankPin theta2 p.
Proof.
  unfold crankPin.
  rewrite toRadians_turn, Turns.cos_turns, Turns.sin_turns. reflexivity.
Qed.

Lemma pinDistance_turn :
  pinDistance (theta2 + 360 * IZR k) p = pinDistance theta2 p.
Proof. unfold pinDistance. rewrite crankPin_turn. reflexivity. Qed.

Lemma assemblyFails_turn :
  assemblyFails (theta2 + 360 * IZR k) p = assemblyFails theta2 p.
Proof. unfold assemblyFails. rewrite pinDistance_turn. reflexivity. Qed.

Lemma rockerAngleN_turn :
  rockerAngleN (theta2 + 360 * IZR k) p = rockerAngleN theta2 p.
Proof.
  unfold rockerAngleN, betaN, cosBetaN, phi.
  rewrite pinDistance_turn, crankPin_turn. reflexivity.
Qed.

Lemma couplerAngleN_turn :
  couplerAngleN (theta2 + 360 * IZR k) p = couplerAngleN theta2 p.
Proof.
  unfold couplerAngleN, rockerPinN.
  rewrite rockerAngleN_turn, crankPin_turn. reflexivity.
Qed.

Lemma deflectionN_turn :
  deflectionN (theta2 + 360 * IZR k) p = deflectionN theta2 p.
Proof. unfold deflectionN. rewrite rockerAngleN_turn. reflexivity. Qed.

Lemma h42N_turn : h42N (theta2 + 360 * IZR k) p = h42N theta2 p.
Proof.
  unfold h42N. rewrite couplerAngleN_turn, rockerAngleN_turn.
  destruct (couplerAngleN theta2 p) as [t3 |]; [| reflexivity].
  NumFacts.num_simpl.
  replace (t3 - toRadians (theta2 + 360 * IZR k))
    with (t3 - toRadians theta2 + 2 * PI * IZR (- k))
    by (rewrite toRadians_turn, opp_IZR; ring).
  rewrite Turns.sin_turns. reflexivity.
Qed.

End Turn.

End Period.

(** ** The reach of the crank pin *)

Module Reach.

Import Types Constants PRBModel Linkage.

(** Law of cosines for the triangle [A0 A B0]. *)
Lemma pinDistance_cos (theta2 : R) (p : MechanismParams) :
  pinDistance theta2 p ^ 2
  = r1 p ^ 2 + r2 p ^ 2 - 2 * r1 p * r2 p * cos (toRadians theta2).
Proof.
  rewrite Evaluator.pinDistance_sq.
  pose proof (sin2_cos2 (toRadians theta2)) as H. unfold Rsqr in H.
  set (c := cos (toRadians theta2)) in *.
  set (s := sin (toRadians theta2)) in *.
  replace ((r2 p * c - r1 p) ^ 2 + (r2 p * s) ^ 2)
    with (r2 p ^ 2 * (s * s + c * c) + r1 p ^ 2 - 2 * r1 p * r2 p * c) by ring.
  rewrite H. ring.
Qed.

Lemma sq_le (x y : R) : 0 <= x -> 0 <= y -> x ^ 2 <= y ^ 2 -> x <= y.
Proof.
  intros Hx Hy H.
  destruct (Rle_dec x y) as [Hle | Hnle]; [exact Hle |]. nra.
Qed.

(** The crank pin stays between [|r1 - r2|] and [r1 + r2] from the
    rocker pivot. *)
Lemma pinDistance_window (theta2 : R) (p : MechanismParams) :
  0 <= r1 p -> 0 <= r2 p ->
  Rabs (r1 p - r2 p) <= pinDistance theta2 p <= r1 p + r2 p.
Proof.
  intros H1 H2.
  pose proof (Evaluator.pinDistance_nonneg theta2 p) as Hd.
  pose proof (pinDistance_cos theta2 p) as Hsq.
  pose proof (COS_bound (toRadians theta2)) as [Hc1 Hc2].
  set (d := pinDistance theta2 p) in *.
  set (c := cos (toRadians theta2)) in *.
  assert (H12 : 0 <= r1 p * r2 p) by nra.
  split.
  - apply sq_le; [apply Rabs_pos | exact Hd |].
    rewrite <- Rsqr_pow2, <- Rsqr_abs, Rsqr_pow2. nra.
  - apply sq_le; [exact Hd | lra |]. nra.
Qed.

Lemma toRadians_180 : toRadians 180 = PI.
Proof. unfold toRadians. field. Qed.

(** Both ends of the window are reached: at crank angle 0 and at 180
    degrees. *)
Lemma pinDistance_0 (p : MechanismParams) :
  pinDistance 0 p = Rabs (r1 p - r2 p).
Proof.
  unfold pinDistance, distance, crankPin, rockerPivot. cbn [fst snd].
  rewrite Examples.toRadians_0, cos_0, sin_0.
  replace ((r2 p * 1 - r1 p) ^ 2 + (r2 p * 0 - 0) ^ 2)
    with ((r1 p - r2 p) ^ 2) by ring.
  rewrite <- Rsqr_pow2. apply sqrt_Rsqr_abs.
Qed.

Lemma pinDistance_180 (p : MechanismParams) :
  pinDistance 180 p = Rabs (r1 p + r2 p).
Proof.
  unfold pinDistance, distance, crankPin, rockerPivot. cbn [fst snd].
  rewrite toRadians_180, cos_PI, sin_PI.
  replace ((r2 p * -1 - r1 p) ^ 2 + (r2 p * 0 - 0) ^ 2)
    with ((r1 p + r2 p) ^ 2) by ring.
  rewrite <- Rsqr_pow2. apply sqrt_Rsqr_abs.
Qed.

End Reach.

(** ** The two normalizers against each other *)

Module Units.

Import Types Constants PRBModel Linkage.

Lemma toRadians_range (x : R) :
  -180 < x <= 180 -> - PI < toRadians x <= PI.
Proof.
  intros [H1 H2]. unfold toRadians. pose proof PI_RGT_0 as Hpi.
  split.
  - apply Rmult_lt_reg_r with 180; [lra |].
    unfold Rdiv. rewrite Rmult_assoc, Rinv_l by lra. nra.
  - apply Rmult_le_reg_r with 180; [lra |].
    unfold Rdiv. rewrite Rmult_assoc, Rinv_l by lra. nra.
Qed.

(** Normalizing in degrees and converting is normalizing the
    converted angle in radians. *)
Lemma wrap_toRadians (x : R) :
  normalizeRadiansR (toRadians x) = toRadians (normalizeDegreesR x).
Proof.
  pose proof PI_RGT_0 as Hpi.
  unfold normalizeRadiansR, normalizeDegreesR.
  destruct (Normalize.wrap_congr 180 x) as [k Hk].
  rewrite <- (Normalize.wrap_periodic PI Hpi (toRadians x) k).
  rewrite <- Normalize.toRadians_turns, <- Normalize.toRadians_plus, <- Hk.
  apply Normalize.wrap_fixed; [exact Hpi |].
  apply toRadians_range, (Normalize.wrap_range 180). lra.
Qed.

Lemma toRadians_minus (a c : R) :
  toRadians (a - c) = toRadians a - toRadians c.
Proof. unfold toRadians, Rdiv. ring. Qed.

(** The deflection, from the reported [theta4]. *)
Lemma deflection_reported (theta2 : R) (p : MechanismParams) :
  deflection theta2 p
  = toRadians (normalizeDegreesR
                 (normalizeDegreesR (toDegrees (rockerAngle theta2 p))
                  - theta40 p)).
Proof.
  destruct (Normalize.wrap_congr 180 (toDegrees (rockerAngle theta2 p)))
    as [k Hk].
  unfold normalizeDegreesR at 2. rewrite Hk.
  replace (toDegrees (rockerAngle theta2 p) + 2 * 180 * IZR k - theta40 p)
    with (toDegrees (rockerAngle theta2 p) - theta40 p + 2 * 180 * IZR k)
    by ring.
  unfold normalizeDegreesR.
  rewrite Normalize.wrap_periodic by lra.
  fold (normalizeDegreesR (toDegrees (rockerAngle theta2 p) - theta40 p)).
  rewrite <- wrap_toRadians, toRadians_minus, Normalize.toRadians_toDegrees.
  reflexivity.
Qed.

(** The mirror image of a normalized angle. *)
Lemma wrap_opp (half x : R) :
  0 < half ->
  wrap half (- x) = if Req_dec_T (wrap half x) half then half
                    else - wrap half x.
Proof.
  intros Hh.
  destruct (Normalize.wrap_congr half x) as [k Hk].
  pose proof (Normalize.wrap_range half Hh x) as Hr.
  destruct (Req_dec_T (wrap half x) half) as [He | Hne].
  - replace (- x) with (half + 2 * half * IZR (k - 1))
      by (rewrite minus_IZR; lra).
    rewrite Normalize.wrap_periodic by exact Hh.
    apply Normalize.wrap_fixed; lra.
  - replace (- x) with (- wrap half x + 2 * half * IZR k) by lra.
    rewrite Normalize.wrap_periodic by exact Hh.
    apply Normalize.wrap_fixed; lra.
Qed.

End Units.

(** ** Derivatives at a point

    The derivative rules of the library, for functions written out as
    abstractions, and what holds near a point. *)

Module Calculus.

Import Notions.

Lemma near_pt (x0 : R) (P : R -> Prop) : near x0 P -> P x0.
Proof.
  intros (r & Hr & H). apply H.
  replace (x0 - x0) with 0 by ring. rewrite Rabs_R0. exact Hr.
Qed.

Lemma near_imp (x0 : R) (P Q : R -> Prop) :
  (forall x, P x -> Q x) -> near x0 P -> near x0 Q.
Proof.
  intros HPQ (r & Hr & H). exists r. split; [exact Hr |].
  intros x Hx. apply HPQ, H, Hx.
Qed.

Lemma near_and (x0 : R) (P Q : R -> Prop) :
  near x0 P -> near x0 Q -> near x0 (fun x => P x /\ Q x).
Proof.
  intros (r1 & Hr1 & H1) (r2 & Hr2 & H2).
  exists (Rmin r1 r2). split; [apply Rmin_pos; assumption |].
  intros x Hx. split.
  - apply H1. eapply Rlt_le_trans; [exact Hx | apply Rmin_l].
  - apply H2. eapply Rlt_le_trans; [exact Hx | apply Rmin_r].
Qed.

Lemma near_all (x0 : R) (P : R -> Prop) : (forall x, P x) -> near x0 P.
Proof. intros H. exists 1. split; [lra |]. intros x _. apply H. Qed.

(** A function continuous at a point stays close to its value there. *)
Lemma continuity_near (f : R -> R) (x0 eps : R) :
  continuity_pt f x0 -> 0 < eps ->
  near x0 (fun x => Rabs (f x - f x0) < eps).
Proof.
  intros Hc Heps.
  destruct (Hc eps Heps) as (alp & Halp & H).
  exists alp. split; [exact Halp |].
  intros x Hx. destruct (Req_dec x0 x) as [<- | Hne].
  - replace (f x0 - f x0) with 0 by ring. rewrite Rabs_R0. exact Heps.
  - apply (H x). split; [| exact Hx].
    split; [exact I | exact Hne].
Qed.

Lemma derivable_continuous (f : R -> R) (x0 l : R) :
  derivable_pt_lim f x0 l -> continuity_pt f x0.
Proof. intros H. apply derivable_continuous_pt. exists l. exact H. Qed.

(** A function that stays above a bound at a point of continuity
    stays above it nearby. *)
Lemma near_gt (f : R -> R) (x0 c l : R) :
  derivable_pt_lim f x0 l -> c < f x0 -> near x0 (fun x => c < f x).
Proof.
  intros Hd Hc.
  apply (near_imp x0 (fun x => Rabs (f x - f x0) < f x0 - c)).
  - intros x Hx. apply Rabs_def2 in Hx. lra.
  - apply continuity_near; [apply (derivable_continuous f x0 l Hd) | lra].
Qed.

Lemma near_lt (f : R -> R) (x0 c l : R) :
  derivable_pt_lim f x0 l -> f x0 < c -> near x0 (fun x => f x < c).
Proof.
  intros Hd Hc.
  apply (near_imp x0 (fun x => Rabs (f x - f x0) < c - f x0)).
  - intros x Hx. apply Rabs_def2 in Hx. lra.
  - apply continuity_near; [apply (derivable_continuous f x0 l Hd) | lra].
Qed.

(** The derivative at a point depends on the function near the point
    only. *)
Lemma derivable_local (f g : R -> R) (x0 l : R) :
  near x0 (fun x => f x = g x) ->
  derivable_pt_lim f x0 l -> derivable_pt_lim g x0 l.
Proof.
  intros (r & Hr & Hfg) Hf eps Heps.
  destruct (Hf eps Heps) as [delta Hdelta].
  assert (Hm : 0 < Rmin delta r)
    by (apply Rmin_pos; [apply cond_pos | exact Hr]).
  exists (mkposreal _ Hm). intros h Hh0 Hh. cbn in Hh.
  rewrite <- (Hfg (x0 + h)), <- (Hfg x0).
  - apply Hdelta; [exact Hh0 |].
    eapply Rlt_le_trans; [exact Hh | apply Rmin_l].
  - replace (x0 - x0) with 0 by ring. rewrite Rabs_R0. exact Hr.
  - replace (x0 + h - x0) with h by ring.
    eapply Rlt_le_trans; [exact Hh | apply Rmin_r].
Qed.

Lemma derivable_value (f : R -> R) (x0 l l' : R) :
  l = l' -> derivable_pt_lim f x0 l -> derivable_pt_lim f x0 l'.
Proof. intros ->. auto. Qed.

Section Rules.

Variables f g : R -> R.
Variables x0 lf lg : R.
Hypothesis Hf : derivable_pt_lim f x0 lf.
Hypothesis Hg : derivable_pt_lim g x0 lg.

Lemma D_plus : derivable_pt_lim (fun x => f x + g x) x0 (lf + lg).
Proof. exact (derivable_pt_lim_plus f g x0 lf lg Hf Hg). Qed.

Lemma D_minus : derivable_pt_lim (fun x => f x - g x) x0 (lf - lg).
Proof. exact (derivable_pt_lim_minus f g x0 lf lg Hf Hg). Qed.

Lemma D_mult :
  derivable_pt_lim (fun x => f x * g x) x0 (lf * g x0 + f x0 * lg).
Proof. exact (derivable_pt_lim_mult f g x0 lf lg Hf Hg). Qed.

Lemma D_div :
  g x0 <> 0 ->
  derivable_pt_lim (fun x => f x / g x) x0
    ((lf * g x0 - lg * f x0) / (g x0)²).
Proof. intros H0. exact (derivable_pt_lim_div f g x0 lf lg Hf Hg H0). Qed.

Lemma D_scal (c : R) : derivable_pt_lim (fun x => c * f x) x0 (c * lf).
Proof. exact (derivable_pt_lim_scal f c x0 lf Hf). Qed.

Lemma D_comp (k : R -> R) (lk : R) :
  derivable_pt_lim k (f x0) lk ->
  derivable_pt_lim (fun x => k (f x)) x0 (lk * lf).
Proof. intros Hk. exact (derivable_pt_lim_comp f k x0 lf lk Hf Hk). Qed.

End Rules.

Lemma D_const (c x0 : R) : derivable_pt_lim (fun _ => c) x0 0.
Proof. exact (derivable_pt_lim_const c x0). Qed.

Lemma D_id (x0 : R) : derivable_pt_lim (fun x => x) x0 1.
Proof. exact (derivable_pt_lim_id x0). Qed.

Lemma D_sqr (f : R -> R) (x0 lf : R) :
  derivable_pt_lim f x0 lf ->
  derivable_pt_lim (fun x => f x ^ 2) x0 (2 * f x0 * lf).
Proof.
  intros Hf.
  apply (derivable_local (fun x => f x * f x)).
  - apply near_all. intros x. ring.
  - apply (derivable_value _ _ (lf * f x0 + f x0 * lf)); [ring |].
    apply D_mult; assumption.
Qed.

Lemma D_cos (f : R -> R) (x0 lf : R) :
  derivable_pt_lim f x0 lf ->
  derivable_pt_lim (fun x => cos (f x)) x0 (- sin (f x0) * lf).
Proof.
  intros Hf. exact (D_comp f x0 lf Hf cos _ (derivable_pt_lim_cos (f x0))).
Qed.

Lemma D_sin (f : R -> R) (x0 lf : R) :
  derivable_pt_lim f x0 lf ->
  derivable_pt_lim (fun x => sin (f x)) x0 (cos (f x0) * lf).
Proof.
  intros Hf. exact (D_comp f x0 lf Hf sin _ (derivable_pt_lim_sin (f x0))).
Qed.

(** *** Existence of derivatives *)

Lemma E_const (c x0 : R) : derivable_at (fun _ => c) x0.
Proof. exists 0. apply D_const. Qed.

Lemma E_id (x0 : R) : derivable_at (fun x => x) x0.
Proof. exists 1. apply D_id. Qed.

Lemma E_plus (f g : R -> R) (x0 : R) :
  derivable_at f x0 -> derivable_at g x0 ->
  derivable_at (fun x => f x + g x) x0.
Proof. intros [lf Hf] [lg Hg]. eexists. exact (D_plus f g x0 lf lg Hf Hg). Qed.

Lemma E_minus (f g : R -> R) (x0 : R) :
  derivable_at f x0 -> derivable_at g x0 ->
  derivable_at (fun x => f x - g x) x0.
Proof. intros [lf Hf] [lg Hg]. eexists. exact (D_minus f g x0 lf lg Hf Hg). Qed.

Lemma E_mult (f g : R -> R) (x0 : R) :
  derivable_at f x0 -> derivable_at g x0 ->
  derivable_at (fun x => f x * g x) x0.
Proof. intros [lf Hf] [lg Hg]. eexists. exact (D_mult f g x0 lf lg Hf Hg). Qed.

Lemma E_div (f g : R -> R) (x0 : R) :
  derivable_at f x0 -> derivable_at g x0 -> g x0 <> 0 ->
  derivable_at (fun x => f x / g x) x0.
Proof.
  intros [lf Hf] [lg Hg] H0. eexists. exact (D_div f g x0 lf lg Hf Hg H0).
Qed.

Lemma E_sqr (f : R -> R) (x0 : R) :
  derivable_at f x0 -> derivable_at (fun x => f x ^ 2) x0.
Proof. intros [lf Hf]. eexists. exact (D_sqr f x0 lf Hf). Qed.

Lemma E_Rsqr (f : R -> R) (x0 : R) :
  derivable_at f x0 -> derivable_at (fun x => (f x)²) x0.
Proof. intros [lf Hf]. eexists. exact (D_mult f f x0 lf lf Hf Hf). Qed.

Lemma E_cos (f : R -> R) (x0 : R) :
  derivable_at f x0 -> derivable_at (fun x => cos (f x)) x0.
Proof. intros [lf Hf]. eexists. exact (D_cos f x0 lf Hf). Qed.

Lemma E_sin (f : R -> R) (x0 : R) :
  derivable_at f x0 -> derivable_at (fun x => sin (f x)) x0.
Proof. intros [lf Hf]. eexists. exact (D_sin f x0 lf Hf). Qed.

Lemma E_sqrt (f : R -> R) (x0 : R) :
  derivable_at f x0 -> 0 < f x0 -> derivable_at (fun x => sqrt (f x)) x0.
Proof.
  intros [lf Hf] H0. eexists.
  exact (D_comp f x0 lf Hf sqrt _ (derivable_pt_lim_sqrt (f x0) H0)).
Qed.

Lemma E_local (f g : R -> R) (x0 : R) :
  near x0 (fun x => f x = g x) -> derivable_at f x0 -> derivable_at g x0.
Proof. intros Hn [l Hl]. exists l. exact (derivable_local f g x0 l Hn Hl). Qed.

(** What holds near the value of a function holds, near the point,
    at the values of the function. *)
Lemma near_comp (f : R -> R) (x0 l : R) (P : R -> Prop) :
  derivable_pt_lim f x0 l -> near (f x0) P -> near x0 (fun x => P (f x)).
Proof.
  intros Hf (r & Hr & HP).
  apply (near_imp x0 (fun x => Rabs (f x - f x0) < r)).
  - intros x Hx. apply HP, Hx.
  - apply continuity_near; [apply (derivable_continuous f x0 l Hf) | exact Hr].
Qed.

(** Away from its seam a normalization is, near a point, a shift by
    a constant. *)
Lemma wrap_local (half u0 : R) :
  0 < half -> Linkage.wrap half u0 <> half ->
  near u0 (fun u => Linkage.wrap half u = u + (Linkage.wrap half u0 - u0)).
Proof.
  intros Hh Hseam.
  pose proof (Normalize.wrap_range half Hh u0) as Hr.
  destruct (Normalize.wrap_congr half u0) as [k Hk].
  set (w0 := Linkage.wrap half u0) in *.
  exists (Rmin (half - w0) (w0 + half)).
  split; [apply Rmin_pos; lra |].
  intros u Hu.
  assert (Hu1 : Rabs (u - u0) < half - w0)
    by (eapply Rlt_le_trans; [exact Hu | apply Rmin_l]).
  assert (Hu2 : Rabs (u - u0) < w0 + half)
    by (eapply Rlt_le_trans; [exact Hu | apply Rmin_r]).
  apply Rabs_def2 in Hu1. apply Rabs_def2 in Hu2.
  replace (u + (w0 - u0)) with (u + 2 * half * IZR k) by lra.
  rewrite <- (Normalize.wrap_periodic half Hh u k).
  apply Normalize.wrap_fixed; [exact Hh | lra].
Qed.

(** Two angles with the same cosine and the same sine differ by whole
    turns. *)
Lemma same_direction (a b : R) :
  cos a = cos b -> sin a = sin b -> exists k : Z, a = b + 2 * PI * IZR k.
Proof.
  intros Hc Hs.
  assert (H1 : cos (a - b) = 1).
  { rewrite cos_minus, Hc, Hs.
    pose proof (sin2_cos2 b) as H. unfold Rsqr in H. lra. }
  assert (H0 : sin ((a - b) / 2) = 0).
  { replace (a - b) with (2 * ((a - b) / 2)) in H1 by field.
    rewrite cos_2a_sin in H1.
    assert (Hsq : sin ((a - b) / 2) * sin ((a - b) / 2) = 0) by lra.
    apply Rmult_integral in Hsq. tauto. }
  apply sin_eq_0_0 in H0. destruct H0 as [k Hk].
  exists k. lra.
Qed.

(** Lifting a moving unit vector to an angle: a differentiable angle
    that starts at [T0] and follows [(C, S)] near [x0]. *)
Lemma angle_lift (C S : R -> R) (x0 T0 lC lS : R) :
  derivable_pt_lim C x0 lC -> derivable_pt_lim S x0 lS ->
  near x0 (fun x => C x ^ 2 + S x ^ 2 = 1) ->
  cos T0 = C x0 -> sin T0 = S x0 ->
  exists T : R -> R,
    T x0 = T0 /\
    derivable_pt_lim T x0 (lS * C x0 - lC * S x0) /\
    near x0 (fun x => cos (T x) = C x /\ sin (T x) = S x).
Proof.
  intros HC HS Hunit Hc0 Hs0.
  set (w := fun x => S x * cos T0 - C x * sin T0).
  set (z := fun x => C x * cos T0 + S x * sin T0).
  pose proof (sin2_cos2 T0) as H1. unfold Rsqr in H1.
  assert (Hw0 : w x0 = 0) by (unfold w; rewrite Hc0, Hs0; ring).
  assert (Hz0 : z x0 = 1) by (unfold z; rewrite <- Hc0, <- Hs0; lra).
  assert (Dw : derivable_pt_lim w x0 (lS * C x0 - lC * S x0)).
  { unfold w.
    apply (derivable_value _ _ ((lS * cos T0 + S x0 * 0)
                                - (lC * sin T0 + C x0 * 0)));
      [rewrite Hc0, Hs0; ring |].
    exact (D_minus _ _ x0 _ _
             (D_mult S (fun _ => cos T0) x0 lS 0 HS (D_const _ _))
             (D_mult C (fun _ => sin T0) x0 lC 0 HC (D_const _ _))). }
  assert (Dz : derivable_pt_lim z x0 ((lC * cos T0 + C x0 * 0)
                                      + (lS * sin T0 + S x0 * 0))).
  { unfold z.
    exact (D_plus _ _ x0 _ _
             (D_mult C (fun _ => cos T0) x0 lC 0 HC (D_const _ _))
             (D_mult S (fun _ => sin T0) x0 lS 0 HS (D_const _ _))). }
  exists (fun x => T0 + asin (w x)).
  split; [cbn; rewrite Hw0, asin_0; ring |]. split.
  - assert (H01 : -1 < 0 < 1) by lra.
    assert (Hla : derivable_pt_lim asin 0 1).
    { apply (derive_pt_eq_1 asin 0 1 (derivable_pt_asin 0 H01)).
      rewrite derive_pt_asin. unfold Rsqr.
      replace (1 - 0 * 0) with 1 by ring. rewrite sqrt_1. field. }
    rewrite <- Hw0 in Hla.
    apply (derivable_value _ _ (0 + 1 * (lS * C x0 - lC * S x0))); [ring |].
    exact (D_plus (fun _ => T0) (fun x => asin (w x)) x0 0 _
             (D_const _ _) (D_comp w x0 _ Dw asin 1 Hla)).
  - pose proof (near_gt z x0 0 _ Dz ltac:(lra)) as Hzpos.
    pose proof (near_and _ _ _ Hunit Hzpos) as Hn.
    revert Hn. apply near_imp. intros x [Hu Hz].
    assert (Hwz : w x ^ 2 + z x ^ 2 = 1).
    { unfold w, z.
      replace ((S x * cos T0 - C x * sin T0) ^ 2
               + (C x * cos T0 + S x * sin T0) ^ 2)
        with ((C x ^ 2 + S x ^ 2) * (sin T0 * sin T0 + cos T0 * cos T0))
        by ring.
      rewrite Hu, H1. ring. }
    assert (Hw : -1 <= w x <= 1) by (split; nra).
    assert (Hcz : cos (asin (w x)) = z x).
    { rewrite cos_asin by exact Hw.
      replace (1 - (w x)²) with ((z x)²) by (unfold Rsqr; lra).
      apply sqrt_Rsqr. lra. }
    rewrite cos_plus, sin_plus, Hcz, (sin_asin _ Hw).
    unfold w, z. split.
    + replace (cos T0 * (C x * cos T0 + S x * sin T0)
               - sin T0 * (S x * cos T0 - C x * sin T0))
        with (C x * (sin T0 * sin T0 + cos T0 * cos T0)) by ring.
      rewrite H1. ring.
    + replace (sin T0 * (C x * cos T0 + S x * sin T0)
               + cos T0 * (S x * cos T0 - C x * sin T0))
        with (S x * (sin T0 * sin T0 + cos T0 * cos T0)) by ring.
      rewrite H1. ring.
Qed.

End Calculus.

(** ** The linkage in motion

    The rocker angle as a function of the crank angle, strictly inside
    the feasible window. *)

Module Motion.

Import Types Constants PRBModel Linkage Notions.

(** Strictly between the limits of the feasible window. *)
Lemma strict_feasible (theta2 : R) (p : MechanismParams) :
  0 < L4 p ->
  Rabs (r3 p - rocker p) < pinDistance theta2 p < r3 p + rocker p ->
  ~ infeasible theta2 p /\ offPivot theta2 p.
Proof.
  intros HL [Hlo Hhi]. split.
  - unfold infeasible. lra.
  - apply Evaluator.offPivot_of_distance; [exact HL |].
    pose proof (Rabs_pos (r3 p - rocker p)). lra.
Qed.

Lemma cosBeta_strict (theta2 : R) (p : MechanismParams) :
  0 < L4 p ->
  Rabs (r3 p - rocker p) < pinDistance theta2 p < r3 p + rocker p ->
  -1 < cosBeta theta2 p < 1.
Proof.
  intros HL Hs.
  destruct (strict_feasible theta2 p HL Hs) as [Hf Hoff].
  pose proof (Closure.cosBeta_range theta2 p Hf Hoff) as Hr.
  pose proof (Pose.sin_beta_zero_iff theta2 p Hf Hoff) as Hz.
  rewrite (Closure.sin_beta theta2 p Hf Hoff) in Hz.
  assert (Hne : sqrt (1 - (cosBeta theta2 p)²) <> 0).
  { intros H0. apply Hz in H0. lra. }
  split.
  - destruct (proj1 Hr) as [Hlt | Heq]; [exact Hlt |].
    exfalso. apply Hne. rewrite <- Heq. unfold Rsqr.
    replace (1 - -1 * -1) with 0 by ring. apply sqrt_0.
  - destruct (proj2 Hr) as [Hlt | Heq]; [exact Hlt |].
    exfalso. apply Hne. rewrite Heq. unfold Rsqr.
    replace (1 - 1 * 1) with 0 by ring. apply sqrt_0.
Qed.

Lemma pinDistance_rad (x : R) (p : MechanismParams) :
  pinDistance (toDegrees x) p
  = sqrt ((r2 p * cos x - r1 p) ^ 2 + (r2 p * sin x - 0) ^ 2).
Proof.
  unfold pinDistance, distance, crankPin, rockerPivot. cbn [fst snd].
  rewrite Normalize.toRadians_toDegrees. reflexivity.
Qed.

(** The direction of the rocker, from the law of cosines. *)
Lemma rocker_direction (x : R) (p : MechanismParams) :
  0 < L4 p ->
  Rabs (r3 p - rocker p) < pinDistance (toDegrees x) p < r3 p + rocker p ->
  cos (rockerAngle (toDegrees x) p)
  = ((r2 p * cos x - r1 p) * cosBeta (toDegrees x) p
     + (r2 p * sin x - 0) * sqrt (1 - (cosBeta (toDegrees x) p)²))
    / pinDistance (toDegrees x) p /\
  sin (rockerAngle (toDegrees x) p)
  = ((r2 p * sin x - 0) * cosBeta (toDegrees x) p
     - (r2 p * cos x - r1 p) * sqrt (1 - (cosBeta (toDegrees x) p)²))
    / pinDistance (toDegrees x) p.
Proof.
  intros HL Hs.
  destruct (strict_feasible _ p HL Hs) as [Hf Hoff].
  destruct (Closure.feasible_lengths _ _ Hf Hoff) as (_ & Hd & _).
  destruct (Closure.crank_polar _ _ Hf Hoff) as [Hx Hy].
  unfold crankPin, rockerPivot in Hx, Hy. cbn [fst snd] in Hx, Hy.
  rewrite Normalize.toRadians_toDegrees in Hx, Hy.
  unfold rockerAngle.
  rewrite cos_minus, sin_minus, (Closure.cos_beta _ _ Hf Hoff),
    (Closure.sin_beta _ _ Hf Hoff), Hx, Hy.
  split; field; lra.
Qed.

Section Moving.

Variable p : MechanismParams.
Variable theta0 : R.
Hypothesis H3 : 0 < r3 p.
Hypothesis HL : 0 < L4 p.
Hypothesis Hstrict :
  Rabs (r3 p - rocker p) < pinDistance theta0 p < r3 p + rocker p.

Lemma E_distance :
  derivable_at (fun x => pinDistance (toDegrees x) p) (toRadians theta0).
Proof.
  apply (Calculus.E_local
           (fun x => sqrt ((r2 p * cos x - r1 p) ^ 2
                           + (r2 p * sin x - 0) ^ 2))).
  { apply Calculus.near_all. intros x. symmetry. apply pinDistance_rad. }
  apply (Calculus.E_sqrt
           (fun x => (r2 p * cos x - r1 p) ^ 2 + (r2 p * sin x - 0) ^ 2)).
  - apply (Calculus.E_plus (fun x => (r2 p * cos x - r1 p) ^ 2)
                           (fun x => (r2 p * sin x - 0) ^ 2)).
    + apply (Calculus.E_sqr (fun x => r2 p * cos x - r1 p)).
      apply (Calculus.E_minus (fun x => r2 p * cos x) (fun _ => r1 p)).
      * apply (Calculus.E_mult (fun _ => r2 p) (fun x => cos x)).
        -- apply Calculus.E_const.
        -- apply (Calculus.E_cos (fun x => x)), Calculus.E_id.
      * apply Calculus.E_const.
    + apply (Calculus.E_sqr (fun x => r2 p * sin x - 0)).
      apply (Calculus.E_minus (fun x => r2 p * sin x) (fun _ => 0)).
      * apply (Calculus.E_mult (fun _ => r2 p) (fun x => sin x)).
        -- apply Calculus.E_const.
        -- apply (Calculus.E_sin (fun x => x)), Calculus.E_id.
      * apply Calculus.E_const.
  - pose proof (pinDistance_rad (toRadians theta0) p) as Hd.
    rewrite Period.toDegrees_toRadians in Hd.
    pose proof (Rabs_pos (r3 p - rocker p)) as Ha.
    set (q := (r2 p * cos (toRadians theta0) - r1 p) ^ 2
              + (r2 p * sin (toRadians theta0) - 0) ^ 2) in *.
    destruct (Rlt_dec 0 q) as [Hq | Hq]; [exact Hq |].
    exfalso. rewrite sqrt_neg_0 in Hd by lra. lra.
Qed.

Lemma near_strict :
  near (toRadians theta0)
    (fun x => Rabs (r3 p - rocker p) < pinDistance (toDegrees x) p
              < r3 p + rocker p).
Proof.
  destruct E_distance as [ld Hld].
  apply Calculus.near_and.
  - apply (Calculus.near_gt _ _ _ ld Hld).
    rewrite Period.toDegrees_toRadians. apply Hstrict.
  - apply (Calculus.near_lt _ _ _ ld Hld).
    rewrite Period.toDegrees_toRadians. apply Hstrict.
Qed.

Lemma E_cosBeta :
  derivable_at (fun x => cosBeta (toDegrees x) p) (toRadians theta0).
Proof.
  destruct (strict_feasible theta0 p HL Hstrict) as [_ Hoff].
  unfold cosBeta.
  apply (Calculus.E_div
           (fun x => rocker p ^ 2 + pinDistance (toDegrees x) p ^ 2 - r3 p ^ 2)
           (fun x => 2 * rocker p * pinDistance (toDegrees x) p)).
  - apply (Calculus.E_minus
             (fun x => rocker p ^ 2 + pinDistance (toDegrees x) p ^ 2)
             (fun _ => r3 p ^ 2)); [| apply Calculus.E_const].
    apply (Calculus.E_plus (fun _ => rocker p ^ 2)
                           (fun x => pinDistance (toDegrees x) p ^ 2));
      [apply Calculus.E_const |].
    apply (Calculus.E_sqr (fun x => pinDistance (toDegrees x) p)), E_distance.
  - apply (Calculus.E_mult (fun _ => 2 * rocker p)
                           (fun x => pinDistance (toDegrees x) p));
      [apply Calculus.E_const | apply E_distance].
  - rewrite Period.toDegrees_toRadians. exact Hoff.
Qed.

Lemma E_sinBeta :
  derivable_at (fun x => sqrt (1 - (cosBeta (toDegrees x) p)²))
               (toRadians theta0).
Proof.
  apply (Calculus.E_sqrt (fun x => 1 - (cosBeta (toDegrees x) p)²)).
  - apply (Calculus.E_minus (fun _ => 1)
                            (fun x => (cosBeta (toDegrees x) p)²));
      [apply Calculus.E_const |].
    apply (Calculus.E_Rsqr (fun x => cosBeta (toDegrees x) p)), E_cosBeta.
  - rewrite Period.toDegrees_toRadians.
    pose proof (cosBeta_strict theta0 p HL Hstrict) as Hc.
    unfold Rsqr. nra.
Qed.

Lemma E_crank_x :
  derivable_at (fun x => r2 p * cos x - r1 p) (toRadians theta0).
Proof.
  apply (Calculus.E_minus (fun x => r2 p * cos x) (fun _ => r1 p));
    [| apply Calculus.E_const].
  apply (Calculus.E_mult (fun _ => r2 p) (fun x => cos x));
    [apply Calculus.E_const |].
  apply (Calculus.E_cos (fun x => x)), Calculus.E_id.
Qed.

Lemma E_crank_y :
  derivable_at (fun x => r2 p * sin x - 0) (toRadians theta0).
Proof.
  apply (Calculus.E_minus (fun x => r2 p * sin x) (fun _ => 0));
    [| apply Calculus.E_const].
  apply (Calculus.E_mult (fun _ => r2 p) (fun x => sin x));
    [apply Calculus.E_const |].
  apply (Calculus.E_sin (fun x => x)), Calculus.E_id.
Qed.

Lemma distance_nonzero : pinDistance (toDegrees (toRadians theta0)) p <> 0.
Proof.
  rewrite Period.toDegrees_toRadians.
  pose proof (Rabs_pos (r3 p - rocker p)). lra.
Qed.

Lemma E_direction :
  derivable_at (fun x => cos (rockerAngle (toDegrees x) p)) (toRadians theta0)
  /\
  derivable_at (fun x => sin (rockerAngle (toDegrees x) p)) (toRadians theta0).
Proof.
  split.
  - apply (Calculus.E_local
             (fun x =>
                ((r2 p * cos x - r1 p) * cosBeta (toDegrees x) p
                 + (r2 p * sin x - 0)
                   * sqrt (1 - (cosBeta (toDegrees x) p)²))
                / pinDistance (toDegrees x) p)).
    { generalize near_strict. apply Calculus.near_imp. intros x Hs.
      symmetry. apply (rocker_direction x p HL Hs). }
    apply (Calculus.E_div
             (fun x => (r2 p * cos x - r1 p) * cosBeta (toDegrees x) p
                       + (r2 p * sin x - 0)
                         * sqrt (1 - (cosBeta (toDegrees x) p)²))
             (fun x => pinDistance (toDegrees x) p));
      [| apply E_distance | apply distance_nonzero].
    apply (Calculus.E_plus
             (fun x => (r2 p * cos x - r1 p) * cosBeta (toDegrees x) p)
             (fun x => (r2 p * sin x - 0)
                       * sqrt (1 - (cosBeta (toDegrees x) p)²))).
    + apply (Calculus.E_mult (fun x => r2 p * cos x - r1 p)
                             (fun x => cosBeta (toDegrees x) p));
        [apply E_crank_x | apply E_cosBeta].
    + apply (Calculus.E_mult (fun x => r2 p * sin x - 0)
                             (fun x => sqrt (1 - (cosBeta (toDegrees x) p)²)));
        [apply E_crank_y | apply E_sinBeta].
  - apply (Calculus.E_local
             (fun x =>
                ((r2 p * sin x - 0) * cosBeta (toDegrees x) p
                 - (r2 p * cos x - r1 p)
                   * sqrt (1 - (cosBeta (toDegrees x) p)²))
                / pinDistance (toDegrees x) p)).
    { generalize near_strict. apply Calculus.near_imp. intros x Hs.
      symmetry. apply (rocker_direction x p HL Hs). }
    apply (Calculus.E_div
             (fun x => (r2 p * sin x - 0) * cosBeta (toDegrees x) p
                       - (r2 p * cos x - r1 p)
                         * sqrt (1 - (cosBeta (toDegrees x) p)²))
             (fun x => pinDistance (toDegrees x) p));
      [| apply E_distance | apply distance_nonzero].
    apply (Calculus.E_minus
             (fun x => (r2 p * sin x - 0) * cosBeta (toDegrees x) p)
             (fun x => (r2 p * cos x - r1 p)
                       * sqrt (1 - (cosBeta (toDegrees x) p)²))).
    + apply (Calculus.E_mult (fun x => r2 p * sin x - 0)
                             (fun x => cosBeta (toDegrees x) p));
        [apply E_crank_y | apply E_cosBeta].
    + apply (Calculus.E_mult (fun x => r2 p * cos x - r1 p)
                             (fun x => sqrt (1 - (cosBeta (toDegrees x) p)²)));
        [apply E_crank_x | apply E_sinBeta].
Qed.

(** A differentiable angle that follows the rocker near the crank
    angle [theta0]. *)
Lemma rocker_lift :
  exists (T : R -> R) (l : R),
    T (toRadians theta0) = rockerAngle theta0 p /\
    derivable_pt_lim T (toRadians theta0) l /\
    near (toRadians theta0)
      (fun x => cos (T x) = cos (rockerAngle (toDegrees x) p) /\
                sin (T x) = sin (rockerAngle (toDegrees x) p)).
Proof.
  destruct E_direction as [[lC HC] [lS HS]].
  destruct (Calculus.angle_lift
              (fun x => cos (rockerAngle (toDegrees x) p))
              (fun x => sin (rockerAngle (toDegrees x) p))
              (toRadians theta0) (rockerAngle theta0 p) lC lS HC HS)
    as (T & HT0 & HTd & HTn).
  - apply Calculus.near_all. intros x.
    pose proof (sin2_cos2 (rockerAngle (toDegrees x) p)) as H.
    unfold Rsqr in H. lra.
  - cbv beta. rewrite Period.toDegrees_toRadians. reflexivity.
  - cbv beta. rewrite Period.toDegrees_toRadians. reflexivity.
  - exists T. eexists. split; [exact HT0 |]. split; [exact HTd | exact HTn].
Qed.

(** The rate of such an angle, by differentiating the closed loop. *)
Lemma lift_rate (T : R -> R) (l : R) :
  T (toRadians theta0) = rockerAngle theta0 p ->
  derivable_pt_lim T (toRadians theta0) l ->
  near (toRadians theta0)
    (fun x => cos (T x) = cos (rockerAngle (toDegrees x) p) /\
              sin (T x) = sin (rockerAngle (toDegrees x) p)) ->
  l * (rocker p * sin (couplerAngle theta0 p - rockerAngle theta0 p))
  = r2 p * sin (couplerAngle theta0 p - toRadians theta0).
Proof.
  intros HT0 HTd HTn.
  destruct (strict_feasible theta0 p HL Hstrict) as [Hf Hoff].
  set (x0 := toRadians theta0) in *.
  set (G := fun x => (r1 p + rocker p * cos (T x) - r2 p * cos x) ^ 2
                     + (rocker p * sin (T x) - r2 p * sin x) ^ 2).
  (* the loop stays closed *)
  assert (Hconst : near x0 (fun x => (fun _ => r3 p ^ 2) x = G x)).
  { generalize (Calculus.near_and _ _ _ near_strict HTn).
    apply Calculus.near_imp. intros x [Hs [Hc Hsn]].
    destruct (strict_feasible _ p HL Hs) as [Hfx Hoffx].
    pose proof (Closure.coupler_sq _ _ Hfx Hoffx) as Hsq.
    unfold rockerPin, crankPin, rockerPivot in Hsq. cbn [fst snd] in Hsq.
    rewrite Normalize.toRadians_toDegrees in Hsq.
    unfold G. rewrite Hc, Hsn, <- Hsq. ring. }
  assert (HG0 : derivable_pt_lim G x0 0).
  { apply (Calculus.derivable_local _ _ _ _ Hconst), Calculus.D_const. }
  (* the derivative by the rules *)
  pose proof (Calculus.D_id x0) as Did.
  pose proof (Calculus.D_cos T x0 l HTd) as DcT.
  pose proof (Calculus.D_sin T x0 l HTd) as DsT.
  pose proof (Calculus.D_cos (fun x => x) x0 1 Did) as Dc.
  pose proof (Calculus.D_sin (fun x => x) x0 1 Did) as Ds.
  pose proof (Calculus.D_minus _ _ x0 _ _
                (Calculus.D_plus _ _ x0 _ _ (Calculus.D_const (r1 p) x0)
                   (Calculus.D_scal _ x0 _ DcT (rocker p)))
                (Calculus.D_scal _ x0 _ Dc (r2 p))) as DP.
  pose proof (Calculus.D_minus _ _ x0 _ _
                (Calculus.D_scal _ x0 _ DsT (rocker p))
                (Calculus.D_scal _ x0 _ Ds (r2 p))) as DQ.
  pose proof (Calculus.D_plus _ _ x0 _ _
                (Calculus.D_sqr _ x0 _ DP) (Calculus.D_sqr _ x0 _ DQ)) as DG.
  cbv beta in DG.
  pose proof (uniqueness_limite G x0 _ _ DG HG0) as Heq.
  (* the coupler at theta0 *)
  destruct (Closure.coupler_polar _ _ Hf Hoff) as [Hu Hv].
  unfold rockerPin, crankPin, rockerPivot in Hu, Hv. cbn [fst snd] in Hu, Hv.
  fold x0 in Hu, Hv.
  rewrite HT0 in Heq.
  rewrite !sin_minus.
  set (c3 := cos (couplerAngle theta0 p)) in *.
  set (s3 := sin (couplerAngle theta0 p)) in *.
  set (c4 := cos (rockerAngle theta0 p)) in *.
  set (s4 := sin (rockerAngle theta0 p)) in *.
  set (c2 := cos x0) in *. set (s2 := sin x0) in *.
  set (a := rocker p) in *.
  replace (r1 p + a * c4 - r2 p * c2) with (r3 p * c3) in Heq by lra.
  replace (a * s4 - r2 p * s2) with (r3 p * s3) in Heq by lra.
  apply Rmult_eq_reg_l with (r3 p); [| lra].
  lra.
Qed.

(** Coupler and rocker are not in line. *)
Lemma transmission_nonzero :
  rocker p * sin (couplerAngle theta0 p - rockerAngle theta0 p) <> 0.
Proof.
  destruct (strict_feasible theta0 p HL Hstrict) as [Hf Hoff].
  destruct (Closure.feasible_lengths _ _ Hf Hoff) as (Ha & Hd & _).
  pose proof (Closure.transmission_sine _ _ Hf Hoff) as Ht.
  pose proof (Pose.sin_beta_zero_iff _ _ Hf Hoff) as Hb.
  intros Hz. apply Rmult_integral in Hz. destruct Hz as [Hz | Hz]; [lra |].
  rewrite Hz, Rmult_0_r in Ht.
  assert (Hsb : sin (beta theta0 p) = 0) by nra.
  apply Hb in Hsb. lra.
Qed.

(** The coefficient [h42] of the source is the rate of the lifted
    angle. *)
Lemma h42N_rate (T : R -> R) (l : R) :
  T (toRadians theta0) = rockerAngle theta0 p ->
  derivable_pt_lim T (toRadians theta0) l ->
  near (toRadians theta0)
    (fun x => cos (T x) = cos (rockerAngle (toDegrees x) p) /\
              sin (T x) = sin (rockerAngle (toDegrees x) p)) ->
  h42N theta0 p = JS.fin l /\
  l = r2 p * sin (couplerAngle theta0 p - toRadians theta0)
      / (rocker p * sin (couplerAngle theta0 p - rockerAngle theta0 p)).
Proof.
  intros HT0 HTd HTn.
  destruct (strict_feasible theta0 p HL Hstrict) as [Hf Hoff].
  pose proof (lift_rate T l HT0 HTd HTn) as Hl.
  pose proof transmission_nonzero as Hnz.
  assert (Hval : l = r2 p * sin (couplerAngle theta0 p - toRadians theta0)
                     / (rocker p
                        * sin (couplerAngle theta0 p - rockerAngle theta0 p))).
  { rewrite <- Hl. field.
    split; intros H0; apply Hnz; rewrite H0; ring. }
  split; [| exact Hval].
  unfold h42N.
  rewrite (Evaluator.couplerAngleN_fin _ _ Hoff),
    (Evaluator.rockerAngleN_fin _ _ Hoff).
  NumFacts.num_simpl. rewrite NumFacts.div_fin by exact Hnz.
  rewrite Hval. reflexivity.
Qed.

(** Near [theta0] the rocker angle is the lifted angle up to whole
    turns. *)
Lemma rocker_follows (T : R -> R) :
  near (toRadians theta0)
    (fun x => cos (T x) = cos (rockerAngle (toDegrees x) p) /\
              sin (T x) = sin (rockerAngle (toDegrees x) p)) ->
  near (toRadians theta0)
    (fun x => exists k : Z,
                rockerAngle (toDegrees x) p = T x + 2 * PI * IZR k).
Proof.
  apply Calculus.near_imp. intros x [Hc Hs].
  apply Calculus.same_direction; symmetry; assumption.
Qed.

(** The spring deflection has the rate of the lifted angle, away from
    the seam of the normalization. *)
Lemma deflection_rate (T : R -> R) (l : R) :
  T (toRadians theta0) = rockerAngle theta0 p ->
  derivable_pt_lim T (toRadians theta0) l ->
  near (toRadians theta0)
    (fun x => cos (T x) = cos (rockerAngle (toDegrees x) p) /\
              sin (T x) = sin (rockerAngle (toDegrees x) p)) ->
  deflection theta0 p <> PI ->
  derivable_pt_lim (fun x => deflection (toDegrees x) p) (toRadians theta0) l.
Proof.
  intros HT0 HTd HTn Hseam.
  pose proof PI_RGT_0 as Hpi.
  set (x0 := toRadians theta0) in *.
  set (t40 := toRadians (theta40 p)).
  set (kappa := wrap PI (T x0 - t40) - (T x0 - t40)).
  assert (DU : derivable_pt_lim (fun x => T x - t40) x0 (l - 0))
    by exact (Calculus.D_minus T (fun _ => t40) x0 l 0 HTd
                (Calculus.D_const _ _)).
  assert (Hloc : near x0 (fun x => wrap PI (T x - t40) = T x - t40 + kappa)).
  { apply (Calculus.near_comp (fun x => T x - t40) x0 _
             (fun u => wrap PI u = u + kappa) DU).
    apply Calculus.wrap_local; [exact Hpi |].
    cbv beta. rewrite HT0. exact Hseam. }
  apply (Calculus.derivable_local (fun x => T x - t40 + kappa)).
  - generalize (Calculus.near_and _ _ _ Hloc (rocker_follows T HTn)).
    apply Calculus.near_imp. intros x [Hw [k Hk]].
    unfold deflection, normalizeRadiansR. rewrite Hk.
    replace (T x + 2 * PI * IZR k - toRadians (theta40 p))
      with (T x - t40 + 2 * PI * IZR k) by (unfold t40; ring).
    rewrite Normalize.wrap_periodic by exact Hpi.
    symmetry. exact Hw.
  - apply (Calculus.derivable_value _ _ (l - 0 + 0)); [ring |].
    exact (Calculus.D_plus _ (fun _ => kappa) x0 _ 0 DU (Calculus.D_const _ _)).
Qed.

(** Degrees and radians. *)
Lemma D_toRadians (theta : R) : derivable_pt_lim toRadians theta (PI / 180).
Proof.
  apply (Calculus.derivable_local (fun t => PI / 180 * t)).
  - apply Calculus.near_all. intros t. unfold toRadians. field.
  - apply (Calculus.derivable_value _ _ (PI / 180 * 1)); [ring |].
    exact (Calculus.D_scal (fun t => t) theta 1 (Calculus.D_id theta)
             (PI / 180)).
Qed.

Lemma D_toDegrees (t : R) : derivable_pt_lim toDegrees t (180 / PI).
Proof.
  pose proof PI_RGT_0 as Hpi.
  apply (Calculus.derivable_local (fun x => 180 / PI * x)).
  - apply Calculus.near_all. intros x. unfold toDegrees. field. lra.
  - apply (Calculus.derivable_value _ _ (180 / PI * 1)); [ring |].
    exact (Calculus.D_scal (fun x => x) t 1 (Calculus.D_id t) (180 / PI)).
Qed.

(** What holds near the crank angle in radians holds near it in
    degrees. *)
Lemma near_degrees (P : R -> Prop) :
  near (toRadians theta0) P -> near theta0 (fun theta => P (toRadians theta)).
Proof.
  apply (Calculus.near_comp toRadians theta0 _ P (D_toRadians theta0)).
Qed.

(** The reported rocker angle, in degrees against degrees, has the
    rate of the lifted angle, away from the seam. *)
Lemma reported_rate (T : R -> R) (l : R) :
  T (toRadians theta0) = rockerAngle theta0 p ->
  derivable_pt_lim T (toRadians theta0) l ->
  near (toRadians theta0)
    (fun x => cos (T x) = cos (rockerAngle (toDegrees x) p) /\
              sin (T x) = sin (rockerAngle (toDegrees x) p)) ->
  normalizeDegreesR (toDegrees (rockerAngle theta0 p)) <> 180 ->
  derivable_pt_lim
    (fun theta => normalizeDegreesR (toDegrees (rockerAngle theta p)))
    theta0 l.
Proof.
  intros HT0 HTd HTn Hseam.
  pose proof PI_RGT_0 as Hpi.
  set (Td := fun theta => toDegrees (T (toRadians theta))).
  set (kappa := wrap 180 (Td theta0) - Td theta0).
  assert (DTd : derivable_pt_lim Td theta0 (180 / PI * (l * (PI / 180)))).
  { unfold Td.
    apply (Calculus.D_comp (fun theta => T (toRadians theta)) theta0 _
             (Calculus.D_comp toRadians theta0 _ (D_toRadians theta0) T l HTd)
             toDegrees (180 / PI) (D_toDegrees _)). }
  assert (Hloc : near theta0 (fun theta => wrap 180 (Td theta)
                                           = Td theta + kappa)).
  { apply (Calculus.near_comp Td theta0 _
             (fun u => wrap 180 u = u + kappa) DTd).
    apply Calculus.wrap_local; [lra |].
    unfold Td. rewrite HT0. exact Hseam. }
  apply (Calculus.derivable_local (fun theta => Td theta + kappa)).
  - generalize (Calculus.near_and _ _ _ Hloc
                  (near_degrees _ (rocker_follows T HTn))).
    apply Calculus.near_imp. intros theta [Hw [k Hk]].
    rewrite Period.toDegrees_toRadians in Hk.
    unfold normalizeDegreesR. rewrite Hk, Period.toDegrees_turn.
    rewrite Normalize.wrap_periodic by lra.
    symmetry. exact Hw.
  - apply (Calculus.derivable_value _ _ (180 / PI * (l * (PI / 180)) + 0));
      [field; lra |].
    exact (Calculus.D_plus Td (fun _ => kappa) theta0 _ 0 DTd
             (Calculus.D_const _ _)).
Qed.

End Moving.

End Motion.

(** ** Further properties of the evaluator *)

Module Solver.

Import Types Constants PRBModel Linkage Scenario.

(** X1.  In a valid state the law-of-cosines quotient, whenever it is
    a number, lies in [[-1, 1]] already: the clamp before the inverse
    cosine returns it unchanged, and the reported [theta4] is the one
    obtained without clamping. *)
Theorem clamp_inactive (theta2Deg : R) (p : MechanismParams) (c : R) :
  let s := calculateKinematics theta2Deg p in
  let A := crankPin theta2Deg p in
  let B0 := rockerPivot p in
  let r4 := 0.85 * L4 p in
  let d := distance A B0 in
  let phi := JS.atan2R (snd A - snd B0) (fst A - fst B0) in
  isValid s = true ->
  (JS.fin (r4 ^ 2 + d ^ 2 - r3 p ^ 2) / JS.fin (2 * r4 * d))%num = JS.fin c ->
  -1 <= c <= 1 /\
  JS.max (-1) (JS.min 1 (JS.fin c)) = JS.fin c /\
  theta4 s
  = normalizeDegrees ((JS.fin phi - JS.acos (JS.fin c)) * 180 / PI)%num.
Proof.
  intros s A B0 r4 d phi Hv Hc.
  apply Evaluator.isValid_true_iff in Hv as Hf.
  destruct (Pose.quotient_offPivot theta2Deg p c Hc) as [Hoff Hcc].
  pose proof (Closure.cosBeta_range theta2Deg p Hf Hoff) as Hr.
  rewrite <- Hcc in Hr.
  assert (Hcl : JS.max (-1) (JS.min 1 (JS.fin c)) = JS.fin c).
  { NumFacts.num_simpl. fold (clamp c).
    rewrite (Evaluator.clamp_id c Hr). reflexivity. }
  split; [exact Hr |]. split; [exact Hcl |].
  subst s. rewrite Evaluator.calculateKinematics_unfold.
  rewrite Evaluator.isValid_assemblyFails, negb_true_iff in Hv.
  rewrite Hv. cbn [theta4].
  unfold rockerAngleN, betaN, clampN.
  change (cosBetaN theta2Deg p) with
    (JS.fin (r4 ^ 2 + d ^ 2 - r3 p ^ 2) / JS.fin (2 * r4 * d))%num.
  rewrite Hc, Hcl. reflexivity.
Qed.

Lemma clamp_inactive_witness :
  exists c : R,
    -1 <= c <= 1 /\ JS.max (-1) (JS.min 1 (JS.fin c)) = JS.fin c.
Proof.
  exists (cosBeta 90 DEFAULT_PARAMS).
  destruct (clamp_inactive 90 DEFAULT_PARAMS (cosBeta 90 DEFAULT_PARAMS)
              Reference.valid_90
              (Evaluator.cosBetaN_fin _ _ Reference.offPivot_90))
    as (H1 & H2 & _).
  split; assumption.
Defined.

(** X2.  The loop closes.  In a valid state whose [theta4] is a
    number, the pin [B] that the projector reaches from the crank pin
    along the coupler (angle [theta3]) is the point of the rocker
    circle at angle [theta4]: [B = B0 + r4 (cos theta4, sin theta4)],
    at distance [r4] from [B0]. *)
Theorem loop_closure (theta2Deg : R) (p : MechanismParams) (a4 : R) :
  let s := calculateKinematics theta2Deg p in
  let J := getJointPositions s p in
  let r4 := 0.85 * L4 p in
  isValid s = true -> theta4 s = JS.fin a4 ->
  B J = (JS.fin (r1 p + r4 * cos (toRadians a4)),
         JS.fin (r4 * sin (toRadians a4))) /\
  distanceN (B J) (B0 J) = JS.fin r4.
Proof.
  intros s J r4 Hv H4. subst s J.
  pose proof (Pose.number_offPivot _ _ _ Hv H4) as Hoff.
  apply Evaluator.isValid_true_iff in Hv as Hf.
  destruct (Closure.feasible_lengths _ _ Hf Hoff) as (Ha & _ & _).
  rewrite (Pose.joints _ _ Hv Hoff). cbn [B B0].
  rewrite (Evaluator.calculateKinematics_valid _ _ Hv Hoff) in H4.
  cbn [theta4] in H4. apply NumFacts.fin_inj in H4. subst a4.
  rewrite Pose.rockerPin_reported. cbn [fst snd]. fold r4.
  split; [reflexivity |].
  rewrite Projector.distanceN_fin. f_equal.
  replace (r4 * sin (toRadians (normalizeDegreesR
                                  (toDegrees (rockerAngle theta2Deg p)))))
    with (0 + r4 * sin (toRadians (normalizeDegreesR
                                     (toDegrees (rockerAngle theta2Deg p)))))
    by ring.
  apply Evaluator.polar_distance. unfold rocker in Ha. subst r4. lra.
Qed.

Lemma loop_closure_witness :
  distanceN
    (B (getJointPositions (calculateKinematics 90 DEFAULT_PARAMS)
                          DEFAULT_PARAMS))
    (B0 (getJointPositions (calculateKinematics 90 DEFAULT_PARAMS)
                           DEFAULT_PARAMS))
  = JS.fin (0.85 * L4 DEFAULT_PARAMS).
Proof.
  refine (proj2 (loop_closure 90 DEFAULT_PARAMS
                   (normalizeDegreesR (toDegrees t4_90))
                   Reference.valid_90 _)).
  rewrite Reference.state_90. reflexivity.
Defined.

(** X3.  The branch, in terms of the joints.  In a valid state whose
    [theta4] is a number, the pin [B] never lies to the left of the
    directed line from the rocker pivot [B0] to the crank pin [A]:
    the signed area of [B0 A B] is not positive.  The three joints
    are in line exactly at the two limits of the feasible window,
    [d = r3 + r4] and [d = |r3 - r4|]. *)
Theorem rocker_side (theta2Deg : R) (p : MechanismParams) (a4 : R) :
  let s := calculateKinematics theta2Deg p in
  let J := getJointPositions s p in
  let d := distance (crankPin theta2Deg p) (rockerPivot p) in
  let r4 := 0.85 * L4 p in
  isValid s = true -> theta4 s = JS.fin a4 ->
  exists ax ay bx by' : R,
    A J = (JS.fin ax, JS.fin ay) /\
    B J = (JS.fin bx, JS.fin by') /\
    Notions.cross (r1 p, 0) (ax, ay) (bx, by') <= 0 /\
    (Notions.cross (r1 p, 0) (ax, ay) (bx, by') = 0
     <-> d = r3 p + r4 \/ d = Rabs (r3 p - r4)).
Proof.
  intros s J d r4 Hv H4. subst s J.
  pose proof (Pose.number_offPivot _ _ _ Hv H4) as Hoff.
  apply Evaluator.isValid_true_iff in Hv as Hf.
  destruct (Closure.feasible_lengths _ _ Hf Hoff) as (Ha & Hd & _).
  rewrite (Pose.joints _ _ Hv Hoff). cbn [A B].
  exists (fst (crankPin theta2Deg p)), (snd (crankPin theta2Deg p)),
    (fst (rockerPin theta2Deg p)), (snd (rockerPin theta2Deg p)).
  split; [reflexivity |]. split; [reflexivity |].
  destruct (Closure.crank_polar _ _ Hf Hoff) as [Hx Hy].
  pose proof (Closure.sin_beta_nonneg _ _ Hf Hoff) as Hs.
  pose proof (Pose.sin_beta_zero_iff _ _ Hf Hoff) as Hlim.
  change (pinDistance theta2Deg p) with d in *.
  change (rocker p) with r4 in *.
  assert (Hsin : sin (rockerAngle theta2Deg p) * cos (phi theta2Deg p)
                 - cos (rockerAngle theta2Deg p) * sin (phi theta2Deg p)
                 = - sin (beta theta2Deg p)).
  { rewrite <- sin_minus. unfold rockerAngle.
    replace (phi theta2Deg p - beta theta2Deg p - phi theta2Deg p)
      with (- beta theta2Deg p) by ring.
    apply sin_neg. }
  assert (Hcross : Notions.cross (r1 p, 0)
                     (fst (crankPin theta2Deg p), snd (crankPin theta2Deg p))
                     (fst (rockerPin theta2Deg p), snd (rockerPin theta2Deg p))
                   = - (r4 * d * sin (beta theta2Deg p))).
  { unfold Notions.cross, rockerPin. cbn [fst snd].
    unfold rockerPivot in *. cbn [fst snd] in *.
    change (rocker p) with r4.
    replace (fst (crankPin theta2Deg p) - r1 p)
      with (d * cos (phi theta2Deg p)) by (rewrite <- Hx; ring).
    replace (snd (crankPin theta2Deg p) - 0)
      with (d * sin (phi theta2Deg p)) by (rewrite <- Hy; ring).
    rewrite <- (Ropp_involutive (sin (beta theta2Deg p))), <- Hsin. ring. }
  rewrite Hcross, <- Hlim.
  assert (Hp : 0 < r4 * d) by nra.
  split; [nra |].
  split; intros Hz; [nra | rewrite Hz; ring].
Qed.

Lemma rocker_side_witness :
  exists ax ay bx by' : R,
    A (getJointPositions (calculateKinematics 90 DEFAULT_PARAMS)
                         DEFAULT_PARAMS) = (JS.fin ax, JS.fin ay) /\
    B (getJointPositions (calculateKinematics 90 DEFAULT_PARAMS)
                         DEFAULT_PARAMS) = (JS.fin bx, JS.fin by') /\
    Notions.cross (r1 DEFAULT_PARAMS, 0) (ax, ay) (bx, by') <= 0.
Proof.
  assert (H4 : theta4 (calculateKinematics 90 DEFAULT_PARAMS)
               = JS.fin (normalizeDegreesR (toDegrees t4_90)))
    by (rewrite Reference.state_90; reflexivity).
  destruct (rocker_side 90 DEFAULT_PARAMS _ Reference.valid_90 H4)
    as (ax & ay & bx & by' & HA & HB & Hc & _).
  exists ax, ay, bx, by'. repeat split; assumption.
Defined.

(** X4.  Where the unguarded quotient [h42] fails.  For a coupler and
    a rocker of positive length and a crank pin off the rocker pivot,
    the torque of a valid state is not a number exactly at the two
    limits of the feasible window, [d = r3 + r4] and
    [d = |r3 - r4|], where coupler and rocker are in line; strictly
    inside the window it is a number. *)
Theorem torque_missing_iff (theta2Deg : R) (p : MechanismParams) :
  let s := calculateKinematics theta2Deg p in
  let d := distance (crankPin theta2Deg p) (rockerPivot p) in
  let r4 := 0.85 * L4 p in
  0 < r3 p -> 0 < L4 p -> 0 < d -> isValid s = true ->
  (torque s = None <-> d = r3 p + r4 \/ d = Rabs (r3 p - r4)).
Proof.
  intros s d r4 H3 HL Hd Hv. subst s.
  pose proof (Evaluator.offPivot_of_distance _ _ HL Hd) as Hoff.
  apply Evaluator.isValid_true_iff in Hv as Hf.
  destruct (Closure.feasible_lengths _ _ Hf Hoff) as (Ha & _ & _).
  rewrite (Evaluator.calculateKinematics_valid _ _ Hv Hoff). cbn [torque].
  pose proof (Pose.h42N_missing_iff _ _ Hoff) as Hh.
  pose proof (Pose.sin_beta_zero_iff _ _ Hf Hoff) as Hb.
  pose proof (Closure.transmission_sine _ _ Hf Hoff) as Ht.
  change (pinDistance theta2Deg p) with d in *.
  change (rocker p) with r4 in *.
  rewrite <- Hb.
  assert (Hmul : (JS.fin (stiffness p * deflection theta2Deg p)
                  * h42N theta2Deg p)%num = None
                 <-> h42N theta2Deg p = None).
  { destruct (h42N theta2Deg p); NumFacts.num_simpl; split;
      intros; try discriminate; reflexivity. }
  rewrite Hmul, Hh.
  split.
  - intros Hz. apply Rmult_integral in Hz. destruct Hz as [Hz | Hz]; [lra |].
    rewrite Hz, Rmult_0_r in Ht. nra.
  - intros Hz. rewrite Hz, Rmult_0_r, Ropp_0 in Ht.
    apply Rmult_integral in Ht. destruct Ht as [Ht | Ht]; [lra |].
    rewrite Ht. ring.
Qed.

Lemma torque_missing_iff_witness :
  torque (calculateKinematics 0 toggleParams) = None.
Proof.
  apply (torque_missing_iff 0 toggleParams).
  - simpl; lra.
  - simpl; lra.
  - change (0 < pinDistance 0 toggleParams).
    rewrite Examples.toggle_pinDistance. lra.
  - exact Examples.toggle_valid.
  - right.
    change (pinDistance 0 toggleParams
            = Rabs (r3 toggleParams - 0.85 * L4 toggleParams)).
    rewrite Examples.toggle_pinDistance. simpl.
    unfold Rabs. destruct (Rcase_abs (7 - 0.85 * 20)); lra.
Defined.

(** X5.  What [h42] is.  For a coupler and a rocker of positive
    length, a crank pin off the rocker pivot and a valid state
    strictly inside the feasible window, the torque is
    [K * deltaTheta4 * h42] for numbers [K], [deltaTheta4] (the
    normalized difference of the reported [theta4] and [theta40], in
    radians) and [h42], where [h42] is the rocker-to-crank velocity
    ratio of the closed loop: with a coupler ratio [h32] it solves the
    loop equation [r2 e(theta2) + r3 e(theta3) = B0 + r4 e(theta4)]
    differentiated along the crank angle, and it is the only number
    that does. *)
Theorem transmission_ratio (theta2Deg : R) (p : MechanismParams) :
  let s := calculateKinematics theta2Deg p in
  let d := distance (crankPin theta2Deg p) (rockerPivot p) in
  let r4 := 0.85 * L4 p in
  0 < r3 p -> 0 < L4 p -> 0 < d -> isValid s = true ->
  d <> r3 p + r4 -> d <> Rabs (r3 p - r4) ->
  exists a3 a4 k h42 h32 : R,
    let t2 := toRadians theta2Deg in
    let t3 := toRadians a3 in
    let t4 := toRadians a4 in
    let dt := toRadians (normalizeDegreesR (a4 - theta40 p)) in
    theta3 s = JS.fin a3 /\ theta4 s = JS.fin a4 /\ K (prb s) = JS.fin k /\
    torque s = JS.fin (k * dt * h42) /\
    r2 p * - sin t2 + h32 * (r3 p * - sin t3) = h42 * (r4 * - sin t4) /\
    r2 p * cos t2 + h32 * (r3 p * cos t3) = h42 * (r4 * cos t4) /\
    (forall x y : R,
        r2 p * - sin t2 + x * (r3 p * - sin t3) = y * (r4 * - sin t4) ->
        r2 p * cos t2 + x * (r3 p * cos t3) = y * (r4 * cos t4) ->
        y = h42).
Proof.
  intros s d r4 H3 HL Hd Hv Hup Hlow. subst s.
  pose proof (Evaluator.offPivot_of_distance _ _ HL Hd) as Hoff.
  apply Evaluator.isValid_true_iff in Hv as Hf.
  destruct (Closure.feasible_lengths _ _ Hf Hoff) as (Ha & _ & _).
  pose proof (Pose.sin_beta_zero_iff _ _ Hf Hoff) as Hb.
  pose proof (Closure.transmission_sine _ _ Hf Hoff) as Ht.
  change (pinDistance theta2Deg p) with d in *.
  change (rocker p) with r4 in *.
  assert (HS : sin (couplerAngle theta2Deg p - rockerAngle theta2Deg p) <> 0).
  { intros Hz. rewrite Hz, Rmult_0_r in Ht.
    assert (Hsb : sin (beta theta2Deg p) = 0) by nra.
    apply Hb in Hsb. tauto. }
  rewrite (Evaluator.calculateKinematics_valid _ _ Hv Hoff).
  cbn [theta3 theta4 torque prb prbOf K].
  rewrite (Evaluator.stiffnessN_fin p) by lra.
  exists (normalizeDegreesR (toDegrees (couplerAngle theta2Deg p))),
    (normalizeDegreesR (toDegrees (rockerAngle theta2Deg p))),
    (stiffness p),
    (r2 p * sin (couplerAngle theta2Deg p - toRadians theta2Deg)
     / (r4 * sin (couplerAngle theta2Deg p - rockerAngle theta2Deg p))),
    (r2 p * sin (rockerAngle theta2Deg p - toRadians theta2Deg)
     / (r3 p * sin (couplerAngle theta2Deg p - rockerAngle theta2Deg p))).
  cbv zeta.
  rewrite !Turns.cos_reported, !Turns.sin_reported.
  rewrite <- (Units.deflection_reported theta2Deg p).
  set (t3 := couplerAngle theta2Deg p) in *.
  set (t4 := rockerAngle theta2Deg p) in *.
  set (t2 := toRadians theta2Deg).
  assert (Hden : r4 * sin (t3 - t4) <> 0)
    by (apply Rmult_integral_contrapositive_currified; lra).
  split; [reflexivity |]. split; [reflexivity |]. split; [reflexivity |].
  split.
  { unfold h42N.
    rewrite (Evaluator.couplerAngleN_fin _ _ Hoff),
      (Evaluator.rockerAngleN_fin _ _ Hoff).
    fold t3 t4 t2. change (rocker p) with r4.
    NumFacts.num_simpl. rewrite NumFacts.div_fin by exact Hden.
    NumFacts.num_simpl. reflexivity. }
  revert HS Hden. rewrite !sin_minus.
  set (s2 := sin t2). set (c2 := cos t2).
  set (s3 := sin t3). set (c3 := cos t3).
  set (s4 := sin t4). set (c4 := cos t4).
  intros HS Hden.
  split; [field; lra |]. split; [field; lra |].
  intros x y E1 E2.
  apply Rmult_eq_reg_r with (r4 * (s3 * c4 - c3 * s4)); [| exact Hden].
  replace (r2 p * (s3 * c2 - c3 * s2) / (r4 * (s3 * c4 - c3 * s4))
           * (r4 * (s3 * c4 - c3 * s4)))
    with (r2 p * (s3 * c2 - c3 * s2)) by (field; lra).
  assert (E12 : (r2 p * - s2 + x * (r3 p * - s3)) * c3
                + (r2 p * c2 + x * (r3 p * c3)) * s3
                = y * (r4 * - s4) * c3 + y * (r4 * c4) * s3)
    by (rewrite E1, E2; reflexivity).
  lra.
Qed.

Lemma transmission_ratio_witness :
  exists k dt h42 : R,
    torque (calculateKinematics 90 DEFAULT_PARAMS) = JS.fin (k * dt * h42).
Proof.
  pose proof Reference.D_bounds as HD.
  assert (Hd : distance (crankPin 90 DEFAULT_PARAMS)
                        (rockerPivot DEFAULT_PARAMS) = D)
    by exact Reference.pinDistance_90.
  destruct (transmission_ratio 90 DEFAULT_PARAMS) as
    (a3 & a4 & k & h42 & h32 & _ & _ & _ & Ht & _).
  - simpl; lra.
  - simpl; lra.
  - rewrite Hd. lra.
  - exact Reference.valid_90.
  - rewrite Hd. simpl. lra.
  - rewrite Hd. simpl. unfold Rabs.
    destruct (Rcase_abs (3.71 - 0.85 * 4.32)); lra.
  - do 3 eexists. exact Ht.
Defined.

(** X6.  The energy well.  For positive [E], [b], [h], [L4] and a
    crank pin off the rocker pivot, the energy of a valid state is a
    number between [0] and [K PI^2 / 2]; it is [0] exactly when the
    reported [theta4] is the undeflected angle [theta40] (normalized),
    and then the torque is [0] unless it is not a number. *)
Theorem rest_energy (theta2Deg : R) (p : MechanismParams) :
  let s := calculateKinematics theta2Deg p in
  let d := distance (crankPin theta2Deg p) (rockerPivot p) in
  0 < E p -> 0 < b p -> 0 < h p -> 0 < L4 p -> 0 < d ->
  isValid s = true ->
  exists a4 e k : R,
    theta4 s = JS.fin a4 /\ energy s = JS.fin e /\ K (prb s) = JS.fin k /\
    0 <= e <= 0.5 * k * PI ^ 2 /\
    (e = 0 <-> JS.fin a4 = normalizeDegrees (JS.fin (theta40 p))) /\
    (e = 0 -> torque s = JS.fin 0 \/ torque s = None).
Proof.
  intros s d HE Hb Hh HL Hd Hv. subst s.
  pose proof (Evaluator.offPivot_of_distance _ _ HL Hd) as Hoff.
  pose proof (Evaluator.stiffness_pos p HE Hb Hh HL) as HK.
  pose proof PI_RGT_0 as Hpi.
  rewrite (Evaluator.calculateKinematics_valid _ _ Hv Hoff).
  cbn [theta4 energy torque prb prbOf K].
  rewrite (Evaluator.stiffnessN_fin p) by lra.
  exists (normalizeDegreesR (toDegrees (rockerAngle theta2Deg p))),
    (0.5 * stiffness p * deflection theta2Deg p ^ 2), (stiffness p).
  pose proof (Normalize.normalizeRadians_range
                (rockerAngle theta2Deg p - toRadians (theta40 p))) as Hr.
  fold (deflection theta2Deg p) in Hr.
  assert (Hzero : 0.5 * stiffness p * deflection theta2Deg p ^ 2 = 0
                  <-> deflection theta2Deg p = 0).
  { split; intros H0; [| rewrite H0; ring].
    apply Rmult_integral in H0. destruct H0 as [H0 | H0]; [lra |].
    destruct (Req_dec (deflection theta2Deg p) 0) as [Hz | Hz]; [exact Hz |].
    exfalso. exact (pow_nonzero _ 2 Hz H0). }
  split; [reflexivity |]. split; [reflexivity |]. split; [reflexivity |].
  split; [| split].
  - split; [pose proof (pow2_ge_0 (deflection theta2Deg p)); nra |].
    assert (deflection theta2Deg p ^ 2 <= PI ^ 2) by nra. nra.
  - rewrite Hzero, NormalizeNum.normalizeDegrees_fin.
    unfold deflection, normalizeRadiansR, normalizeDegreesR.
    split.
    + intros H0. f_equal.
      destruct (Normalize.wrap_congr PI
                  (rockerAngle theta2Deg p - toRadians (theta40 p)))
        as [k Hk].
      rewrite H0 in Hk.
      replace (toDegrees (rockerAngle theta2Deg p))
        with (theta40 p + 2 * 180 * IZR (- k)).
      * apply Normalize.wrap_periodic. lra.
      * rewrite <- (Period.toDegrees_toRadians (theta40 p)) at 1.
        rewrite <- Period.toDegrees_turn. f_equal.
        rewrite opp_IZR. lra.
    + intros H0. apply NumFacts.fin_inj in H0.
      rewrite <- (Period.toDegrees_toRadians (theta40 p)) in H0 at 1.
      destruct (Normalize.normalizeDegrees_toDegrees_inv _ _ H0) as [k Hk].
      rewrite Hk.
      replace (toRadians (theta40 p) + 2 * PI * IZR k - toRadians (theta40 p))
        with (0 + 2 * PI * IZR k) by ring.
      rewrite Normalize.wrap_periodic by exact Hpi.
      apply Normalize.wrap_fixed; lra.
  - rewrite Hzero. intros H0. rewrite H0, Rmult_0_r.
    destruct (h42N theta2Deg p) as [x |]; NumFacts.num_simpl.
    + left. rewrite Rmult_0_l. reflexivity.
    + right. reflexivity.
Qed.

Lemma rest_energy_witness :
  exists e k : R,
    energy (calculateKinematics 90 DEFAULT_PARAMS) = JS.fin e /\
    K (prb (calculateKinematics 90 DEFAULT_PARAMS)) = JS.fin k /\
    0 <= e <= 0.5 * k * PI ^ 2.
Proof.
  assert (Hd : 0 < distance (crankPin 90 DEFAULT_PARAMS)
                            (rockerPivot DEFAULT_PARAMS)).
  { change (0 < pinDistance 90 DEFAULT_PARAMS).
    rewrite Reference.pinDistance_90. pose proof Reference.D_bounds. lra. }
  destruct (rest_energy 90 DEFAULT_PARAMS
              ltac:(simpl; lra) ltac:(simpl; lra)
              ltac:(simpl; lra) ltac:(simpl; lra) Hd Reference.valid_90)
    as (a4 & e & k & _ & He & Hk & Hb & _).
  exists e, k. repeat split; try assumption; apply Hb.
Defined.

(** X7.  Full rotation.  For link lengths [r1, r2 >= 0] the crank pin
    stays between [|r1 - r2|] and [r1 + r2] from the rocker pivot and
    reaches both; so every crank angle gives a valid state exactly
    when [r1 + r2 <= r3 + r4] and [|r3 - r4| <= |r1 - r2|], and no
    crank angle does when [|r1 - r2| > r3 + r4] or
    [r1 + r2 < |r3 - r4|]. *)
Theorem crank_rotates_fully (p : MechanismParams) :
  let r4 := 0.85 * L4 p in
  0 <= r1 p -> 0 <= r2 p ->
  ((forall theta2Deg : R, isValid (calculateKinematics theta2Deg p) = true)
   <-> r1 p + r2 p <= r3 p + r4 /\ Rabs (r3 p - r4) <= Rabs (r1 p - r2 p))
  /\
  (Rabs (r1 p - r2 p) > r3 p + r4 \/ r1 p + r2 p < Rabs (r3 p - r4) ->
   forall theta2Deg : R, isValid (calculateKinematics theta2Deg p) = false).
Proof.
  intros r4 H1 H2. split; [split |].
  - intros Hall.
    pose proof (Hall 0) as Hv0. pose proof (Hall 180) as Hv180.
    apply Evaluator.isValid_true_iff in Hv0, Hv180.
    unfold infeasible in Hv0, Hv180.
    rewrite Reach.pinDistance_0 in Hv0. rewrite Reach.pinDistance_180 in Hv180.
    rewrite (Rabs_pos_eq (r1 p + r2 p)) in Hv180 by lra.
    change (rocker p) with r4 in *.
    pose proof (Rabs_pos (r3 p - r4)). lra.
  - intros [Ha Hb] theta2Deg.
    apply Evaluator.isValid_true_iff. unfold infeasible.
    pose proof (Reach.pinDistance_window theta2Deg p H1 H2).
    change (rocker p) with r4. lra.
  - intros Hout theta2Deg.
    apply Evaluator.isValid_false_iff. unfold infeasible.
    pose proof (Reach.pinDistance_window theta2Deg p H1 H2).
    change (rocker p) with r4. lra.
Qed.

Lemma crank_rotates_fully_witness :
  (forall theta2Deg : R,
      isValid (calculateKinematics theta2Deg DEFAULT_PARAMS) = true) /\
  (forall theta2Deg : R,
      isValid (calculateKinematics theta2Deg farParams) = false).
Proof.
  split.
  - apply (proj1 (crank_rotates_fully DEFAULT_PARAMS
                    ltac:(simpl; lra) ltac:(simpl; lra))).
    simpl. unfold Rabs.
    destruct (Rcase_abs (3.71 - 0.85 * 4.32)), (Rcase_abs (3.0 - 1.5)); lra.
  - apply (proj2 (crank_rotates_fully farParams
                    ltac:(simpl; lra) ltac:(simpl; lra))).
    left. simpl. unfold Rabs. destruct (Rcase_abs (10 - 1)); lra.
Defined.

(** X8.  Whole turns of the crank.  Adding a whole number of turns to
    the crank angle changes the state in [theta2] and [deltaTheta2]
    only, which grow by that many degrees: validity, [theta3],
    [theta4], energy, torque and the constants are the same. *)
Theorem crank_turn (theta2Deg : R) (p : MechanismParams) (k : Z) :
  let s := calculateKinematics theta2Deg p in
  let s' := calculateKinematics (theta2Deg + 360 * IZR k) p in
  isValid s' = isValid s /\
  theta3 s' = theta3 s /\
  theta4 s' = theta4 s /\
  energy s' = energy s /\
  torque s' = torque s /\
  prb s' = prb s /\
  theta2 s' = (theta2 s + JS.fin (360 * IZR k))%num /\
  deltaTheta2 s' = (deltaTheta2 s + JS.fin (360 * IZR k))%num.
Proof.
  cbv zeta. rewrite !Evaluator.calculateKinematics_unfold.
  rewrite Period.assemblyFails_turn, Period.couplerAngleN_turn,
    Period.rockerAngleN_turn, Period.deflectionN_turn, Period.h42N_turn.
  destruct (assemblyFails theta2Deg p);
    cbn [isValid theta2 theta3 theta4 energy torque prb deltaTheta2];
    NumFacts.num_simpl;
    repeat split; try reflexivity; apply f_equal; ring.
Qed.

End Solver.

(** ** Rates of change along the crank angle *)

Module Rates.

Import Types Constants PRBModel Linkage Scenario Notions.

(** X9.  [h42] is the rate of [theta4].  For a coupler and a rocker
    of positive length, at a crank angle strictly inside the feasible
    window where the reported [theta4] is not on the seam of the
    normalization ([180]), the reported [theta4], as a function of the
    crank angle in degrees, has a derivative, and the derivative is
    the coefficient [h42 = r2 sin(theta3 - theta2) / (r4 sin(theta3 -
    theta4))] that the source forms from the reported angles. *)
Theorem rocker_rate (theta2Deg : R) (p : MechanismParams) :
  let s := calculateKinematics theta2Deg p in
  let d := distance (crankPin theta2Deg p) (rockerPivot p) in
  let r4 := 0.85 * L4 p in
  0 < r3 p -> 0 < L4 p -> Rabs (r3 p - r4) < d < r3 p + r4 ->
  theta4 s <> JS.fin 180 ->
  exists a3 a4 : R,
    isValid s = true /\ theta3 s = JS.fin a3 /\ theta4 s = JS.fin a4 /\
    derivable_pt_lim
      (fun theta => value (theta4 (calculateKinematics theta p)))
      theta2Deg
      (r2 p * sin (toRadians a3 - toRadians theta2Deg)
       / (r4 * sin (toRadians a3 - toRadians a4))).
Proof.
  intros s d r4 H3 HL Hstrict Hseam. subst s.
  change (Rabs (r3 p - rocker p) < pinDistance theta2Deg p
          < r3 p + rocker p) in Hstrict.
  destruct (Motion.strict_feasible _ p HL Hstrict) as [Hf Hoff].
  apply Evaluator.isValid_true_iff in Hf as Hv.
  rewrite (Evaluator.calculateKinematics_valid _ _ Hv Hoff) in Hseam |- *.
  cbn [theta3 theta4 isValid] in Hseam |- *.
  assert (Hseam' : normalizeDegreesR (toDegrees (rockerAngle theta2Deg p))
                   <> 180)
    by (intros H0; apply Hseam; rewrite H0; reflexivity).
  destruct (Motion.rocker_lift p theta2Deg HL Hstrict)
    as (T & l & HT0 & HTd & HTn).
  destruct (Motion.h42N_rate p theta2Deg H3 HL Hstrict T l HT0 HTd HTn)
    as [_ Hl].
  exists (normalizeDegreesR (toDegrees (couplerAngle theta2Deg p))),
    (normalizeDegreesR (toDegrees (rockerAngle theta2Deg p))).
  split; [reflexivity |].
  split; [reflexivity |]. split; [reflexivity |].
  rewrite !Turns.sin_reported_minus, !Turns.sin_minus_reported.
  subst r4. change (0.85 * L4 p) with (rocker p). rewrite <- Hl.
  apply (Calculus.derivable_local
           (fun theta => normalizeDegreesR (toDegrees (rockerAngle theta p)))).
  - generalize (Motion.near_degrees theta2Deg _
                  (Motion.near_strict p theta2Deg Hstrict)).
    apply Calculus.near_imp. intros theta Hs.
    rewrite Period.toDegrees_toRadians in Hs.
    destruct (Motion.strict_feasible _ p HL Hs) as [Hf' Hoff'].
    apply Evaluator.isValid_true_iff in Hf'.
    rewrite (Evaluator.calculateKinematics_valid _ _ Hf' Hoff').
    reflexivity.
  - exact (Motion.reported_rate p theta2Deg T l HT0 HTd HTn Hseam').
Qed.

Lemma rocker_rate_witness :
  exists h42 : R,
    derivable_pt_lim
      (fun theta => value (theta4 (calculateKinematics theta DEFAULT_PARAMS)))
      90 h42.
Proof.
  pose proof Reference.D_bounds as HD.
  assert (Hd : distance (crankPin 90 DEFAULT_PARAMS)
                        (rockerPivot DEFAULT_PARAMS) = D)
    by exact Reference.pinDistance_90.
  destruct (rocker_rate 90 DEFAULT_PARAMS) as (a3 & a4 & _ & _ & _ & Hr).
  - simpl; lra.
  - simpl; lra.
  - rewrite Hd. simpl. unfold Rabs.
    destruct (Rcase_abs (3.71 - 0.85 * 4.32)); lra.
  - rewrite Reference.state_90. cbn [theta4].
    rewrite Reference.reported_t4_90.
    pose proof Reference.reported_t4_90_bounds as Hb.
    intros H0. apply NumFacts.fin_inj in H0. lra.
  - eexists. exact Hr.
Defined.

(** X10.  The torque is the rate of the energy.  For a coupler and a
    rocker of positive length, at a crank angle strictly inside the
    feasible window where the spring deflection is not on the seam of
    its normalization ([normalizeDegrees (theta4 - theta40)] is not
    [180]), the torque is a number, the energy as a function of the
    crank angle in radians has a derivative there, and the torque is
    that derivative. *)
Theorem energy_rate (theta2Deg : R) (p : MechanismParams) :
  let s := calculateKinematics theta2Deg p in
  let d := distance (crankPin theta2Deg p) (rockerPivot p) in
  let r4 := 0.85 * L4 p in
  0 < r3 p -> 0 < L4 p -> Rabs (r3 p - r4) < d < r3 p + r4 ->
  normalizeDegrees (theta4 s - JS.fin (theta40 p)) <> JS.fin 180 ->
  exists m : R,
    isValid s = true /\ torque s = JS.fin m /\
    derivable_pt_lim
      (fun x => value (energy (calculateKinematics (toDegrees x) p)))
      (toRadians theta2Deg) m.
Proof.
  intros s d r4 H3 HL Hstrict Hseam. subst s.
  change (Rabs (r3 p - rocker p) < pinDistance theta2Deg p
          < r3 p + rocker p) in Hstrict.
  destruct (Motion.strict_feasible _ p HL Hstrict) as [Hf Hoff].
  apply Evaluator.isValid_true_iff in Hf as Hv.
  rewrite (Evaluator.calculateKinematics_valid _ _ Hv Hoff) in Hseam |- *.
  cbn [theta4 torque isValid] in Hseam |- *.
  assert (Hseam' : deflection theta2Deg p <> PI).
  { intros H0. apply Hseam.
    NumFacts.num_simpl. rewrite NormalizeNum.normalizeDegrees_fin.
    apply f_equal.
    rewrite Units.deflection_reported in H0.
    rewrite <- (Period.toDegrees_toRadians (normalizeDegreesR _)), H0.
    unfold toDegrees. pose proof PI_RGT_0. field. lra. }
  destruct (Motion.rocker_lift p theta2Deg HL Hstrict)
    as (T & l & HT0 & HTd & HTn).
  destruct (Motion.h42N_rate p theta2Deg H3 HL Hstrict T l HT0 HTd HTn)
    as [Hh _].
  rewrite Hh. NumFacts.num_simpl.
  exists (stiffness p * deflection theta2Deg p * l).
  split; [reflexivity |]. split; [reflexivity |].
  apply (Calculus.derivable_local
           (fun x => 0.5 * stiffness p * deflection (toDegrees x) p ^ 2)).
  - generalize (Motion.near_strict p theta2Deg Hstrict).
    apply Calculus.near_imp. intros x Hs.
    destruct (Motion.strict_feasible _ p HL Hs) as [Hf' Hoff'].
    apply Evaluator.isValid_true_iff in Hf'.
    rewrite (Evaluator.calculateKinematics_valid _ _ Hf' Hoff').
    reflexivity.
  - pose proof (Motion.deflection_rate p theta2Deg T l HT0 HTd HTn Hseam')
      as Dd.
    apply (Calculus.derivable_value _ _
             (0.5 * stiffness p
              * (2 * deflection (toDegrees (toRadians theta2Deg)) p * l))).
    { rewrite Period.toDegrees_toRadians. lra. }
    exact (Calculus.D_scal _ _ _
             (Calculus.D_sqr (fun x => deflection (toDegrees x) p) _ l Dd)
             (0.5 * stiffness p)).
Qed.

Lemma energy_rate_witness :
  exists m : R,
    torque (calculateKinematics 90 DEFAULT_PARAMS) = JS.fin m /\
    derivable_pt_lim
      (fun x => value (energy (calculateKinematics (toDegrees x)
                                 DEFAULT_PARAMS)))
      (toRadians 90) m.
Proof.
  pose proof Reference.D_bounds as HD.
  assert (Hd : distance (crankPin 90 DEFAULT_PARAMS)
                        (rockerPivot DEFAULT_PARAMS) = D)
    by exact Reference.pinDistance_90.
  destruct (energy_rate 90 DEFAULT_PARAMS) as (m & _ & Ht & Hr).
  - simpl; lra.
  - simpl; lra.
  - rewrite Hd. simpl. unfold Rabs.
    destruct (Rcase_abs (3.71 - 0.85 * 4.32)); lra.
  - rewrite Reference.state_90. cbn [theta4].
    rewrite Reference.reported_t4_90.
    pose proof Reference.reported_t4_90_bounds as Hb.
    NumFacts.num_simpl. rewrite NormalizeNum.normalizeDegrees_fin.
    rewrite Normalize.normalizeDegrees_fixed by (simpl; lra).
    intros H0. apply NumFacts.fin_inj in H0. simpl in H0. lra.
  - exists m. split; assumption.
Defined.

End Rates.

(** ** Further properties of the normalizers *)

Module Angles.

Import Types Constants PRBModel Linkage Scenario.

(** X11.  Radian normalization fixes every angle of [(-PI, PI]], is
    idempotent and is periodic: normalizing [x + 2 PI k] for an
    integer [k] gives the same value as normalizing [x].  Neither
    normalizer makes a number out of what is not one. *)
Theorem normalizeRadians_laws :
  (forall x : R, - PI < x <= PI -> normalizeRadians (JS.fin x) = JS.fin x) /\
  (forall x : R,
      normalizeRadians (normalizeRadians (JS.fin x))
      = normalizeRadians (JS.fin x)) /\
  (forall (x : R) (k : Z),
      normalizeRadians (JS.fin (x + 2 * PI * IZR k))
      = normalizeRadians (JS.fin x)) /\
  normalizeRadians None = None /\
  normalizeDegrees None = None.
Proof.
  pose proof PI_RGT_0 as Hpi.
  split; [| split; [| split; [| split]]].
  - intros x Hx. rewrite NormalizeNum.normalizeRadians_fin. f_equal.
    apply Normalize.wrap_fixed; assumption.
  - intros x. rewrite !NormalizeNum.normalizeRadians_fin. f_equal.
    apply Normalize.wrap_fixed; [exact Hpi |].
    apply Normalize.normalizeRadians_range.
  - intros x k. rewrite !NormalizeNum.normalizeRadians_fin. f_equal.
    apply Normalize.wrap_periodic, Hpi.
  - reflexivity.
  - reflexivity.
Qed.

(** X12.  The seam of the degree normalization.  The result is never
    [-180]: an angle and its opposite normalize to opposite values,
    except that both normalize to [180] when one of them does. *)
Theorem normalizeDegrees_opposite (x y : R) :
  normalizeDegrees (JS.fin x) = JS.fin y ->
  y <> -180 /\
  (y = 180 -> normalizeDegrees (JS.fin (- x)) = JS.fin 180) /\
  (y <> 180 -> normalizeDegrees (JS.fin (- x)) = JS.fin (- y)).
Proof.
  rewrite NormalizeNum.normalizeDegrees_fin. intros Hy.
  apply NumFacts.fin_inj in Hy.
  pose proof (Normalize.normalizeDegrees_range x) as Hr.
  rewrite Hy in Hr.
  split; [lra |].
  rewrite NormalizeNum.normalizeDegrees_fin.
  unfold normalizeDegreesR in *.
  rewrite (Units.wrap_opp 180 x) by lra. rewrite Hy.
  destruct (Req_dec_T y 180) as [He | Hne].
  - split; [reflexivity | contradiction].
  - split; [contradiction | reflexivity].
Qed.

Lemma normalizeDegrees_opposite_witness :
  normalizeDegrees (JS.fin (- 180)) = JS.fin 180 /\
  normalizeDegrees (JS.fin (- 90)) = JS.fin (- 90).
Proof.
  assert (H180 : normalizeDegrees (JS.fin 180) = JS.fin 180).
  { rewrite NormalizeNum.normalizeDegrees_fin. f_equal.
    apply Normalize.normalizeDegrees_fixed. lra. }
  assert (H90 : normalizeDegrees (JS.fin 90) = JS.fin 90).
  { rewrite NormalizeNum.normalizeDegrees_fin. f_equal.
    apply Normalize.normalizeDegrees_fixed. lra. }
  split.
  - apply (proj1 (proj2 (normalizeDegrees_opposite 180 180 H180))).
    reflexivity.
  - apply (proj2 (proj2 (normalizeDegrees_opposite 90 90 H90))). lra.
Defined.

(** X13.  The energy can be recomputed from the record.  In a valid
    state the spring deflection, taken in radians inside the
    evaluator, is the normalized difference of the reported [theta4]
    and [theta40] in degrees, converted: the energy is
    [0.5 * K * (normalizeDegrees (theta4 - theta40) * PI / 180) ^ 2]
    in the arithmetic of the source. *)
Theorem energy_from_record (theta2Deg : R) (p : MechanismParams) :
  let s := calculateKinematics theta2Deg p in
  isValid s = true ->
  energy s
  = (0.5 * K (prb s)
     * JS.pow
         (normalizeDegrees (theta4 s - JS.fin (theta40 p)) * PI / 180) 2)%num.
Proof.
  intros s Hv. subst s.
  destruct (Req_dec (2 * rocker p * pinDistance theta2Deg p) 0) as [Hz | Hoff].
  - assert (Hon : ~ offPivot theta2Deg p) by (intros H; apply H; exact Hz).
    rewrite (Evaluator.calculateKinematics_onPivot _ _ Hv Hon).
    cbn [energy theta4 prb]. Evaluator.num_missing.
    rewrite NumFacts.mul_None_r. reflexivity.
  - rewrite (Evaluator.calculateKinematics_valid _ _ Hv Hoff).
    cbn [energy theta4 prb prbOf K].
    rewrite (Evaluator.stiffnessN_fin p (Evaluator.offPivot_L4 _ _ Hoff)).
    NumFacts.num_simpl.
    rewrite NormalizeNum.normalizeDegrees_fin.
    change (Some ?x) with (JS.fin x).
    rewrite Evaluator.toRadiansN, <- Units.deflection_reported.
    reflexivity.
Qed.

Lemma energy_from_record_witness :
  energy (calculateKinematics 90 DEFAULT_PARAMS)
  = (0.5 * K (prb (calculateKinematics 90 DEFAULT_PARAMS))
     * JS.pow (normalizeDegrees
                 (theta4 (calculateKinematics 90 DEFAULT_PARAMS)
                  - JS.fin (theta40 DEFAULT_PARAMS)) * PI / 180) 2)%num.
Proof. exact (energy_from_record 90 DEFAULT_PARAMS Reference.valid_90). Defined.

End Angles.

(** ** The sweep as a list comprehension *)

Module SweepFacts.

Import ListNotations.
Import Types Constants PRBModel Linkage App Notions.

Lemma wholeFrom_S (lo : Z) (n : nat) :
  wholeFrom lo (S n) = lo :: wholeFrom (lo + 1) n.
Proof.
  unfold wholeFrom. cbn [seq map]. rewrite <- seq_shift, map_map.
  f_equal; [f_equal; lia |].
  apply map_ext. intros i. lia.
Qed.

Lemma wholeFrom_In (lo : Z) (n : nat) (t : Z) :
  In t (wholeFrom lo n) <-> (lo <= t < lo + Z.of_nat n)%Z.
Proof.
  unfold wholeFrom. rewrite in_map_iff. split.
  - intros (i & <- & Hi). apply in_seq in Hi. lia.
  - intros Ht. exists (Z.to_nat (t - lo)). split; [lia |].
    apply in_seq. lia.
Qed.

Lemma wholeFrom_sorted (n : nat) (lo : Z) :
  StronglySorted Z.lt (wholeFrom lo n).
Proof.
  revert lo. induction n as [| n IH]; intros lo.
  - constructor.
  - rewrite wholeFrom_S. constructor; [apply IH |].
    apply Forall_forall. intros t Ht. apply wholeFrom_In in Ht. lia.
Qed.

Lemma sorted_map {X Y : Type} (R : X -> X -> Prop) (S : Y -> Y -> Prop)
    (g : X -> Y) (l : list X) :
  (forall x x', R x x' -> S (g x) (g x')) ->
  StronglySorted R l -> StronglySorted S (map g l).
Proof.
  intros Hg Hl. induction Hl as [| x l Hl IH Hx]; cbn [map]; constructor.
  - exact IH.
  - apply Forall_forall. intros y Hy. apply in_map_iff in Hy.
    destruct Hy as (x' & <- & Hx'). apply Hg.
    rewrite Forall_forall in Hx. apply Hx, Hx'.
Qed.

Lemma sorted_filter {X : Type} (R : X -> X -> Prop) (f : X -> bool)
    (l : list X) :
  StronglySorted R l -> StronglySorted R (filter f l).
Proof.
  intros Hl. induction Hl as [| x l Hl IH Hx]; cbn [filter].
  - constructor.
  - destruct (f x); [| exact IH]. constructor; [exact IH |].
    rewrite Forall_forall in *. intros y Hy. apply filter_In in Hy.
    apply Hx, Hy.
Qed.

Lemma filter_all {X : Type} (f : X -> bool) (l : list X) :
  (forall x, In x l -> f x = true) -> filter f l = l.
Proof.
  induction l as [| x l IH]; intros H; cbn [filter]; [reflexivity |].
  rewrite (H x (or_introl eq_refl)). f_equal.
  apply IH. intros y Hy. apply H. right. exact Hy.
Qed.

Lemma filter_none {X : Type} (f : X -> bool) (l : list X) :
  (forall x, In x l -> f x = false) -> filter f l = [].
Proof.
  induction l as [| x l IH]; intros H; cbn [filter]; [reflexivity |].
  rewrite (H x (or_introl eq_refl)).
  apply IH. intros y Hy. apply H. right. exact Hy.
Qed.

(** The loop, started at [t] with enough fuel to reach 181, appends
    the valid states of the offsets [t, ..., 180] in that order. *)
Lemma sweep_filter (p : MechanismParams) (fuel : nat) :
  forall (t : Z) (data : list SimulationPoint),
    (181 - t <= Z.of_nat fuel)%Z ->
    sweep fuel t p data
    = data ++ filter isValid
                (map (sweptPoint p) (wholeFrom t (Z.to_nat (181 - t)))).
Proof.
  induction fuel as [| fuel IH]; intros t data Hfuel.
  - replace (Z.to_nat (181 - t)) with 0%nat by lia.
    cbn. rewrite app_nil_r. reflexivity.
  - cbn [sweep]. destruct (Z.leb_spec t 180) as [Ht | Ht].
    + rewrite IH by lia.
      replace (Z.to_nat (181 - t)) with (S (Z.to_nat (181 - (t + 1)))) by lia.
      rewrite wholeFrom_S. cbn [map filter].
      change (calculateKinematics (theta20 p + IZR t) p)
        with (sweptPoint p t).
      destruct (isValid (sweptPoint p t)); [| reflexivity].
      rewrite <- app_assoc. reflexivity.
    + replace (Z.to_nat (181 - t)) with 0%nat by lia.
      cbn. rewrite app_nil_r. reflexivity.
Qed.

Lemma simulationData_filter (p : MechanismParams) :
  simulationData p
  = filter isValid (map (sweptPoint p) (wholeFrom (-180) 361)).
Proof.
  unfold simulationData. rewrite sweep_filter by lia. reflexivity.
Qed.

Lemma sweptPoint_delta (p : MechanismParams) (t : Z) :
  deltaTheta2 (sweptPoint p t) = JS.fin (IZR t).
Proof.
  unfold sweptPoint. rewrite Evaluator.calculateKinematics_unfold.
  destruct (assemblyFails _ p); cbn [deltaTheta2]; apply f_equal; ring.
Qed.

End SweepFacts.

(** ** Properties of the sweep *)

Module Sweep.

Import ListNotations.
Import Types Constants PRBModel Linkage Scenario App Notions.

(** X14.  What the sweep holds.  The loop ends by its own test: any
    fuel from 361 on gives the same list.  A state is in
    [simulationData] exactly when it is the state computed at
    [theta20 + t] for a whole [t] of [[-180, 180]] and is valid;
    its [deltaTheta2] is then [t]. *)
Theorem simulationData_holds (p : MechanismParams) :
  (forall fuel : nat,
      (361 <= fuel)%nat -> sweep fuel (-180) p [] = simulationData p) /\
  (forall s : SimulationPoint,
      In s (simulationData p)
      <-> exists t : Z,
            (-180 <= t <= 180)%Z /\
            s = calculateKinematics (theta20 p + IZR t) p /\
            isValid s = true) /\
  (forall t : Z,
      deltaTheta2 (calculateKinematics (theta20 p + IZR t) p)
      = JS.fin (IZR t)).
Proof.
  split; [| split].
  - intros fuel Hfuel. unfold simulationData.
    rewrite !SweepFacts.sweep_filter by lia. reflexivity.
  - intros s. rewrite SweepFacts.simulationData_filter, filter_In, in_map_iff.
    split.
    + intros [(t & <- & Ht) Hv]. apply SweepFacts.wholeFrom_In in Ht.
      exists t. split; [lia |]. split; [reflexivity | exact Hv].
    + intros (t & Ht & -> & Hv). split; [| exact Hv].
      exists t. split; [reflexivity |].
      apply SweepFacts.wholeFrom_In. lia.
  - intros t. apply SweepFacts.sweptPoint_delta.
Qed.

(** X15.  Order and size of the sweep.  [simulationData] holds at
    most 361 states, and they come in strictly increasing
    [deltaTheta2]: each state is plotted to the left of every later
    one. *)
Theorem simulationData_sorted (p : MechanismParams) :
  (length (simulationData p) <= 361)%nat /\
  StronglySorted plottedBefore (simulationData p).
Proof.
  rewrite SweepFacts.simulationData_filter. split.
  - etransitivity; [apply filter_length_le |].
    rewrite length_map. unfold wholeFrom. rewrite length_map, length_seq.
    apply le_n.
  - apply SweepFacts.sorted_filter.
    apply (SweepFacts.sorted_map Z.lt); [| apply SweepFacts.wholeFrom_sorted].
    intros t t' Htt'. exists (IZR t), (IZR t').
    rewrite !SweepFacts.sweptPoint_delta.
    split; [reflexivity |]. split; [reflexivity |]. apply IZR_lt, Htt'.
Qed.

(** X16.  Full and empty sweeps.  For link lengths [r1, r2 >= 0]: when
    [r1 + r2 <= r3 + r4] and [|r3 - r4| <= |r1 - r2|] the sweep holds
    all 361 states; when [|r1 - r2| > r3 + r4] or
    [r1 + r2 < |r3 - r4|] it is empty. *)
Theorem simulationData_full_or_empty (p : MechanismParams) :
  let r4 := 0.85 * L4 p in
  0 <= r1 p -> 0 <= r2 p ->
  (r1 p + r2 p <= r3 p + r4 /\ Rabs (r3 p - r4) <= Rabs (r1 p - r2 p) ->
   simulationData p = map (sweptPoint p) (wholeFrom (-180) 361) /\
   length (simulationData p) = 361%nat) /\
  (Rabs (r1 p - r2 p) > r3 p + r4 \/ r1 p + r2 p < Rabs (r3 p - r4) ->
   simulationData p = []).
Proof.
  intros r4 H1 H2. rewrite SweepFacts.simulationData_filter. split.
  - intros [Ha Hb].
    assert (Hall : filter isValid (map (sweptPoint p) (wholeFrom (-180) 361))
                   = map (sweptPoint p) (wholeFrom (-180) 361)).
    { apply SweepFacts.filter_all. intros s Hs.
      apply in_map_iff in Hs. destruct Hs as (t & <- & _).
      apply Evaluator.isValid_true_iff. unfold infeasible.
      pose proof (Reach.pinDistance_window (theta20 p + IZR t) p H1 H2).
      change (rocker p) with r4. lra. }
    rewrite Hall. split; [reflexivity |].
    rewrite length_map. unfold wholeFrom. rewrite length_map, length_seq.
    reflexivity.
  - intros Hout. apply SweepFacts.filter_none. intros s Hs.
    apply in_map_iff in Hs. destruct Hs as (t & <- & _).
    apply Evaluator.isValid_false_iff. unfold infeasible.
    pose proof (Reach.pinDistance_window (theta20 p + IZR t) p H1 H2).
    change (rocker p) with r4. lra.
Qed.

Lemma simulationData_full_or_empty_witness :
  length (simulationData DEFAULT_PARAMS) = 361%nat /\
  simulationData farParams = [].
Proof.
  split.
  - apply (proj1 (simulationData_full_or_empty DEFAULT_PARAMS
                    ltac:(simpl; lra) ltac:(simpl; lra))).
    simpl. unfold Rabs.
    destruct (Rcase_abs (3.71 - 0.85 * 4.32)), (Rcase_abs (3.0 - 1.5)); lra.
  - apply (proj2 (simulationData_full_or_empty farParams
                    ltac:(simpl; lra) ltac:(simpl; lra))).
    left. simpl. unfold Rabs. destruct (Rcase_abs (10 - 1)); lra.
Defined.

(** X17.  The marker is on the curve.  The abscissa at which the
    component marks the current state is that state's [deltaTheta2];
    and when the crank angle is [theta20 + t] for a whole [t] of
    [[-180, 180]] and the current state is valid, that state is one of
    the states of the sweep. *)
Theorem marker_on_curve (p : MechanismParams) :
  (forall theta2 : R,
      currentDeltaTheta2 theta2 p = deltaTheta2 (currentPoint theta2 p)) /\
  (forall t : Z,
      (-180 <= t <= 180)%Z ->
      isValid (currentPoint (theta20 p + IZR t) p) = true ->
      In (currentPoint (theta20 p + IZR t) p) (simulationData p)).
Proof.
  split.
  - intros theta2. unfold currentDeltaTheta2, currentPoint.
    rewrite Evaluator.calculateKinematics_unfold.
    destruct (assemblyFails theta2 p); reflexivity.
  - intros t Ht Hv. unfold currentPoint in *.
    rewrite SweepFacts.simulationData_filter, filter_In, in_map_iff.
    split; [| exact Hv].
    exists t. split; [reflexivity |].
    apply SweepFacts.wholeFrom_In. lia.
Qed.

Lemma marker_on_curve_witness :
  In (currentPoint (theta20 DEFAULT_PARAMS + IZR 0) DEFAULT_PARAMS)
     (simulationData DEFAULT_PARAMS).
Proof.
  apply (proj2 (marker_on_curve DEFAULT_PARAMS) 0%Z ltac:(lia)).
  unfold currentPoint.
  replace (theta20 DEFAULT_PARAMS + IZR 0) with 90 by (simpl; lra).
  exact Reference.valid_90.
Defined.

End Sweep.

(** ** Facts about the state updates of the component *)

Module ControlFacts.

Import ListNotations.
Import Types Constants PRBModel Linkage App Notions.

Lemma nextTheta2_cases (prev : R) :
  (prev + 1.2 > 180 /\ nextTheta2 prev = -180) \/
  (prev + 1.2 <= 180 /\ nextTheta2 prev = prev + 1.2).
Proof.
  unfold nextTheta2. cbv zeta.
  destruct (JS.gtR (prev + 1.2) 180) eqn:Hgt.
  - left. apply JSFacts.gtR_true in Hgt. split; [exact Hgt | reflexivity].
  - right. apply JSFacts.gtR_false in Hgt. split; [exact Hgt | reflexivity].
Qed.

Lemma nextTheta2_range (prev : R) :
  -180 <= prev <= 180 -> -180 <= nextTheta2 prev <= 180.
Proof.
  intros H. destruct (nextTheta2_cases prev) as [[? ->] | [? ->]]; lra.
Qed.

(** From within [1.2 n] of the upper end the angle is sent back to
    [-180] after at most [n] frames. *)
Lemma wraps_within (n : nat) :
  forall theta : R,
    theta <= 180 -> 180 - 1.2 * INR n < theta ->
    exists m : nat,
      (1 <= m <= n)%nat /\ Nat.iter m nextTheta2 theta = -180.
Proof.
  induction n as [| n IH]; intros theta Hhi Hlo.
  - simpl in Hlo. lra.
  - rewrite S_INR in Hlo.
    destruct (nextTheta2_cases theta) as [[Hgt Hn] | [Hle Hn]].
    + exists 1%nat. split; [lia | exact Hn].
    + destruct (IH (theta + 1.2) Hle ltac:(lra)) as (m & Hm & Hit).
      exists (S m). split; [lia |].
      rewrite Nat.iter_succ_r, Hn. exact Hit.
Qed.

Lemma updateParam_links (key : ParamKey) (v : R) (p : MechanismParams) :
  In key [key_E; key_b; key_h; key_theta20; key_theta40] ->
  sameLinks (updateParam key v p) p.
Proof.
  unfold sameLinks. cbn [In].
  intros [<- | [<- | [<- | [<- | [<- | []]]]]]; repeat split.
Qed.

(** The stiffness is proportional to [E b h^3]. *)
Lemma stiffnessN_scale (p q : MechanismParams) (c k : R) :
  L4 q = L4 p ->
  E q * (b q * h q ^ 3) = c * (E p * (b p * h p ^ 3)) ->
  stiffnessN p = JS.fin k -> stiffnessN q = JS.fin (c * k).
Proof.
  intros HL Hc. unfold stiffnessN, secondMoment, JS.fin.
  NumFacts.num_simpl. rewrite HL.
  rewrite !(NumFacts.div_fin _ 100) by lra.
  NumFacts.num_simpl.
  destruct (Req_dec_T (L4 p / 100) 0) as [Hz | Hnz].
  - rewrite !NumFacts.div_zero by exact Hz. discriminate.
  - rewrite !NumFacts.div_fin by exact Hnz.
    intros Hk. injection Hk as <-. apply f_equal.
    unfold Rdiv.
    replace (0.85 * 2.65 * E q * (b q * h q ^ 3 * / 12))
      with (0.85 * 2.65 * / 12 * (E q * (b q * h q ^ 3))) by ring.
    rewrite Hc. ring.
Qed.

End ControlFacts.

(** ** Properties of the state updates *)

Module Controls.

Import ListNotations.
Import Types Constants PRBModel Linkage Scenario App Notions.

(** X18.  The animation.  A crank angle of [[-180, 180]] stays in
    that interval under every number of animation frames, and is sent
    back to [-180] after at least one and at most 301 of them. *)
Theorem animation_cycle (theta : R) :
  -180 <= theta <= 180 ->
  (forall n : nat, -180 <= Nat.iter n nextTheta2 theta <= 180) /\
  (exists n : nat,
      (1 <= n <= 301)%nat /\ Nat.iter n nextTheta2 theta = -180).
Proof.
  intros Hth. split.
  - intros n.
    apply (Nat.iter_invariant n R nextTheta2 (fun x => -180 <= x <= 180));
      [apply ControlFacts.nextTheta2_range | exact Hth].
  - apply ControlFacts.wraps_within; [lra |].
    replace (INR 301) with 301 by (rewrite INR_IZR_INZ; reflexivity).
    lra.
Qed.

Lemma animation_cycle_witness :
  exists n : nat, (1 <= n <= 301)%nat /\ Nat.iter n nextTheta2 90 = -180.
Proof. apply (proj2 (animation_cycle 90 ltac:(lra))). Defined.

(** X19.  Updating one parameter.  [updateParam] stores the value
    under its key and leaves every other field alone; storing twice
    keeps the last value, storing what is there changes nothing, and
    updates of different keys commute. *)
Theorem updateParam_laws
    (key key' : ParamKey) (v w : R) (p : MechanismParams) :
  readParam key (updateParam key v p) = v /\
  (key' <> key ->
   readParam key' (updateParam key v p) = readParam key' p) /\
  updateParam key v (updateParam key w p) = updateParam key v p /\
  updateParam key (readParam key p) p = p /\
  (key' <> key ->
   updateParam key v (updateParam key' w p)
   = updateParam key' w (updateParam key v p)).
Proof.
  destruct p. destruct key, key'; cbn;
    repeat split; intros; try reflexivity; congruence.
Qed.

(** X20.  What the pose does not read.  Changing the modulus, the
    section ([b], [h]) or a reference angle ([theta20], [theta40])
    leaves validity, [theta2], [theta3], [theta4], the link [r4] and
    all four joint positions as they were. *)
Theorem pose_unaffected
    (key : ParamKey) (v theta2Deg : R) (p : MechanismParams) :
  let p' := updateParam key v p in
  let s := calculateKinematics theta2Deg p in
  let s' := calculateKinematics theta2Deg p' in
  In key [key_E; key_b; key_h; key_theta20; key_theta40] ->
  isValid s' = isValid s /\
  theta2 s' = theta2 s /\
  theta3 s' = theta3 s /\
  theta4 s' = theta4 s /\
  r4 (prb s') = r4 (prb s) /\
  getJointPositions s' p' = getJointPositions s p.
Proof.
  intros p' s s' Hkey.
  pose proof (ControlFacts.updateParam_links key v p Hkey) as Hl.
  fold p' in Hl.
  assert (H2 : theta2 s' = theta2 s /\ theta3 s' = theta3 s).
  { subst s s'. rewrite !Evaluator.calculateKinematics_unfold.
    rewrite (Frame.assemblyFails_links _ _ _ Hl),
      (Frame.couplerAngleN_links _ _ _ Hl).
    destruct (assemblyFails theta2Deg p); split; reflexivity. }
  destruct H2 as [H2 H3].
  split; [| split; [exact H2 | split; [exact H3 | split; [| split]]]].
  - subst s s'. rewrite !Evaluator.isValid_assemblyFails.
    rewrite (Frame.assemblyFails_links _ _ _ Hl). reflexivity.
  - subst s s'. rewrite !Evaluator.calculateKinematics_unfold.
    rewrite (Frame.assemblyFails_links _ _ _ Hl),
      (Frame.rockerAngleN_links _ _ _ Hl).
    destruct (assemblyFails theta2Deg p); reflexivity.
  - subst s s'. rewrite !Evaluator.prb_calculateKinematics.
    destruct Hl as (_ & _ & _ & HL). cbn [prbOf r4]. unfold rocker.
    rewrite HL. reflexivity.
  - unfold getJointPositions. cbv zeta. rewrite H2, H3.
    destruct Hl as (-> & -> & -> & _). reflexivity.
Qed.

Lemma pose_unaffected_witness :
  theta4 (calculateKinematics 90 (updateParam key_E 207e9 DEFAULT_PARAMS))
  = theta4 (calculateKinematics 90 DEFAULT_PARAMS).
Proof.
  apply (pose_unaffected key_E 207e9 90 DEFAULT_PARAMS).
  cbn [In]. tauto.
Defined.

(** X21.  The reference crank angle.  Changing [theta20] changes
    [deltaTheta2] and nothing else of a state. *)
Theorem theta20_shifts_offset (v theta2Deg : R) (p : MechanismParams) :
  let s := calculateKinematics theta2Deg p in
  calculateKinematics theta2Deg (updateParam key_theta20 v p) =
    {| theta2 := theta2 s;
       theta3 := theta3 s;
       theta4 := theta4 s;
       deltaTheta2 := JS.fin (theta2Deg - v);
       energy := energy s;
       torque := torque s;
       isValid := isValid s;
       prb := prb s |}.
Proof.
  cbv zeta.
  assert (Hl : sameLinks (updateParam key_theta20 v p) p)
    by (apply ControlFacts.updateParam_links; cbn [In]; tauto).
  rewrite !Evaluator.calculateKinematics_unfold.
  rewrite (Frame.assemblyFails_links _ _ _ Hl),
    (Frame.couplerAngleN_links _ _ _ Hl),
    (Frame.rockerAngleN_links _ _ _ Hl),
    (Frame.h42N_links _ _ _ Hl),
    (Frame.deflectionN_links _ _ _ Hl eq_refl).
  destruct p. destruct (assemblyFails theta2Deg _); reflexivity.
Qed.

(** X22.  Proportionality to [E b h^3].  Multiplying the modulus by
    [cE], the width by [cb] and the thickness by [ch] multiplies the
    stiffness, the energy and the torque of every state by
    [cE * cb * ch ^ 3], whenever these are numbers. *)
Theorem stiffness_scaling (cE cb ch theta2Deg : R) (p : MechanismParams) :
  let p' :=
    updateParam key_E (cE * E p)
      (updateParam key_b (cb * b p) (updateParam key_h (ch * h p) p)) in
  let c := cE * cb * ch ^ 3 in
  let s := calculateKinematics theta2Deg p in
  let s' := calculateKinematics theta2Deg p' in
  (forall k : R, K (prb s) = JS.fin k -> K (prb s') = JS.fin (c * k)) /\
  (forall e : R, energy s = JS.fin e -> energy s' = JS.fin (c * e)) /\
  (forall m : R, torque s = JS.fin m -> torque s' = JS.fin (c * m)).
Proof.
  intros p' c s s'.
  assert (Hl : sameLinks p' p) by (destruct p; repeat split).
  assert (H40 : theta40 p' = theta40 p) by (destruct p; reflexivity).
  assert (HK : forall k : R,
             stiffnessN p = JS.fin k -> stiffnessN p' = JS.fin (c * k)).
  { intros k. apply ControlFacts.stiffnessN_scale.
    - destruct p; reflexivity.
    - destruct p; subst c; cbn. ring. }
  subst s s'. rewrite !Evaluator.calculateKinematics_unfold.
  rewrite (Frame.assemblyFails_links _ _ _ Hl),
    (Frame.h42N_links _ _ _ Hl),
    (Frame.deflectionN_links _ _ _ Hl H40).
  destruct (assemblyFails theta2Deg p); cbn [prb prbOf K energy torque].
  - split; [exact HK |].
    split; intros x Hx; apply NumFacts.fin_inj in Hx; subst x;
      apply f_equal; ring.
  - split; [exact HK |].
    destruct (stiffnessN p) as [k |].
    + rewrite (HK k eq_refl).
      destruct (deflectionN theta2Deg p) as [dt |],
               (h42N theta2Deg p) as [x |];
        NumFacts.num_simpl; split; intros y Hy; try discriminate Hy;
        injection Hy as <-; apply f_equal; ring.
    + split; intros y Hy; exfalso; revert Hy;
        destruct (stiffnessN p'), (deflectionN theta2Deg p),
                 (h42N theta2Deg p); NumFacts.num_simpl; discriminate.
Qed.

End Controls.

(** ** Facts about the outline of the flexible beam *)

Module BeamFacts.

Import Types Constants PRBModel Linkage App Notions.

(** The outline on a valid state whose [theta4] and [r4] are
    numbers. *)
Lemma outline (p : MechanismParams) (point : SimulationPoint) (a4 rho : R) :
  isValid point = true ->
  theta4 point = JS.fin a4 ->
  r4 (prb point) = JS.fin rho ->
  CompliantBeam p point =
    Some
      {| baseX := JS.fin (r1 p - (1 - PRB_GAMMA) * L4 p
                                 * cos (toRadians (theta40 p)));
         baseY := JS.fin (0 - (1 - PRB_GAMMA) * L4 p
                              * sin (toRadians (theta40 p)));
         cp1x := JS.fin (r1 p - (1 - PRB_GAMMA) * L4 p
                                * cos (toRadians (theta40 p))
                         + L4 p * 0.45 * 0.3 * cos (toRadians (theta40 p)));
         cp1y := JS.fin (0 - (1 - PRB_GAMMA) * L4 p
                             * sin (toRadians (theta40 p))
                         + L4 p * 0.45 * 0.3 * sin (toRadians (theta40 p)));
         cp2x := JS.fin (r1 p + rho * cos (toRadians a4)
                         - rho * 0.4 * cos (toRadians a4));
         cp2y := JS.fin (0 + rho * sin (toRadians a4)
                         - rho * 0.4 * sin (toRadians a4));
         xTip := JS.fin (r1 p + rho * cos (toRadians a4));
         yTip := JS.fin (0 + rho * sin (toRadians a4));
         wallRotation := JS.fin (theta40 p - 90) |}.
Proof.
  intros Hv H4 Hr. unfold CompliantBeam. rewrite Hv. cbn [negb]. cbv zeta.
  rewrite H4, Hr, !Evaluator.toRadiansN. reflexivity.
Qed.

Lemma distance_sq (P Q : R * R) :
  distance P Q ^ 2 = (fst P - fst Q) ^ 2 + (snd P - snd Q) ^ 2.
Proof. unfold distance. apply Trig.norm_sq. Qed.

Lemma distance_nonneg (P Q : R * R) : 0 <= distance P Q.
Proof. apply sqrt_pos. Qed.

End BeamFacts.

(** ** Properties of the outline of the flexible beam *)

Module Beam.

Import Types Constants PRBModel Linkage Scenario App Notions.

(** X23.  The beam ends on the pin.  [CompliantBeam] returns nothing
    exactly for the states that are not valid.  On a valid state of
    the evaluator whose [theta4] is a number, the end point of the
    drawn beam, computed from [theta4] and [r4], is the joint [B] that
    the projector computes from [theta2] and [theta3]. *)
Theorem beam_ends_on_pin (p : MechanismParams) :
  (forall point : SimulationPoint,
      CompliantBeam p point = None <-> isValid point = false) /\
  (forall theta2Deg a4 : R,
      let s := calculateKinematics theta2Deg p in
      isValid s = true -> theta4 s = JS.fin a4 ->
      exists o : BeamOutline,
        CompliantBeam p s = Some o /\
        (xTip o, yTip o) = B (getJointPositions s p)).
Proof.
  split.
  - intros point. unfold CompliantBeam.
    destruct (isValid point); cbn [negb]; split; intros H;
      try discriminate H; reflexivity.
  - intros theta2Deg a4 s Hv H4. subst s.
    pose proof (Pose.number_offPivot _ _ _ Hv H4) as Hoff.
    eexists. split.
    + apply (BeamFacts.outline p _ a4 (rocker p) Hv H4).
      rewrite Evaluator.prb_calculateKinematics. reflexivity.
    + cbn [xTip yTip].
      rewrite (Pose.joints _ _ Hv Hoff). cbn [B].
      rewrite (Evaluator.calculateKinematics_valid _ _ Hv Hoff) in H4.
      cbn [theta4] in H4. apply NumFacts.fin_inj in H4. subst a4.
      rewrite Pose.rockerPin_reported. cbn [fst snd]. unfold rocker.
      f_equal. apply f_equal. ring.
Qed.

Lemma beam_ends_on_pin_witness :
  exists o : BeamOutline,
    CompliantBeam DEFAULT_PARAMS (calculateKinematics 90 DEFAULT_PARAMS)
    = Some o /\
    (xTip o, yTip o)
    = B (getJointPositions (calculateKinematics 90 DEFAULT_PARAMS)
                           DEFAULT_PARAMS).
Proof.
  refine (proj2 (beam_ends_on_pin DEFAULT_PARAMS) 90
            (normalizeDegreesR (toDegrees t4_90)) Reference.valid_90 _).
  rewrite Reference.state_90. reflexivity.
Defined.

(** X24.  The length of the drawn beam.  For [L4 >= 0] and a valid
    state of the evaluator whose [theta4] is a number, the clamped
    end of the beam is at [0.15 L4] from the rocker pivot, and the
    straight line from the clamped end to the end point is never
    longer than [L4]; it is exactly [L4] long when [theta4] is the
    undeflected angle [theta40]. *)
Theorem beam_chord (theta2Deg a4 : R) (p : MechanismParams) :
  let s := calculateKinematics theta2Deg p in
  0 <= L4 p -> isValid s = true -> theta4 s = JS.fin a4 ->
  exists (o : BeamOutline) (bx by' tx ty : R),
    CompliantBeam p s = Some o /\
    (baseX o, baseY o) = (JS.fin bx, JS.fin by') /\
    (xTip o, yTip o) = (JS.fin tx, JS.fin ty) /\
    distance (bx, by') (r1 p, 0) = 0.15 * L4 p /\
    distance (tx, ty) (bx, by') <= L4 p /\
    (a4 = theta40 p -> distance (tx, ty) (bx, by') = L4 p).
Proof.
  intros s HL Hv H4. subst s.
  rewrite (BeamFacts.outline p _ a4 (rocker p) Hv H4)
    by (rewrite Evaluator.prb_calculateKinematics; reflexivity).
  eexists.
  exists (r1 p - (1 - PRB_GAMMA) * L4 p * cos (toRadians (theta40 p))),
    (0 - (1 - PRB_GAMMA) * L4 p * sin (toRadians (theta40 p))),
    (r1 p + rocker p * cos (toRadians a4)),
    (0 + rocker p * sin (toRadians a4)).
  split; [reflexivity |]. cbn [baseX baseY xTip yTip].
  split; [reflexivity |]. split; [reflexivity |].
  unfold PRB_GAMMA, rocker.
  set (c0 := cos (toRadians (theta40 p))).
  set (s0 := sin (toRadians (theta40 p))).
  set (c4 := cos (toRadians a4)). set (s4 := sin (toRadians a4)).
  assert (H0 : s0 * s0 + c0 * c0 = 1) by apply sin2_cos2.
  assert (H1 : s4 * s4 + c4 * c4 = 1) by apply sin2_cos2.
  assert (Hsq : distance (r1 p + 0.85 * L4 p * c4, 0 + 0.85 * L4 p * s4)
                         (r1 p - (1 - 0.85) * L4 p * c0,
                          0 - (1 - 0.85) * L4 p * s0) ^ 2
                = L4 p ^ 2 * (0.7450 + 0.2550 * (c4 * c0 + s4 * s0))).
  { rewrite BeamFacts.distance_sq. cbn [fst snd].
    replace ((r1 p + 0.85 * L4 p * c4 - (r1 p - (1 - 0.85) * L4 p * c0)) ^ 2
             + (0 + 0.85 * L4 p * s4 - (0 - (1 - 0.85) * L4 p * s0)) ^ 2)
      with (L4 p ^ 2 * (0.7225 * (s4 * s4 + c4 * c4)
                        + 0.0225 * (s0 * s0 + c0 * c0)
                        + 0.2550 * (c4 * c0 + s4 * s0))) by lra.
    rewrite H0, H1. lra. }
  split; [| split].
  - replace (r1 p - (1 - 0.85) * L4 p * c0)
      with (r1 p + (- (0.15 * L4 p)) * c0) by lra.
    replace (0 - (1 - 0.85) * L4 p * s0)
      with (0 + (- (0.15 * L4 p)) * s0) by lra.
    unfold distance. cbn [fst snd].
    replace ((r1 p + - (0.15 * L4 p) * c0 - r1 p) ^ 2
             + (0 + - (0.15 * L4 p) * s0 - 0) ^ 2)
      with ((0.15 * L4 p) ^ 2 * (s0 * s0 + c0 * c0)) by ring.
    rewrite H0, Rmult_1_r. apply sqrt_pow2. lra.
  - apply Reach.sq_le; [apply BeamFacts.distance_nonneg | exact HL |].
    eapply Rle_trans; [right; exact Hsq |].
    assert (Hc : c4 * c0 + s4 * s0 <= 1).
    { unfold c4, c0, s4, s0. rewrite <- cos_minus. apply COS_bound. }
    pose proof (pow2_ge_0 (L4 p)). nra.
  - intros ->.
    assert (Hc : c4 * c0 + s4 * s0 = 1) by (unfold c4, s4; fold c0 s0; lra).
    rewrite Hc in Hsq.
    apply Rle_antisym.
    + apply Reach.sq_le; [apply BeamFacts.distance_nonneg | exact HL |].
      eapply Rle_trans; [right; exact Hsq |]. lra.
    + apply Reach.sq_le; [exact HL | apply BeamFacts.distance_nonneg |].
      eapply Rle_trans; [| right; symmetry; exact Hsq]. lra.
Qed.

Lemma beam_chord_witness :
  exists (o : BeamOutline) (bx by' tx ty : R),
    CompliantBeam toggleParams (calculateKinematics 0 toggleParams) = Some o /\
    (baseX o, baseY o) = (JS.fin bx, JS.fin by') /\
    (xTip o, yTip o) = (JS.fin tx, JS.fin ty) /\
    distance (tx, ty) (bx, by') = L4 toggleParams.
Proof.
  assert (H4 : theta4 (calculateKinematics 0 toggleParams) = JS.fin 0).
  { rewrite (Evaluator.calculateKinematics_valid _ _
               Examples.toggle_valid Examples.toggle_offPivot).
    cbn [theta4]. rewrite Examples.toggle_rockerAngle.
    unfold toDegrees. replace (0 * 180 / PI) with 0 by (unfold Rdiv; ring).
    rewrite Normalize.normalizeDegrees_0. reflexivity. }
  destruct (beam_chord 0 0 toggleParams ltac:(simpl; lra)
              Examples.toggle_valid H4)
    as (o & bx & by' & tx & ty & Ho & Hb & Ht & _ & _ & Heq).
  exists o, bx, by', tx, ty.
  split; [exact Ho |]. split; [exact Hb |]. split; [exact Ht |].
  apply Heq. reflexivity.
Defined.

End Beam.

(** ** The material table *)

Module Catalogue.

Import ListNotations.
Import String.
Import Types Constants PRBModel Linkage App Notions.

(** X25.  Choosing a material.  Every modulus of the table is
    positive: with a positive section and beam length, storing it
    under [E] gives a positive stiffness [K], at every crank angle.
    The modulus of the reference parameter set is the first of the
    table. *)
Theorem listed_material_stiffness
    (m : Materials.Material) (theta2Deg : R) (p : MechanismParams) :
  In m Materials.MATERIALS -> 0 < b p -> 0 < h p -> 0 < L4 p ->
  let p' := updateParam key_E (Materials.E m) p in
  0 < Materials.E m /\
  (exists k : R,
      K (prb (calculateKinematics theta2Deg p')) = JS.fin k /\ 0 < k) /\
  option_map Materials.E (hd_error Materials.MATERIALS)
  = Some (E DEFAULT_PARAMS).
Proof.
  intros Hm Hb Hh HL p'.
  assert (HE : 0 < Materials.E m).
  { cbn [In Materials.MATERIALS] in Hm.
    destruct Hm as [<- | [<- | [<- | [<- | [<- | []]]]]]; cbn; lra. }
  split; [exact HE |]. split; [| reflexivity].
  exists (stiffness p'). split.
  - rewrite Evaluator.prb_calculateKinematics. cbn [prbOf K].
    apply Evaluator.stiffnessN_fin. subst p'. destruct p. cbn in *. lra.
  - apply Evaluator.stiffness_pos; subst p'; destruct p; cbn in *; assumption.
Qed.

Lemma listed_material_stiffness_witness :
  exists k : R,
    K (prb (calculateKinematics 90
              (updateParam key_E 207e9 DEFAULT_PARAMS))) = JS.fin k /\
    0 < k.
Proof.
  refine (proj1 (proj2 (listed_material_stiffness
                          {| Materials.name := "Steel"%string;
                             Materials.E := 207e9 |}
                          90 DEFAULT_PARAMS _ _ _ _))).
  - cbn [In Materials.MATERIALS]. right. left. reflexivity.
  - simpl; lra.
  - simpl; lra.
  - simpl; lra.
Defined.

End Catalogue.
